(** * Trace writer of apitrace (trace_writer.cpp)

    A shallow embedding of the trace writer: the varint encoder, the
    definition caches, the event framing, the session controller and the
    region diff engine, followed by the properties of the specification
    that are stated about them.

    Conventions of the embedding.
    - Integers of the source ([unsigned], [size_t], [unsigned long long],
      pointers) are [Z]; the wrap-around of the machine arithmetic is written
      out with [wrap32] and [wrap64].
    - A byte is a [Z] in [0, 256); a buffer is a [list Z].
    - The compressed output stream is modelled by the sequence of bytes
      handed to [gzwrite]: [g_gzFile = Some s] is an open handle that has
      received [s], [None] is the null handle.
    - The writer is a value passed from call to call; the registry of
      regions, a static of the source file, is passed next to it.
    - The mutex calls of the source are left out: the model is sequential. *)

From Stdlib Require Import ZArith List String Ascii Bool Lia.
From stdpp Require Import base list.

Local Open Scope Z_scope.

Module Trace.

(** ** Machine integers *)

Definition wrap64 (z : Z) : Z := z mod 2 ^ 64.
Definition wrap32 (z : Z) : Z := z mod 2 ^ 32.

(** Conversion of a 64-bit pattern to [signed long long]. *)
Definition signed64 (z : Z) : Z :=
  let u := wrap64 z in if u <? 2 ^ 63 then u else u - 2 ^ 64.

(** ** Constants of trace_format.hpp

    The values of the constants of trace_format.hpp are not fixed here: the
    development takes them as a parameter. *)

Record TraceFormat := {
  TRACE_VERSION : Z;
  EVENT_ENTER : Z;
  EVENT_LEAVE : Z;
  CALL_END : Z;
  CALL_ARG : Z;
  CALL_RET : Z;
  TYPE_NULL : Z;
  TYPE_FALSE : Z;
  TYPE_TRUE : Z;
  TYPE_SINT : Z;
  TYPE_UINT : Z;
  TYPE_FLOAT : Z;
  TYPE_DOUBLE : Z;
  TYPE_STRING : Z;
  TYPE_BLOB : Z;
  TYPE_ENUM : Z;
  TYPE_BITMASK : Z;
  TYPE_ARRAY : Z;
  TYPE_STRUCT : Z;
  TYPE_OPAQUE : Z
}.

(** ** Signatures (trace_writer.hpp), as trace_writer.cpp uses them *)

Record FunctionSig := {
  fn_id : Z;
  fn_name : string;
  num_args : Z;
  arg_names : list string
}.

Record StructSig := {
  st_id : Z;
  st_name : string;
  num_members : Z;
  member_names : list string
}.

Record EnumSig := {
  en_id : Z;
  en_name : string;
  en_value : Z
}.

Record BitmaskFlag := {
  flag_name : string;
  flag_value : Z
}.

Record BitmaskSig := {
  bm_id : Z;
  num_flags : Z;
  flags : list BitmaskFlag
}.

(** ** The operating system and zlib, as seen by the writer

    [gzopen] tells whether opening the output file yields a handle,
    [queryVirtualAddress] is [OS::queryVirtualAddress] (the extent
    [(start, stop)] backing an address, if any) and [mem] is the byte
    stored at an address when the writer reads it. *)

Record OS := {
  gzopen : bool;
  queryVirtualAddress : Z -> option (Z * Z);
  mem : Z -> Z
}.

(** ** Writer state *)

Record Writer := {
  g_gzFile : option (list Z);
  call_no : Z;
  functions : list bool;
  structs : list bool;
  enums : list bool;
  bitmasks : list bool;
  (** streams that were handed to [gzclose], most recent first *)
  gz_closed : list (list Z)
}.

Definition set_gzFile (w : Writer) (f : option (list Z)) : Writer :=
  {| g_gzFile := f; call_no := call_no w; functions := functions w;
     structs := structs w; enums := enums w; bitmasks := bitmasks w;
     gz_closed := gz_closed w |}.

Definition set_call_no (w : Writer) (n : Z) : Writer :=
  {| g_gzFile := g_gzFile w; call_no := n; functions := functions w;
     structs := structs w; enums := enums w; bitmasks := bitmasks w;
     gz_closed := gz_closed w |}.

Definition set_functions (w : Writer) (m : list bool) : Writer :=
  {| g_gzFile := g_gzFile w; call_no := call_no w; functions := m;
     structs := structs w; enums := enums w; bitmasks := bitmasks w;
     gz_closed := gz_closed w |}.

Definition set_structs (w : Writer) (m : list bool) : Writer :=
  {| g_gzFile := g_gzFile w; call_no := call_no w; functions := functions w;
     structs := m; enums := enums w; bitmasks := bitmasks w;
     gz_closed := gz_closed w |}.

Definition set_enums (w : Writer) (m : list bool) : Writer :=
  {| g_gzFile := g_gzFile w; call_no := call_no w; functions := functions w;
     structs := structs w; enums := m; bitmasks := bitmasks w;
     gz_closed := gz_closed w |}.

Definition set_bitmasks (w : Writer) (m : list bool) : Writer :=
  {| g_gzFile := g_gzFile w; call_no := call_no w; functions := functions w;
     structs := structs w; enums := enums w; bitmasks := m;
     gz_closed := gz_closed w |}.

(** [Writer::Writer]: null handle, counter 0, empty caches. *)
Definition new_Writer : Writer :=
  {| g_gzFile := None; call_no := 0; functions := []; structs := [];
     enums := []; bitmasks := []; gz_closed := [] |}.

(** [Writer::close] *)
Definition close (w : Writer) : Writer :=
  match g_gzFile w with
  | Some s =>
      {| g_gzFile := None; call_no := call_no w; functions := functions w;
         structs := structs w; enums := enums w; bitmasks := bitmasks w;
         gz_closed := s :: gz_closed w |}
  | None => w
  end.

(** [gzwrite(file, buf, unsigned len)] of zlib, on the bytes that the stream
    has received: the [size_t] count that [Writer::_write] passes is narrowed
    to [unsigned], and a count that does not fit an [int] is refused. *)
Definition gzwrite (s sBuffer : list Z) : list Z :=
  let len := wrap32 (Z.of_nat (length sBuffer)) in
  if len <? 2 ^ 31 then s ++ take (Z.to_nat len) sBuffer else s.

(** [Writer::_write].  The buffer goes to the stream whole, which is what
    [gzwrite] does with a buffer of fewer than [2^31] bytes; the properties
    of the payloads whose length the caller chooses (strings and blobs) are
    stated for such buffers. *)
Definition _write (w : Writer) (sBuffer : list Z) : Writer :=
  match g_gzFile w with
  | None => w
  | Some s => set_gzFile w (Some (s ++ sBuffer))
  end.

(** [Writer::_writeByte] *)
Definition _writeByte (w : Writer) (c : Z) : Writer := _write w [c].

(** [gzflush(g_gzFile, Z_SYNC_FLUSH)]: the bytes received by the stream do
    not change; on the null handle zlib returns an error code, which the
    writer ignores. *)
Definition gzflush (w : Writer) : Writer := w.

(** ** Varint encoder

    The [do ... while (value)] loop of [Writer::_writeUInt].  [room] is
    [sizeof buf - len]: when it is exhausted, [assert(len < sizeof buf)]
    fails, which is the [None] result. *)

Definition sizeof_buf : nat := 16.

Fixpoint _writeUInt_loop (room : nat) (value : Z) (buf : list Z) : option (list Z) :=
  match room with
  | O => None
  | S room' =>
      let buf' := buf ++ [Z.lor 128 (Z.land value 127)] in
      let value' := Z.shiftr value 7 in
      if value' =? 0 then Some buf' else _writeUInt_loop room' value' buf'
  end.

(** [buf[len - 1] &= 0x7f] *)
Definition clear_last (buf : list Z) : list Z :=
  match rev buf with
  | [] => []
  | b :: r => rev r ++ [Z.land b 127]
  end.

(** The buffer [_writeUInt] hands to [_write] for an [unsigned long long]. *)
Definition varint (value : Z) : option (list Z) :=
  match _writeUInt_loop sizeof_buf value [] with
  | Some buf => Some (clear_last buf)
  | None => None
  end.

(** [Writer::_writeUInt]; the argument is converted to [unsigned long long]
    at the call.  The branch of the failed assertion is never taken (see
    [varint_total]). *)
Definition _writeUInt (w : Writer) (value : Z) : Writer :=
  match varint (wrap64 value) with
  | Some buf => _write w buf
  | None => w
  end.

(** Bytes of a C string. *)
Definition bytes_of_string (s : string) : list Z :=
  map (fun a => Z.of_N (N_of_ascii a)) (list_ascii_of_string s).

(** [Writer::_writeString] *)
Definition _writeString (w : Writer) (str : string) : Writer :=
  let len := Z.of_nat (length (bytes_of_string str)) in
  _write (_writeUInt w len) (bytes_of_string str).

(** [_writeFloat] and [_writeDouble] write the 4 or 8 bytes of the native
    representation, given here as the buffer [repr]. *)
Definition _writeFloat (w : Writer) (repr : list Z) : Writer := _write w (take 4 repr).
Definition _writeDouble (w : Writer) (repr : list Z) : Writer := _write w (take 8 repr).

(** ** Definition caches *)

(** [lookup(std::vector<bool> &map, size_t index)]: the vector after the
    call and the result.  The index is an id of type [unsigned] converted to
    [size_t], so [index + 1] does not wrap. *)
Definition lookup (map : list bool) (index : Z) : list bool * bool :=
  if Z.of_nat (length map) <=? index
  then (resize (Z.to_nat (index + 1)) false map, false)
  else (map, default false (map !! Z.to_nat index)).

(** [map[index] = true] *)
Definition mark (map : list bool) (index : Z) : list bool :=
  <[Z.to_nat index := true]> map.

(** ** Framing and values *)

Section Framing.

Variable fmt : TraceFormat.

(** [Writer::open(const char *filename)]: the result and the writer. *)
Definition open (os : OS) (w : Writer) : bool * Writer :=
  let w := close w in
  if gzopen os then
    let w :=
      {| g_gzFile := Some []; call_no := 0; functions := []; structs := [];
         enums := []; bitmasks := []; gz_closed := gz_closed w |} in
    (true, _writeUInt w (TRACE_VERSION fmt))
  else (false, w).

(** [Writer::open(void)]: picks a file name and calls [open(filename)],
    dropping its result. *)
Definition open_void (os : OS) (w : Writer) : Writer := snd (open os w).

(** The loops writing [num] names out of an array of names. *)
Definition write_names (w : Writer) (num : Z) (names : list string) : Writer :=
  fold_left (fun w i => _writeString w (nth i names EmptyString))
            (seq 0 (Z.to_nat num)) w.

(** [if (!g_gzFile) open();] at the head of [beginEnter]. *)
Definition ensure_open (os : OS) (w : Writer) : Writer :=
  match g_gzFile w with None => open_void os w | Some _ => w end.

(** [Writer::beginEnter]: the call number returned and the writer. *)
Definition beginEnter (os : OS) (w : Writer) (sig : FunctionSig) : Z * Writer :=
  let w := ensure_open os w in
  let w := _writeByte w (EVENT_ENTER fmt) in
  let w := _writeUInt w (fn_id sig) in
  let '(m, described) := lookup (functions w) (fn_id sig) in
  let w := set_functions w m in
  let w :=
    if described then w
    else
      let w := _writeString w (fn_name sig) in
      let w := _writeUInt w (num_args sig) in
      let w := write_names w (num_args sig) (arg_names sig) in
      set_functions w (mark (functions w) (fn_id sig)) in
  (call_no w, set_call_no w (wrap32 (call_no w + 1))).

(** [Writer::endEnter] *)
Definition endEnter (w : Writer) : Writer :=
  gzflush (_writeByte w (CALL_END fmt)).

(** [Writer::beginLeave] *)
Definition beginLeave (w : Writer) (call : Z) : Writer :=
  _writeUInt (_writeByte w (EVENT_LEAVE fmt)) call.

(** [Writer::endLeave] *)
Definition endLeave (w : Writer) : Writer :=
  gzflush (_writeByte w (CALL_END fmt)).

(** [Writer::beginArg] *)
Definition beginArg (w : Writer) (index : Z) : Writer :=
  _writeUInt (_writeByte w (CALL_ARG fmt)) index.

(** Modelled from the spec: [endArg] is an inline member declared in
    trace_writer.hpp, outside trace_writer.cpp; in the framing of the spec
    (section 4.3) nothing follows an argument value before the next
    argument or [CALL_END], so it writes nothing. *)
Definition endArg (w : Writer) : Writer := w.

(** Modelled from the spec: [endReturn] is an inline member declared in
    trace_writer.hpp, outside trace_writer.cpp; in the framing of the spec
    (section 4.3) nothing follows the return value before [CALL_END], so it
    writes nothing. *)
Definition endReturn (w : Writer) : Writer := w.

(** [Writer::beginReturn] *)
Definition beginReturn (w : Writer) : Writer := _writeByte w (CALL_RET fmt).

(** [Writer::beginArray] *)
Definition beginArray (w : Writer) (length : Z) : Writer :=
  _writeUInt (_writeByte w (TYPE_ARRAY fmt)) length.

(** [Writer::beginStruct] *)
Definition beginStruct (w : Writer) (sig : StructSig) : Writer :=
  let w := _writeByte w (TYPE_STRUCT fmt) in
  let w := _writeUInt w (st_id sig) in
  let '(m, described) := lookup (structs w) (st_id sig) in
  let w := set_structs w m in
  if described then w
  else
    let w := _writeString w (st_name sig) in
    let w := _writeUInt w (num_members sig) in
    let w := write_names w (num_members sig) (member_names sig) in
    set_structs w (mark (structs w) (st_id sig)).

(** [Writer::writeBool] *)
Definition writeBool (w : Writer) (value : bool) : Writer :=
  _writeByte w (if value then TYPE_TRUE fmt else TYPE_FALSE fmt).

(** [Writer::writeSInt]; [value] is a [signed long long].  The negation is
    the machine negation of a [signed long long], converted to
    [unsigned long long] by the call of [_writeUInt]. *)
Definition writeSInt (w : Writer) (value : Z) : Writer :=
  if value <? 0 then
    _writeUInt (_writeByte w (TYPE_SINT fmt)) (signed64 (- value))
  else
    _writeUInt (_writeByte w (TYPE_UINT fmt)) value.

(** [Writer::writeUInt] *)
Definition writeUInt (w : Writer) (value : Z) : Writer :=
  _writeUInt (_writeByte w (TYPE_UINT fmt)) value.

(** [Writer::writeFloat], [Writer::writeDouble] *)
Definition writeFloat (w : Writer) (repr : list Z) : Writer :=
  _writeFloat (_writeByte w (TYPE_FLOAT fmt)) repr.

Definition writeDouble (w : Writer) (repr : list Z) : Writer :=
  _writeDouble (_writeByte w (TYPE_DOUBLE fmt)) repr.

(** [Writer::writeNull] *)
Definition writeNull (w : Writer) : Writer := _writeByte w (TYPE_NULL fmt).

(** [Writer::writeString(const char *str)]; [None] is the null pointer. *)
Definition writeString (w : Writer) (str : option string) : Writer :=
  match str with
  | None => writeNull w
  | Some s => _writeString (_writeByte w (TYPE_STRING fmt)) s
  end.

(** [Writer::writeString(const char *str, size_t len)]; the buffer holds
    the [len] bytes at [str]. *)
Definition writeString_len (w : Writer) (str : option (list Z)) : Writer :=
  match str with
  | None => writeNull w
  | Some bs =>
      let w := _writeByte w (TYPE_STRING fmt) in
      _write (_writeUInt w (Z.of_nat (length bs))) bs
  end.

(** [Writer::writeWString]; [is_null] tells whether the pointer is null. *)
Definition writeWString (w : Writer) (is_null : bool) : Writer :=
  if is_null then writeNull w
  else _writeString (_writeByte w (TYPE_STRING fmt)) "<wide-string>".

(** The [size] bytes of memory at address [p]. *)
Definition read_bytes (os : OS) (p size : Z) : list Z :=
  map (fun i => mem os (wrap64 (p + Z.of_nat i))) (seq 0 (Z.to_nat size)).

(** [Writer::writeBlob]; [data] is an address, 0 the null pointer. *)
Definition writeBlob (os : OS) (w : Writer) (data size : Z) : Writer :=
  if data =? 0 then writeNull w
  else
    let w := _writeByte w (TYPE_BLOB fmt) in
    let w := _writeUInt w size in
    if size =? 0 then w else _write w (read_bytes os data size).

(** [Writer::writeEnum] *)
Definition writeEnum (w : Writer) (sig : EnumSig) : Writer :=
  let w := _writeByte w (TYPE_ENUM fmt) in
  let w := _writeUInt w (en_id sig) in
  let '(m, described) := lookup (enums w) (en_id sig) in
  let w := set_enums w m in
  if described then w
  else
    let w := _writeString w (en_name sig) in
    let w := writeSInt w (en_value sig) in
    set_enums w (mark (enums w) (en_id sig)).

(** The loop of [writeBitmask] over the flags (the warning about a zero
    flag that is not the first one only goes to the debug output). *)
Definition write_flags (w : Writer) (num : Z) (fl : list BitmaskFlag) : Writer :=
  fold_left (fun w i =>
               let f := nth i fl {| flag_name := EmptyString; flag_value := 0 |} in
               _writeUInt (_writeString w (flag_name f)) (flag_value f))
            (seq 0 (Z.to_nat num)) w.

(** [Writer::writeBitmask] *)
Definition writeBitmask (w : Writer) (sig : BitmaskSig) (value : Z) : Writer :=
  let w := _writeByte w (TYPE_BITMASK fmt) in
  let w := _writeUInt w (bm_id sig) in
  let '(m, described) := lookup (bitmasks w) (bm_id sig) in
  let w := set_bitmasks w m in
  let w :=
    if described then w
    else
      let w := _writeUInt w (num_flags sig) in
      let w := write_flags w (num_flags sig) (flags sig) in
      set_bitmasks w (mark (bitmasks w) (bm_id sig)) in
  _writeUInt w value.

(** [Writer::writeOpaque]; [addr] is an address, 0 the null pointer. *)
Definition writeOpaque (w : Writer) (addr : Z) : Writer :=
  if addr =? 0 then writeNull w
  else _writeUInt (_writeByte w (TYPE_OPAQUE fmt)) addr.

End Framing.

(** ** Ranges (range.hpp) *)

(** [range::range<size_t>]: the span [[start, stop)]. *)
Record range := {
  start : Z;
  stop : Z
}.

(** Modelled from the spec: [range::intersects] is defined in range.hpp,
    outside trace_writer.cpp.  It is the test of step 6 of section 4.4
    ("every sub-range record intersecting the update range") on the
    half-open spans [[start, stop)]. *)
Definition intersects (r other : range) : bool :=
  (start r <? stop other) && (start other <? stop r).

(** Modelled from the spec: [range::range_set] is defined in range.hpp,
    outside trace_writer.cpp.  A range-set is "a collection of disjoint
    numeric intervals supporting subtraction" (glossary); it is kept here
    as the list of its intervals in ascending order, which is the order of
    the iteration from [begin()] to [end()] (step 7 of section 4.4). *)
Definition range_set := list range.

(** Modelled from the spec: the constructor of [range_set] from one range
    (range.hpp), "a range-set initialized to that single range" (step 5 of
    section 4.4). *)
Definition range_set_of (r : range) : range_set := [r].

(** Modelled from the spec: the subtraction of range.hpp on one interval.
    What is left of [x] once [r] is taken away is the part of [x] below [r]
    and the part of [x] above [r], each when it is not empty. *)
Definition sub_range (r x : range) : list range :=
  (if start x <? Z.min (stop x) (start r)
   then [{| start := start x; stop := Z.min (stop x) (start r) |}] else [])
  ++
  (if Z.max (start x) (stop r) <? stop x
   then [{| start := Z.max (start x) (stop r); stop := stop x |}] else []).

(** Modelled from the spec: [range_set::sub] of range.hpp, "subtract that
    sub-range from the range-set" (step 6 of section 4.4): [r] is taken
    away from every interval of the set. *)
Definition sub (s : range_set) (r : range) : range_set :=
  flat_map (sub_range r) s.

(** ** Region registry *)

(** [struct RangeInfo : public range::range<size_t>] *)
Record RangeInfo := {
  ri_range : range;
  crc : Z
}.

Definition RangeInfoList := list RangeInfo.

Record RegionInfo := {
  rg_size : Z;
  rg_start : Z;
  ranges : RangeInfoList
}.

Definition RegionInfoList := list RegionInfo.

Definition set_ranges (r : RegionInfo) (l : RangeInfoList) : RegionInfo :=
  {| rg_size := rg_size r; rg_start := rg_start r; ranges := l |}.

(** The static descriptors of the pseudo-calls. *)
Definition memcpy_sig : FunctionSig :=
  {| fn_id := 0; fn_name := "memcpy"; num_args := 3;
     arg_names := ["dest"; "src"; "n"]%string |}.

Definition malloc_sig : FunctionSig :=
  {| fn_id := 1; fn_name := "malloc"; num_args := 1;
     arg_names := ["size"]%string |}.

Definition free_sig : FunctionSig :=
  {| fn_id := 2; fn_name := "free"; num_args := 1;
     arg_names := ["ptr"]%string |}.

Definition realloc_sig : FunctionSig :=
  {| fn_id := 3; fn_name := "realloc"; num_args := 2;
     arg_names := ["ptr"; "size"]%string |}.

(** The loop of [lookupRegionInfo] over [regionInfoList]: the regions kept
    before the position where it stops and, when a region with the queried
    extent is found, that region and the regions after it.  A region that
    intersects the extent without being equal to it is erased. *)
Fixpoint find_region (info_start info_stop : Z) (l : RegionInfoList)
  : RegionInfoList * option (RegionInfo * RegionInfoList) :=
  match l with
  | [] => ([], None)
  | it :: tl =>
      let start := rg_start it in
      let stop := wrap64 (start + rg_size it) in
      if (info_start <? stop) && (start <? info_stop) then
        if (info_start =? start) && (info_stop =? stop) then ([], Some (it, tl))
        else find_region info_start info_stop tl
      else
        let '(kept, found) := find_region info_start info_stop tl in
        (it :: kept, found)
  end.

(** The test [info.start < stop && info.stop > start] of that loop. *)
Definition overlaps (info_start info_stop : Z) (it : RegionInfo) : bool :=
  (info_start <? wrap64 (rg_start it + rg_size it)) && (rg_start it <? info_stop).

(** The test [info.start == start && info.stop == stop] of that loop. *)
Definition same_extent (info_start info_stop : Z) (it : RegionInfo) : bool :=
  (info_start =? rg_start it) && (info_stop =? wrap64 (rg_start it + rg_size it)).

(** A region at which the loop returns: both tests hold. *)
Definition found_at (info_start info_stop : Z) (it : RegionInfo) : bool :=
  overlaps info_start info_stop it && same_extent info_start info_stop it.

(** A pointer into the registry: the regions before the one pointed to,
    that region, and the regions after it. *)
Definition RegionRef : Type := RegionInfoList * RegionInfo * RegionInfoList.

Definition registry_of (ref : RegionRef) : RegionInfoList :=
  let '(before, r, after) := ref in before ++ r :: after.

Section Regions.

Variable fmt : TraceFormat.

(** zlib's [crc32(crc, buf, len)] over the [len] bytes of a buffer;
    [crc32(0L, Z_NULL, 0)] is the initial value 0. *)
Variable crc32 : Z -> list Z -> Z.

Definition crc32_init : Z := 0.

(** The checksum of the [length] bytes at [p]; the length is narrowed to
    zlib's [uInt] at the call. *)
Definition checksum (os : OS) (p length : Z) : Z :=
  crc32 crc32_init (read_bytes os p (wrap32 length)).

(** The pseudo-call [malloc(size) = start] written by [lookupRegionInfo]. *)
Definition emit_malloc (os : OS) (w : Writer) (size start : Z) : Writer :=
  let '(__call, w) := beginEnter fmt os w malloc_sig in
  let w := beginArg fmt w 0 in
  let w := writeUInt fmt w size in
  let w := endArg w in
  let w := endEnter fmt w in
  let w := beginLeave fmt w __call in
  let w := beginReturn fmt w in
  let w := writeOpaque fmt w start in
  let w := endReturn w in
  endLeave fmt w.

(** [lookupRegionInfo]: [None] is the null result (the registry and the
    writer are then as before); otherwise the writer and the region found
    or appended, as a position in the registry after the call. *)
Definition lookupRegionInfo (os : OS) (w : Writer) (regionInfoList : RegionInfoList)
    (ptr : Z) : option (Writer * RegionRef) :=
  match queryVirtualAddress os ptr with
  | None => None
  | Some (info_start, info_stop) =>
      match find_region info_start info_stop regionInfoList with
      | (kept, Some (it, tl)) => Some (w, (kept, it, tl))
      | (kept, None) =>
          let regionInfo :=
            {| rg_size := wrap64 (info_stop - info_start);
               rg_start := info_start;
               ranges := [] |} in
          let w := emit_malloc os w (rg_size regionInfo) (rg_start regionInfo) in
          Some (w, (kept, regionInfo, []))
      end
  end.

(** The first loop of [updateRegion]: the records that stay in the list and
    the range-set [copy] once every unchanged record met was subtracted. *)
Fixpoint check_ranges (os : OS) (regionInfo : RegionInfo) (update : range)
    (l : RangeInfoList) (copy : range_set) : RangeInfoList * range_set :=
  match l with
  | [] => ([], copy)
  | it :: tl =>
      if intersects (ri_range it) update then
        let p := wrap64 (rg_start regionInfo + start (ri_range it)) in
        let length := wrap64 (stop (ri_range it) - start (ri_range it)) in
        if crc it =? checksum os p length then
          let '(kept, copy) :=
            check_ranges os regionInfo update tl (sub copy (ri_range it)) in
          (it :: kept, copy)
        else check_ranges os regionInfo update tl copy
      else
        let '(kept, copy) := check_ranges os regionInfo update tl copy in
        (it :: kept, copy)
  end.

(** The pseudo-call [memcpy(p, <bytes>, length)] of the second loop. *)
Definition emit_memcpy (os : OS) (w : Writer) (p length : Z) : Writer :=
  let '(__call, w) := beginEnter fmt os w memcpy_sig in
  let w := beginArg fmt w 0 in
  let w := writeOpaque fmt w p in
  let w := endArg w in
  let w := beginArg fmt w 1 in
  let w := writeBlob fmt os w p length in
  let w := endArg w in
  let w := beginArg fmt w 2 in
  let w := writeUInt fmt w length in
  let w := endArg w in
  let w := endEnter fmt w in
  let w := beginLeave fmt w __call in
  endLeave fmt w.

(** One turn of the second loop of [updateRegion], for the range [it] of
    [copy]: the pseudo-call, then the new record pushed at the front. *)
Definition copy_range (os : OS) (regionInfo : RegionInfo)
    (st : Writer * RangeInfoList) (it : range) : Writer * RangeInfoList :=
  let '(w, rs) := st in
  let p := wrap64 (rg_start regionInfo + start it) in
  let length := wrap64 (stop it - start it) in
  let w := emit_memcpy os w p length in
  let r := {| ri_range := it; crc := checksum os p length |} in
  (w, r :: rs).

(** The range-set [copy] that [updateRegion] computes for a region, and the
    records it keeps. *)
Definition update_range (regionInfo : RegionInfo) (ptr size : Z) : range :=
  let start := wrap64 (ptr - rg_start regionInfo) in
  let stop := wrap64 (start + size) in
  {| start := start; stop := stop |}.

(** [Writer::updateRegion], on the writer and the registry. *)
Definition updateRegion (os : OS) (st : Writer * RegionInfoList) (ptr size : Z)
  : Writer * RegionInfoList :=
  if ptr =? 0 then st
  else
    match lookupRegionInfo os (fst st) (snd st) ptr with
    | None => st
    | Some (w, (before, regionInfo, after)) =>
        if size =? 0 then (w, registry_of (before, regionInfo, after))
        else
          let update := update_range regionInfo ptr size in
          let '(kept, copy) :=
            check_ranges os regionInfo update (ranges regionInfo)
                         (range_set_of update) in
          let '(w, rs) := fold_left (copy_range os regionInfo) copy (w, kept) in
          (w, registry_of (before, set_ranges regionInfo rs, after))
    end.

(** A request made to [updateRegion], with the state of the machine when
    it is made, and a run of requests from a given state. *)
Record Request := {
  rq_os : OS;
  rq_ptr : Z;
  rq_size : Z
}.

Definition run (st : Writer * RegionInfoList) (reqs : list Request)
  : Writer * RegionInfoList :=
  fold_left (fun st rq => updateRegion (rq_os rq) st (rq_ptr rq) (rq_size rq))
            reqs st.

End Regions.

(** ** Reading the stream back *)

(** Base-128 decoding, least significant group first: every byte gives 7
    bits, and a byte with bit 7 clear is the last one.  The result is the
    value and the bytes that follow it. *)
Fixpoint decode_varint (bs : list Z) : option (Z * list Z) :=
  match bs with
  | [] => None
  | b :: tl =>
      if Z.testbit b 7 then
        match decode_varint tl with
        | Some (v, rest) => Some (Z.lor (Z.land b 127) (Z.shiftl v 7), rest)
        | None => None
        end
      else Some (b, tl)
  end.

(** Number of binary digits of a value; 0 has none. *)
Definition bits_needed (v : Z) : Z :=
  if v =? 0 then 0 else Z.log2 v + 1.

(** [ceil(a / 7)] *)
Definition ceil_div7 (a : Z) : Z := (a + 6) / 7.

(** The bytes received by the open stream (none when there is no stream). *)
Definition stream (w : Writer) : list Z :=
  match g_gzFile w with Some s => s | None => [] end.

(** ** zlib's CRC-32, for closed examples *)

Definition crc32_bit (c : Z) : Z :=
  if Z.testbit c 0 then Z.lxor (Z.shiftr c 1) 3988292384 else Z.shiftr c 1.

Definition crc32_byte (c b : Z) : Z :=
  Nat.iter 8 crc32_bit (Z.lxor c b).

Definition zlib_crc32 (c : Z) (buf : list Z) : Z :=
  Z.lxor (fold_left crc32_byte buf (Z.lxor c 4294967295)) 4294967295.

(** A trace format, for closed examples. *)
Definition sample_format : TraceFormat :=
  {| TRACE_VERSION := 1;
     EVENT_ENTER := 0; EVENT_LEAVE := 1;
     CALL_END := 0; CALL_ARG := 1; CALL_RET := 2;
     TYPE_NULL := 0; TYPE_FALSE := 1; TYPE_TRUE := 2; TYPE_SINT := 3;
     TYPE_UINT := 4; TYPE_FLOAT := 5; TYPE_DOUBLE := 6; TYPE_STRING := 7;
     TYPE_BLOB := 8; TYPE_ENUM := 9; TYPE_BITMASK := 10; TYPE_ARRAY := 11;
     TYPE_STRUCT := 12; TYPE_OPAQUE := 13 |}.

(** A machine for closed examples: [gzopen] succeeds, the addresses of
    [[4096, 8192)] are backed by that extent, and memory holds zeros; and
    the writer once a stream was opened on it. *)
Definition sample_os : OS :=
  {| gzopen := true;
     queryVirtualAddress :=
       fun p => if (4096 <=? p) && (p <? 8192) then Some (4096, 8192) else None;
     mem := fun _ => 0 |}.

(** The same machine when the output file cannot be created. *)
Definition failing_os : OS :=
  {| gzopen := false;
     queryVirtualAddress := queryVirtualAddress sample_os;
     mem := mem sample_os |}.

Definition sample_writer : Writer :=
  snd (open sample_format sample_os new_Writer).

(** The same machine once the 20 bytes at [4096 + 40] were set to 1. *)
Definition mutated_os : OS :=
  {| gzopen := true;
     queryVirtualAddress := queryVirtualAddress sample_os;
     mem := fun a => if (4096 + 40 <=? a) && (a <? 4096 + 60) then 1
                     else mem sample_os a |}.

(** The region of [sample_os], without records and with the record of its
    first 100 bytes as [sample_os] holds them. *)
Definition sample_region : RegionInfo :=
  {| rg_size := 4096; rg_start := 4096; ranges := [] |}.

Definition recorded_region : RegionInfo :=
  set_ranges sample_region
    [{| ri_range := {| start := 0; stop := 100 |};
        crc := zlib_crc32 0 (read_bytes sample_os 4096 100) |}].

(** A function of the traced API whose id is the id of [memcpy_sig]. *)
Definition sample_sig : FunctionSig :=
  {| fn_id := 0; fn_name := "glFlush"; num_args := 0; arg_names := [] |}.

(** ** The wire format, as byte sequences *)

(** The varint of a value converted to [unsigned long long]. *)
Definition enc_uint (v : Z) : list Z := default [] (varint (wrap64 v)).

(** A string: the varint of its length, then its bytes. *)
Definition enc_string (s : string) : list Z :=
  enc_uint (Z.of_nat (length (bytes_of_string s))) ++ bytes_of_string s.

Definition enc_names (num : Z) (names : list string) : list Z :=
  flat_map (fun i => enc_string (nth i names EmptyString)) (seq 0 (Z.to_nat num)).

Definition enc_flags (num : Z) (fl : list BitmaskFlag) : list Z :=
  flat_map (fun i =>
              let f := nth i fl {| flag_name := EmptyString; flag_value := 0 |} in
              enc_string (flag_name f) ++ enc_uint (flag_value f))
           (seq 0 (Z.to_nat num)).

(** Whether a cache holds an id as already described. *)
Definition described (map : list bool) (id : Z) : bool :=
  default false (map !! Z.to_nat id).

(** A cache after the query-then-mark step that [beginEnter],
    [beginStruct], [writeEnum] and [writeBitmask] all make. *)
Definition cache_mark (map : list bool) (id : Z) : list bool :=
  let '(m, d) := lookup map id in if d then m else mark m id.

(** The four kinds of ids, and the uses of a signature on a writer. *)
Inductive Kind := KFunction | KStruct | KEnum | KBitmask.

Definition Kind_eqb (a b : Kind) : bool :=
  match a, b with
  | KFunction, KFunction | KStruct, KStruct
  | KEnum, KEnum | KBitmask, KBitmask => true
  | _, _ => false
  end.

Inductive Use :=
| UseFunction (sig : FunctionSig)
| UseStruct (sig : StructSig)
| UseEnum (sig : EnumSig)
| UseBitmask (sig : BitmaskSig) (value : Z).

Definition use_kind (u : Use) : Kind :=
  match u with
  | UseFunction _ => KFunction
  | UseStruct _ => KStruct
  | UseEnum _ => KEnum
  | UseBitmask _ _ => KBitmask
  end.

Definition use_id (u : Use) : Z :=
  match u with
  | UseFunction sig => fn_id sig
  | UseStruct sig => st_id sig
  | UseEnum sig => en_id sig
  | UseBitmask sig _ => bm_id sig
  end.

Definition cache_of (k : Kind) (w : Writer) : list bool :=
  match k with
  | KFunction => functions w
  | KStruct => structs w
  | KEnum => enums w
  | KBitmask => bitmasks w
  end.

(** Whether [(k, id)] occurs among the uses already made. *)
Definition seen_in (seen : list (Kind * Z)) (k : Kind) (id : Z) : bool :=
  existsb (fun e => Kind_eqb (fst e) k && (snd e =? id)) seen.

Section Wire.

Variable fmt : TraceFormat.

Definition exec_use (os : OS) (w : Writer) (u : Use) : Writer :=
  match u with
  | UseFunction sig => snd (beginEnter fmt os w sig)
  | UseStruct sig => beginStruct fmt w sig
  | UseEnum sig => writeEnum fmt w sig
  | UseBitmask sig value => writeBitmask fmt w sig value
  end.

(** The reference to an id: the tag of its kind and the id. *)
Definition use_reference (u : Use) : list Z :=
  match u with
  | UseFunction sig => EVENT_ENTER fmt :: enc_uint (fn_id sig)
  | UseStruct sig => TYPE_STRUCT fmt :: enc_uint (st_id sig)
  | UseEnum sig => TYPE_ENUM fmt :: enc_uint (en_id sig)
  | UseBitmask sig _ => TYPE_BITMASK fmt :: enc_uint (bm_id sig)
  end.

(** The full definitions (section 4.3 of the spec): name, argument count
    and argument names of a function; name, member count and member names
    of a struct; name and signed value of an enum; flag count and the
    (name, value) pairs of a bitmask. *)
Definition function_definition (sig : FunctionSig) : list Z :=
  enc_string (fn_name sig) ++ enc_uint (num_args sig)
  ++ enc_names (num_args sig) (arg_names sig).

Definition struct_definition (sig : StructSig) : list Z :=
  enc_string (st_name sig) ++ enc_uint (num_members sig)
  ++ enc_names (num_members sig) (member_names sig).

Definition enc_sint (v : Z) : list Z :=
  if v <? 0 then TYPE_SINT fmt :: enc_uint (signed64 (- v))
  else TYPE_UINT fmt :: enc_uint v.

Definition enum_definition (sig : EnumSig) : list Z :=
  enc_string (en_name sig) ++ enc_sint (en_value sig).

Definition bitmask_definition (sig : BitmaskSig) : list Z :=
  enc_uint (num_flags sig) ++ enc_flags (num_flags sig) (flags sig).

Definition use_definition (u : Use) : list Z :=
  match u with
  | UseFunction sig => function_definition sig
  | UseStruct sig => struct_definition sig
  | UseEnum sig => enum_definition sig
  | UseBitmask sig _ => bitmask_definition sig
  end.

(** What follows the reference and the definition: the value of a
    bitmask. *)
Definition use_trailer (u : Use) : list Z :=
  match u with
  | UseBitmask _ value => enc_uint value
  | _ => []
  end.

(** The bytes of a sequence of uses in which a definition is written at
    the first use of its (kind, id) and never again; [seen] holds the
    (kind, id) pairs used before. *)
Fixpoint described_once (seen : list (Kind * Z)) (us : list Use) : list Z :=
  match us with
  | [] => []
  | u :: tl =>
      use_reference u
      ++ (if seen_in seen (use_kind u) (use_id u) then [] else use_definition u)
      ++ use_trailer u
      ++ described_once ((use_kind u, use_id u) :: seen) tl
  end.

(** A value of [writeOpaque] and of [writeBlob]. *)
Definition enc_opaque (addr : Z) : list Z :=
  if addr =? 0 then [TYPE_NULL fmt] else TYPE_OPAQUE fmt :: enc_uint addr.

Definition enc_blob (os : OS) (data size : Z) : list Z :=
  if data =? 0 then [TYPE_NULL fmt]
  else TYPE_BLOB fmt :: enc_uint size
       ++ (if size =? 0 then [] else read_bytes os data size).

(** The synthetic copy event for the [length] bytes at [p]: the frames
    ENTER and LEAVE of a call of the pseudo-function [memcpy] numbered
    [call], the definition of [memcpy] being written unless it is already
    [described]. *)
Definition memcpy_event (os : OS) (described : bool) (call p length : Z) : list Z :=
  (EVENT_ENTER fmt :: enc_uint (fn_id memcpy_sig)
   ++ (if described then [] else function_definition memcpy_sig))
  ++ (CALL_ARG fmt :: enc_uint 0) ++ enc_opaque p
  ++ (CALL_ARG fmt :: enc_uint 1) ++ enc_blob os p length
  ++ (CALL_ARG fmt :: enc_uint 2) ++ (TYPE_UINT fmt :: enc_uint length)
  ++ [CALL_END fmt]
  ++ (EVENT_LEAVE fmt :: enc_uint call) ++ [CALL_END fmt].

(** The synthetic event that introduces a region: a call of the
    pseudo-function [malloc] with the size as argument and the start
    address as return value. *)
Definition malloc_event (described : bool) (call size start : Z) : list Z :=
  (EVENT_ENTER fmt :: enc_uint (fn_id malloc_sig)
   ++ (if described then [] else function_definition malloc_sig))
  ++ (CALL_ARG fmt :: enc_uint 0) ++ (TYPE_UINT fmt :: enc_uint size)
  ++ [CALL_END fmt]
  ++ (EVENT_LEAVE fmt :: enc_uint call)
  ++ [CALL_RET fmt] ++ enc_opaque start ++ [CALL_END fmt].

(** The operations that write to the stream. *)
Inductive WriteOp :=
| Op_write (sBuffer : list Z)
| Op_writeByte (c : Z)
| Op_writeUInt (value : Z)
| Op_writeFloat (repr : list Z)
| Op_writeDouble (repr : list Z)
| Op_writeString (str : string)
| OpBeginEnter (sig : FunctionSig)
| OpEndEnter
| OpBeginLeave (call : Z)
| OpEndLeave
| OpBeginArg (index : Z)
| OpEndArg
| OpBeginReturn
| OpEndReturn
| OpBeginArray (length : Z)
| OpBeginStruct (sig : StructSig)
| OpWriteBool (value : bool)
| OpWriteSInt (value : Z)
| OpWriteUInt (value : Z)
| OpWriteFloat (repr : list Z)
| OpWriteDouble (repr : list Z)
| OpWriteString (str : option string)
| OpWriteStringLen (str : option (list Z))
| OpWriteWString (is_null : bool)
| OpWriteBlob (data size : Z)
| OpWriteEnum (sig : EnumSig)
| OpWriteBitmask (sig : BitmaskSig) (value : Z)
| OpWriteNull
| OpWriteOpaque (addr : Z).

Definition exec (os : OS) (w : Writer) (op : WriteOp) : Writer :=
  match op with
  | Op_write sBuffer => _write w sBuffer
  | Op_writeByte c => _writeByte w c
  | Op_writeUInt value => _writeUInt w value
  | Op_writeFloat repr => _writeFloat w repr
  | Op_writeDouble repr => _writeDouble w repr
  | Op_writeString str => _writeString w str
  | OpBeginEnter sig => snd (beginEnter fmt os w sig)
  | OpEndEnter => endEnter fmt w
  | OpBeginLeave call => beginLeave fmt w call
  | OpEndLeave => endLeave fmt w
  | OpBeginArg index => beginArg fmt w index
  | OpEndArg => endArg w
  | OpBeginReturn => beginReturn fmt w
  | OpEndReturn => endReturn w
  | OpBeginArray length => beginArray fmt w length
  | OpBeginStruct sig => beginStruct fmt w sig
  | OpWriteBool value => writeBool fmt w value
  | OpWriteSInt value => writeSInt fmt w value
  | OpWriteUInt value => writeUInt fmt w value
  | OpWriteFloat repr => writeFloat fmt w repr
  | OpWriteDouble repr => writeDouble fmt w repr
  | OpWriteString str => writeString fmt w str
  | OpWriteStringLen str => writeString_len fmt w str
  | OpWriteWString is_null => writeWString fmt w is_null
  | OpWriteBlob data size => writeBlob fmt os w data size
  | OpWriteEnum sig => writeEnum fmt w sig
  | OpWriteBitmask sig value => writeBitmask fmt w sig value
  | OpWriteNull => writeNull fmt w
  | OpWriteOpaque addr => writeOpaque fmt w addr
  end.

End Wire.

(** ** The invariant of the sub-range records *)

(** Two spans share no byte. *)
Definition disjoint (a b : range) : Prop :=
  stop a <= start b \/ stop b <= start a.

Fixpoint pairwise_disjoint (l : list range) : Prop :=
  match l with
  | [] => True
  | x :: tl => Forall (disjoint x) tl /\ pairwise_disjoint tl
  end.

(** A span inside another one. *)
Definition within (x u : range) : Prop :=
  start u <= start x /\ stop x <= stop u.

(** A range-set for the update range [u]: spans that are not empty, lie
    inside [u] and do not overlap. *)
Definition copy_ok (u : range) (c : range_set) : Prop :=
  Forall (fun x => start x < stop x /\ within x u) c /\ pairwise_disjoint c.

(** The records of a region: spans that are not empty and pairwise
    non-overlapping. *)
Definition records_ok (l : RangeInfoList) : Prop :=
  Forall (fun r => start r < stop r) (map ri_range l) /\
  pairwise_disjoint (map ri_range l).

Definition registry_ok (regs : RegionInfoList) : Prop :=
  Forall (fun region => records_ok (ranges region)) regs.

(** A request the caller can make: a span of [size] bytes at [ptr] inside
    the address space, for which the operating system reports an extent
    that starts at or below [ptr]. *)
Definition request_ok (rq : Request) : Prop :=
  0 <= rq_ptr rq /\ 0 <= rq_size rq /\ rq_ptr rq + rq_size rq < 2 ^ 64 /\
  forall a b, queryVirtualAddress (rq_os rq) (rq_ptr rq) = Some (a, b) ->
              0 <= a <= rq_ptr rq.

(** ** Reading values back

    The layout of the values as a reader of the stream takes it: a tag,
    then what the tag announces. *)

Inductive Value :=
| V_NULL
| V_BOOL (b : bool)
| V_INT (v : Z)
| V_FLOAT (repr : list Z)
| V_DOUBLE (repr : list Z)
| V_STRING (bytes : list Z)
| V_BLOB (bytes : list Z)
| V_OPAQUE (addr : Z).

(** [n] raw bytes, and the bytes after them. *)
Definition read_raw (n : nat) (bs : list Z) : option (list Z * list Z) :=
  if (n <=? length bs)%nat then Some (take n bs, drop n bs) else None.

(** A varint length and as many raw bytes. *)
Definition read_counted (bs : list Z) : option (list Z * list Z) :=
  match decode_varint bs with
  | Some (len, rest) => read_raw (Z.to_nat len) rest
  | None => None
  end.

(** [n] strings, each with its length in front. *)
Fixpoint read_strings (n : nat) (bs : list Z) : option (list (list Z) * list Z) :=
  match n with
  | O => Some ([], bs)
  | S n' =>
      match read_counted bs with
      | Some (str, rest) =>
          match read_strings n' rest with
          | Some (l, rest') => Some (str :: l, rest')
          | None => None
          end
      | None => None
      end
  end.

(** A name, a count and as many names: the definition of a function or of
    a struct. *)
Definition read_signature (bs : list Z)
  : option (list Z * list (list Z) * list Z) :=
  match read_counted bs with
  | Some (name, r1) =>
      match decode_varint r1 with
      | Some (num, r2) =>
          match read_strings (Z.to_nat num) r2 with
          | Some (names, r3) => Some (name, names, r3)
          | None => None
          end
      | None => None
      end
  | None => None
  end.

Section Reading.

Variable fmt : TraceFormat.

(** The tags of the values that stand alone. *)
Definition value_tags : list Z :=
  [TYPE_NULL fmt; TYPE_FALSE fmt; TYPE_TRUE fmt; TYPE_SINT fmt; TYPE_UINT fmt;
   TYPE_FLOAT fmt; TYPE_DOUBLE fmt; TYPE_STRING fmt; TYPE_BLOB fmt;
   TYPE_OPAQUE fmt].

Definition read_value (bs : list Z) : option (Value * list Z) :=
  match bs with
  | [] => None
  | tag :: tl =>
      if tag =? TYPE_NULL fmt then Some (V_NULL, tl)
      else if tag =? TYPE_FALSE fmt then Some (V_BOOL false, tl)
      else if tag =? TYPE_TRUE fmt then Some (V_BOOL true, tl)
      else if tag =? TYPE_SINT fmt then
        match decode_varint tl with
        | Some (v, rest) => Some (V_INT (- v), rest)
        | None => None
        end
      else if tag =? TYPE_UINT fmt then
        match decode_varint tl with
        | Some (v, rest) => Some (V_INT v, rest)
        | None => None
        end
      else if tag =? TYPE_FLOAT fmt then
        match read_raw 4 tl with
        | Some (repr, rest) => Some (V_FLOAT repr, rest)
        | None => None
        end
      else if tag =? TYPE_DOUBLE fmt then
        match read_raw 8 tl with
        | Some (repr, rest) => Some (V_DOUBLE repr, rest)
        | None => None
        end
      else if tag =? TYPE_STRING fmt then
        match read_counted tl with
        | Some (bytes, rest) => Some (V_STRING bytes, rest)
        | None => None
        end
      else if tag =? TYPE_BLOB fmt then
        match read_counted tl with
        | Some (bytes, rest) => Some (V_BLOB bytes, rest)
        | None => None
        end
      else if tag =? TYPE_OPAQUE fmt then
        match decode_varint tl with
        | Some (v, rest) => Some (V_OPAQUE v, rest)
        | None => None
        end
      else None
  end.

(** The head of an ENTER frame, read with the ids that the reader has seen
    described so far: the function id and, when the id is new, the
    definition that follows it. *)
Definition read_enter (seen : list bool) (bs : list Z)
  : option (Z * option (list Z * list (list Z)) * list Z) :=
  match bs with
  | [] => None
  | tag :: tl =>
      if tag =? EVENT_ENTER fmt then
        match decode_varint tl with
        | Some (id, r1) =>
            if described seen id then Some (id, None, r1)
            else
              match read_signature r1 with
              | Some (name, names, r2) => Some (id, Some (name, names), r2)
              | None => None
              end
        | None => None
        end
      else None
  end.

(** The head of a struct value, read the same way. *)
Definition read_struct (seen : list bool) (bs : list Z)
  : option (Z * option (list Z * list (list Z)) * list Z) :=
  match bs with
  | [] => None
  | tag :: tl =>
      if tag =? TYPE_STRUCT fmt then
        match decode_varint tl with
        | Some (id, r1) =>
            if described seen id then Some (id, None, r1)
            else
              match read_signature r1 with
              | Some (name, names, r2) => Some (id, Some (name, names), r2)
              | None => None
              end
        | None => None
        end
      else None
  end.

End Reading.

(** The number of [beginEnter] among operations. *)
Fixpoint count_enters (ops : list WriteOp) : Z :=
  match ops with
  | [] => 0
  | OpBeginEnter _ :: tl => 1 + count_enters tl
  | _ :: tl => count_enters tl
  end.

(** The names of a signature: as many as the count, an [unsigned], says,
    each of a length that fits a [size_t]. *)
Definition names_ok (num : Z) (names : list string) : Prop :=
  num = Z.of_nat (length names) /\ num < 2 ^ 32 /\
  Forall (fun s => Z.of_nat (length (bytes_of_string s)) < 2 ^ 64) names.


(** A write on a stream that held [s] left bytes that read back as [v]. *)
Definition reads_back (fmt : TraceFormat) (s : list Z) (w' : Writer) (v : Value)
  : Prop :=
  exists bs,
    g_gzFile w' = Some (s ++ bs) /\
    forall rest, read_value fmt (bs ++ rest) = Some (v, rest).


(** A struct signature, for closed examples. *)
Definition sample_struct : StructSig :=
  {| st_id := 5; st_name := "RECT"; num_members := 2;
     member_names := ["left"; "top"]%string |}.


(** ** The extents of the regions *)

(** The extent [[start, stop)] of a region, as the loop of
    [lookupRegionInfo] computes it. *)
Definition extent (r : RegionInfo) : Z * Z :=
  (rg_start r, wrap64 (rg_start r + rg_size r)).

(** Two extents for which the test of that loop, [a.start < b.stop &&
    a.stop > b.start], fails. *)
Definition apart (e1 e2 : Z * Z) : Prop :=
  (fst e1 <? snd e2) && (fst e2 <? snd e1) = false.

Fixpoint pairwise_apart (l : list (Z * Z)) : Prop :=
  match l with
  | [] => True
  | x :: tl => Forall (apart x) tl /\ pairwise_apart tl
  end.

(** A request for which the operating system reports an extent that stops
    inside the address space. *)
Definition extent_ok (rq : Request) : Prop :=
  forall a b, queryVirtualAddress (rq_os rq) (rq_ptr rq) = Some (a, b) ->
              0 <= b < 2 ^ 64.

(** ** The records after an update *)

(** A byte offset inside a span. *)
Definition covers (r : range) (x : Z) : Prop := start r <= x < stop r.

(** A record whose checksum is the checksum of the bytes it spans, as
    memory holds them. *)
Definition fresh (crc32 : Z -> list Z -> Z) (os : OS) (region : RegionInfo)
    (r : RangeInfo) : Prop :=
  crc r = checksum crc32 os
            (wrap64 (rg_start region + start (ri_range r)))
            (wrap64 (stop (ri_range r) - start (ri_range r))).

(** The record that the second loop of [updateRegion] pushes for a span. *)
Definition new_record (crc32 : Z -> list Z -> Z) (os : OS) (region : RegionInfo)
    (it : range) : RangeInfo :=
  {| ri_range := it;
     crc := checksum crc32 os (wrap64 (rg_start region + start it))
                     (wrap64 (stop it - start it)) |}.


(** The machine of [sample_os] once the mapping at 4096 was extended to
    16384. *)
Definition grown_os : OS :=
  {| gzopen := true;
     queryVirtualAddress :=
       fun p => if (4096 <=? p) && (p <? 16384) then Some (4096, 16384) else None;
     mem := mem sample_os |}.


(** ** Reading enums and bitmasks back *)

(** [n] flags: a name with its length in front, then a varint. *)
Fixpoint read_flags (n : nat) (bs : list Z) : option (list (list Z * Z) * list Z) :=
  match n with
  | O => Some ([], bs)
  | S n' =>
      match read_counted bs with
      | Some (name, r1) =>
          match decode_varint r1 with
          | Some (v, r2) =>
              match read_flags n' r2 with
              | Some (l, r3) => Some ((name, v) :: l, r3)
              | None => None
              end
          | None => None
          end
      | None => None
      end
  end.

Section ReadingSigs.

Variable fmt : TraceFormat.

(** A signed integer with its tag. *)
Definition read_sint (bs : list Z) : option (Z * list Z) :=
  match bs with
  | [] => None
  | tag :: tl =>
      if tag =? TYPE_SINT fmt then
        match decode_varint tl with
        | Some (v, rest) => Some (- v, rest)
        | None => None
        end
      else if tag =? TYPE_UINT fmt then decode_varint tl
      else None
  end.

(** An enum value, read with the enum ids that the reader has seen
    described: the id and, when it is new, the name and the value. *)
Definition read_enum (seen : list bool) (bs : list Z)
  : option (Z * option (list Z * Z) * list Z) :=
  match bs with
  | [] => None
  | tag :: tl =>
      if tag =? TYPE_ENUM fmt then
        match decode_varint tl with
        | Some (id, r1) =>
            if described seen id then Some (id, None, r1)
            else
              match read_counted r1 with
              | Some (name, r2) =>
                  match read_sint r2 with
                  | Some (v, r3) => Some (id, Some (name, v), r3)
                  | None => None
                  end
              | None => None
              end
        | None => None
        end
      else None
  end.

(** A bitmask value, read the same way: the id, the flags when the id is
    new, and the value. *)
Definition read_bitmask (seen : list bool) (bs : list Z)
  : option (Z * option (list (list Z * Z)) * Z * list Z) :=
  match bs with
  | [] => None
  | tag :: tl =>
      if tag =? TYPE_BITMASK fmt then
        match decode_varint tl with
        | Some (id, r1) =>
            if described seen id then
              match decode_varint r1 with
              | Some (v, r2) => Some (id, None, v, r2)
              | None => None
              end
            else
              match decode_varint r1 with
              | Some (num, r2) =>
                  match read_flags (Z.to_nat num) r2 with
                  | Some (fl, r3) =>
                      match decode_varint r3 with
                      | Some (v, r4) => Some (id, Some fl, v, r4)
                      | None => None
                      end
                  | None => None
                  end
              | None => None
              end
        | None => None
        end
      else None
  end.

End ReadingSigs.

(** The flags of a bitmask signature: as many as the count, an
    [unsigned], says, each with a name of a length that fits a [size_t] and
    a value that is an [unsigned long long]. *)
Definition flags_ok (num : Z) (fl : list BitmaskFlag) : Prop :=
  num = Z.of_nat (length fl) /\ num < 2 ^ 32 /\
  Forall (fun f => Z.of_nat (length (bytes_of_string (flag_name f))) < 2 ^ 64 /\
                   0 <= flag_value f < 2 ^ 64) fl.

(** An enum and a bitmask signature, for closed examples. *)
Definition sample_enum : EnumSig :=
  {| en_id := 2; en_name := "GL_NONE"; en_value := -1 |}.

Definition sample_bitmask : BitmaskSig :=
  {| bm_id := 1; num_flags := 2;
     flags := [ {| flag_name := "NONE"; flag_value := 0 |};
                {| flag_name := "DEPTH"; flag_value := 256 |} ] |}.


(** * Properties *)

(** ** The varint encoder *)

Lemma group_rebuild (v : Z) :
  Z.lor (Z.land (Z.lor 128 (Z.land v 127)) 127) (Z.shiftl (Z.shiftr v 7) 7) = v.
Proof.
  change 127 with (Z.ones 7). change 128 with (2 ^ 7).
  apply Z.bits_inj'. intros n Hn.
  rewrite Z.lor_spec, Z.land_spec, Z.lor_spec, Z.land_spec.
  rewrite Z.testbit_ones_nonneg by lia.
  rewrite Z.pow2_bits_eqb by lia.
  destruct (Z.ltb_spec n 7).
  - rewrite Z.shiftl_spec_low by lia.
    replace (7 =? n) with false by (symmetry; apply Z.eqb_neq; lia).
    destruct (Z.testbit v n); reflexivity.
  - rewrite Z.shiftl_spec by lia. rewrite Z.shiftr_spec by lia.
    replace (n - 7 + 7) with n by lia.
    destruct (Z.testbit v n), (7 =? n); reflexivity.
Qed.

Lemma low_group_range v : 0 <= Z.land v 127 < 128.
Proof.
  change 127 with (Z.ones 7). rewrite Z.land_ones by lia.
  apply Z.mod_pos_bound. lia.
Qed.

Lemma high_bit_set g : Z.testbit (Z.lor 128 g) 7 = true.
Proof. rewrite Z.lor_spec. reflexivity. Qed.

Lemma high_bit_clear g : 0 <= g < 128 -> Z.testbit g 7 = false.
Proof.
  intros Hg. destruct (Z.eq_dec g 0) as [->|]; [reflexivity|].
  apply Z.bits_above_log2; [lia|]. 
  assert (Z.log2 g < 7); [|lia]. apply Z.log2_lt_pow2; lia.
Qed.

Lemma land_127_small g : 0 <= g < 128 -> Z.land g 127 = g.
Proof.
  intros Hg. change 127 with (Z.ones 7). rewrite Z.land_ones by lia.
  apply Z.mod_small. lia.
Qed.

Lemma clear_flag g : 0 <= g < 128 -> Z.land (Z.lor 128 g) 127 = g.
Proof.
  intros Hg. rewrite Z.land_lor_distr_l. change (Z.land 128 127) with 0.
  rewrite Z.lor_0_l. apply land_127_small, Hg.
Qed.

Lemma flagged_range g : 0 <= g < 128 -> 128 <= Z.lor 128 g < 256.
Proof.
  intros Hg. 
  assert (Z.lor 128 g = 128 + g) as ->; [|lia].
  rewrite <- Z.lxor_lor, <- Z.add_nocarry_lxor; try reflexivity.
  all: apply Z.bits_inj'; intros n Hn; rewrite Z.land_spec, Z.bits_0;
    change 128 with (2 ^ 7); rewrite Z.pow2_bits_eqb by lia;
    destruct (Z.eqb_spec 7 n) as [<-|]; [|reflexivity];
    rewrite high_bit_clear by lia; reflexivity.
Qed.

Lemma bits_needed_shift v :
  0 <= v -> Z.shiftr v 7 <> 0 -> bits_needed v = bits_needed (Z.shiftr v 7) + 7.
Proof.
  intros Hv Hs. unfold bits_needed.
  destruct (Z.eqb_spec (Z.shiftr v 7) 0) as [|_]; [contradiction|].
  destruct (Z.eqb_spec v 0) as [->|Hv0]; [contradiction Hs; reflexivity|].
  rewrite Z.log2_shiftr by lia.
  assert (0 < Z.shiftr v 7).
  { pose proof (Z.shiftr_nonneg v 7). lia. }
  assert (7 <= Z.log2 v).
  { destruct (Z.lt_ge_cases (Z.log2 v) 7) as [Hlt|]; [|lia].
    exfalso. apply Hs. apply Z.shiftr_eq_0; lia. }
  lia.
Qed.

Lemma bits_needed_small v :
  0 <= v -> Z.shiftr v 7 = 0 -> Z.max 1 (ceil_div7 (bits_needed v)) = 1.
Proof.
  intros Hv Hs. unfold bits_needed, ceil_div7.
  destruct (Z.eqb_spec v 0) as [->|Hv0]; [reflexivity|].
  assert (Z.log2 v < 7).
  { apply Z.shiftr_eq_0_iff in Hs. destruct Hs as [|[? ?]]; lia. }
  pose proof (Z.log2_nonneg v).
  assert ((Z.log2 v + 1 + 6) / 7 = 1); [|lia].
  replace (Z.log2 v + 1 + 6) with (Z.log2 v + 1 * 7) by lia.
  rewrite Z.div_add by lia. rewrite Z.div_small; lia.
Qed.

(** The loop of [_writeUInt] never runs out of room when the value fits in
    7 bits per byte of room left; it appends bytes that all carry the
    continuation flag, and the groups decode to the value. *)
Lemma _writeUInt_loop_spec (room : nat) :
  forall value buf,
    0 <= value < 2 ^ (7 * Z.of_nat (S room)) ->
    exists l g,
      _writeUInt_loop (S room) value buf = Some (buf ++ l ++ [Z.lor 128 g]) /\
      0 <= g < 128 /\
      Forall (fun b => 0 <= b < 256 /\ Z.testbit b 7 = true) l /\
      (forall rest, decode_varint (l ++ g :: rest) = Some (value, rest)) /\
      Z.of_nat (length (l ++ [g])) = Z.max 1 (ceil_div7 (bits_needed value)).
Proof.
  assert (Hlast : forall value, 0 <= value -> Z.shiftr value 7 = 0 ->
                            0 <= value < 128).
  { intros value Hv Hz.
    apply Z.shiftr_eq_0_iff in Hz. destruct Hz as [->|[Hpos Hlog]]; [lia|].
    split; [lia|]. change 128 with (2 ^ 7). apply Z.log2_lt_pow2; lia. }
  induction room as [|room IH]; intros value buf Hv;
    rewrite (eq_refl : _writeUInt_loop (S _) value buf =
      if Z.shiftr value 7 =? 0
      then Some (buf ++ [Z.lor 128 (Z.land value 127)])
      else _writeUInt_loop _ (Z.shiftr value 7)
             (buf ++ [Z.lor 128 (Z.land value 127)]));
    destruct (Z.eqb_spec (Z.shiftr value 7) 0) as [Hz|Hnz].
  1, 3: (assert (Hsmall : 0 <= value < 128) by (apply Hlast; lia);
      exists [], (Z.land value 127); rewrite land_127_small by exact Hsmall;
      repeat split; try lia;
      [ constructor
      | intros rest; cbn [app decode_varint];
        rewrite high_bit_clear by exact Hsmall; reflexivity
      | cbn [app length]; rewrite bits_needed_small by lia; reflexivity ]).
  - exfalso. apply Hnz. apply Z.shiftr_eq_0_iff.
    destruct (Z.eq_dec value 0) as [->|]; [left; reflexivity|right].
    split; [lia|]. apply Z.log2_lt_pow2; [lia|].
    change (2 ^ (7 * Z.of_nat 1)) with (2 ^ 7) in Hv. lia.
  - assert (Hnext : 0 <= Z.shiftr value 7 < 2 ^ (7 * Z.of_nat (S room))).
    { split; [apply Z.shiftr_nonneg; lia|].
      rewrite Z.shiftr_div_pow2 by lia.
      apply Z.div_lt_upper_bound; [lia|].
      rewrite <- Z.pow_add_r by lia.
      replace (7 + 7 * Z.of_nat (S room)) with (7 * Z.of_nat (S (S room))) by lia.
      lia. }
    destruct (IH (Z.shiftr value 7) (buf ++ [Z.lor 128 (Z.land value 127)]) Hnext)
      as (l & g & Hloop & Hg & Hl & Hdec & Hlen).
    exists (Z.lor 128 (Z.land value 127) :: l), g.
    repeat split; try lia.
    * rewrite Hloop. rewrite <- app_assoc. reflexivity.
    * constructor; [|exact Hl].
      pose proof (flagged_range (Z.land value 127) (low_group_range value)).
      split; [lia|apply high_bit_set].
    * intros rest. cbn [app decode_varint].
      rewrite high_bit_set, Hdec, group_rebuild. reflexivity.
    * cbn [app length]. rewrite Nat2Z.inj_succ, Hlen.
      rewrite (bits_needed_shift value) by lia.
      unfold ceil_div7.
      replace (bits_needed (Z.shiftr value 7) + 7 + 6)
        with (bits_needed (Z.shiftr value 7) + 6 + 1 * 7) by lia.
      rewrite Z.div_add by lia.
      assert (0 < bits_needed (Z.shiftr value 7)).
      { unfold bits_needed.
        destruct (Z.eqb_spec (Z.shiftr value 7) 0); [contradiction|].
        pose proof (Z.log2_nonneg (Z.shiftr value 7)). lia. }
      assert (1 <= (bits_needed (Z.shiftr value 7) + 6) / 7).
      { apply Z.div_le_lower_bound; lia. }
      lia.
Qed.

(** What [_writeUInt] writes for an [unsigned long long]: the assertion
    holds, every byte but the last carries the continuation flag, and the
    bytes decode to the value. *)
Lemma varint_spec (v : Z) :
  0 <= v < 2 ^ 64 ->
  exists l g,
    varint v = Some (l ++ [g]) /\
    0 <= g < 128 /\
    Forall (fun b => 0 <= b < 256 /\ Z.testbit b 7 = true) l /\
    (forall rest, decode_varint (l ++ g :: rest) = Some (v, rest)) /\
    Z.of_nat (length (l ++ [g])) = Z.max 1 (ceil_div7 (bits_needed v)).
Proof.
  intros Hv.
  destruct (_writeUInt_loop_spec 15 v []) as (l & g & Hloop & Hg & Hl & Hdec & Hlen).
  { change (2 ^ (7 * Z.of_nat 16)) with (2 ^ 64 * 2 ^ 48). lia. }
  change (_writeUInt_loop 16 v []) with (_writeUInt_loop sizeof_buf v []) in Hloop.
  exists l, g. unfold varint. rewrite Hloop. cbn [app].
  repeat split; try assumption; try lia.
  unfold clear_last. rewrite rev_app_distr. cbn [rev app].
  rewrite rev_involutive, clear_flag by exact Hg. reflexivity.
Qed.

Lemma wrap64_range (z : Z) : 0 <= wrap64 z < 2 ^ 64.
Proof. unfold wrap64. apply Z.mod_pos_bound. lia. Qed.

Lemma wrap64_small (z : Z) : 0 <= z < 2 ^ 64 -> wrap64 z = z.
Proof. intros H. unfold wrap64. apply Z.mod_small. exact H. Qed.

(** The assertion of [_writeUInt] never fails. *)
Lemma varint_total (v : Z) : exists buf, varint (wrap64 v) = Some buf.
Proof.
  destruct (varint_spec (wrap64 v) (wrap64_range v)) as (l & g & H & _).
  eauto.
Qed.

(** C2: for every unsigned 64-bit value, the assertion of the encoder
    holds and the bytes it writes to the stream decode back to the value
    under base-128 decoding, least significant group first; every byte but
    the last has bit 7 set and the last has it clear; the number of bytes is
    ceil(bits_needed(v)/7), at least 1; and 0 is written as the single byte
    0x00. *)
Theorem varint_roundtrip (v : Z) (Hv : 0 <= v < 2 ^ 64) :
  exists l g,
    varint v = Some (l ++ [g]) /\
    (forall w s, g_gzFile w = Some s ->
                 g_gzFile (_writeUInt w v) = Some (s ++ l ++ [g])) /\
    (forall rest, decode_varint ((l ++ [g]) ++ rest) = Some (v, rest)) /\
    Forall (fun b => 0 <= b < 256 /\ Z.testbit b 7 = true) l /\
    (0 <= g < 256 /\ Z.testbit g 7 = false) /\
    Z.of_nat (length (l ++ [g])) = Z.max 1 (ceil_div7 (bits_needed v)) /\
    varint 0 = Some [0].
Proof.
  destruct (varint_spec v Hv) as (l & g & Henc & Hg & Hl & Hdec & Hlen).
  exists l, g. repeat split; try assumption; try lia.
  - intros w s Hs. unfold _writeUInt, _write.
    rewrite (wrap64_small v Hv), Henc, Hs. reflexivity.
  - intros rest. rewrite <- app_assoc. apply Hdec.
  - apply high_bit_clear, Hg.
Qed.

Lemma varint_roundtrip_witness :
  0 <= 300 < 2 ^ 64 /\
  exists l g,
    varint 300 = Some (l ++ [g]) /\
    (forall w s, g_gzFile w = Some s ->
                 g_gzFile (_writeUInt w 300) = Some (s ++ l ++ [g])) /\
    (forall rest, decode_varint ((l ++ [g]) ++ rest) = Some (300, rest)) /\
    Forall (fun b => 0 <= b < 256 /\ Z.testbit b 7 = true) l /\
    (0 <= g < 256 /\ Z.testbit g 7 = false) /\
    Z.of_nat (length (l ++ [g])) = Z.max 1 (ceil_div7 (bits_needed 300)) /\
    varint 0 = Some [0].
Proof.
  split; [lia|]. apply (varint_roundtrip 300). lia.
Defined.

(** ** Writes as appended bytes *)

Lemma _writeUInt_enc (w : Writer) (v : Z) : _writeUInt w v = _write w (enc_uint v).
Proof.
  unfold _writeUInt, enc_uint.
  destruct (varint_total v) as [buf ->]. reflexivity.
Qed.

Lemma _write_nil (w : Writer) : _write w [] = w.
Proof.
  unfold _write. destruct w as [[s|] ? ? ? ? ? ?]; cbn; [|reflexivity].
  unfold set_gzFile; cbn. rewrite app_nil_r. reflexivity.
Qed.

Lemma _write_app (w : Writer) (a b : list Z) :
  _write (_write w a) b = _write w (a ++ b).
Proof.
  unfold _write. destruct w as [[s|] ? ? ? ? ? ?]; cbn; [|reflexivity].
  unfold set_gzFile; cbn. rewrite app_assoc. reflexivity.
Qed.

Lemma _write_open (w : Writer) (s b : list Z) :
  g_gzFile w = Some s -> _write w b = set_gzFile w (Some (s ++ b)).
Proof. intros H. unfold _write. rewrite H. reflexivity. Qed.

Lemma _write_closed (w : Writer) (b : list Z) :
  g_gzFile w = None -> _write w b = w.
Proof. intros H. unfold _write. rewrite H. reflexivity. Qed.

Lemma _writeString_enc (w : Writer) (str : string) :
  _writeString w str = _write w (enc_string str).
Proof.
  unfold _writeString, enc_string. rewrite _writeUInt_enc, _write_app. reflexivity.
Qed.

Lemma neg_as_unsigned (v : Z) :
  - 2 ^ 63 <= v < 0 -> wrap64 (signed64 (- v)) = Z.abs v.
Proof.
  intros Hv. unfold signed64.
  rewrite (wrap64_small (- v)) by lia.
  destruct (Z.ltb_spec (- v) (2 ^ 63)).
  - rewrite wrap64_small by lia. lia.
  - unfold wrap64. replace (- v - 2 ^ 64) with (- v + (-1) * 2 ^ 64) by lia.
    rewrite Z_mod_plus_full. rewrite Z.mod_small by lia. lia.
Qed.

Lemma writeSInt_enc (fmt : TraceFormat) (w : Writer) (v : Z) :
  writeSInt fmt w v = _write w (enc_sint fmt v).
Proof.
  unfold writeSInt, enc_sint, _writeByte.
  destruct (v <? 0); rewrite _writeUInt_enc, _write_app; reflexivity.
Qed.

(** C8: for every [signed long long] value, also the most negative one,
    [writeSInt] writes the SINT tag and the varint of the absolute value
    when the value is negative, and the UINT tag and the varint of the
    value otherwise (so for 0); the varint decodes to the absolute
    value, no sign bit being written. *)
Theorem writeSInt_tagged (fmt : TraceFormat) (w : Writer) (s : list Z) (v : Z)
    (Hv : - 2 ^ 63 <= v < 2 ^ 63) (Hs : g_gzFile w = Some s) :
  exists bs,
    varint (Z.abs v) = Some bs /\
    (forall rest, decode_varint (bs ++ rest) = Some (Z.abs v, rest)) /\
    writeSInt fmt w v =
      set_gzFile w (Some (s ++ (if v <? 0 then TYPE_SINT fmt else TYPE_UINT fmt) :: bs)).
Proof.
  assert (Habs : 0 <= Z.abs v < 2 ^ 64) by lia.
  destruct (varint_spec (Z.abs v) Habs) as (l & g & Henc & _ & _ & Hdec & _).
  exists (l ++ [g]). split; [exact Henc|]. split.
  - intros rest. rewrite <- app_assoc. apply Hdec.
  - rewrite writeSInt_enc, (_write_open w s) by exact Hs.
    unfold enc_sint, enc_uint.
    destruct (Z.ltb_spec v 0).
    + rewrite neg_as_unsigned by lia. rewrite Henc. reflexivity.
    + rewrite wrap64_small by lia.
      rewrite Z.abs_eq in Henc by lia. rewrite Henc. reflexivity.
Qed.

Lemma writeSInt_tagged_witness :
  exists bs,
    varint (Z.abs (- 2 ^ 63)) = Some bs /\
    (forall rest, decode_varint (bs ++ rest) = Some (Z.abs (- 2 ^ 63), rest)) /\
    writeSInt sample_format sample_writer (- 2 ^ 63) =
      set_gzFile sample_writer
        (Some ([1] ++ (if - 2 ^ 63 <? 0 then TYPE_SINT sample_format
                       else TYPE_UINT sample_format) :: bs)).
Proof.
  apply (writeSInt_tagged sample_format _ [1] (- 2 ^ 63)).
  - lia.
  - reflexivity.
Defined.

(** ** The definition caches *)

Lemma lookup_described (m : list bool) (i : Z) :
  snd (lookup m i) = described m i.
Proof.
  unfold lookup, described.
  destruct (Z.leb_spec (Z.of_nat (length m)) i) as [Hle|Hlt]; [|reflexivity].
  cbn [snd]. rewrite lookup_ge_None_2 by lia. reflexivity.
Qed.

Lemma described_cache_mark (m : list bool) (i j : Z) :
  0 <= i -> 0 <= j ->
  described (cache_mark m i) j = described m j || (i =? j).
Proof.
  intros Hi Hj. unfold cache_mark, lookup, mark, described.
  destruct (Z.leb_spec (Z.of_nat (length m)) i) as [Hle|Hlt].
  - destruct (Z.eqb_spec i j) as [<-|Hne].
    + rewrite list_lookup_insert_eq by (rewrite length_resize; lia).
      rewrite orb_true_r. reflexivity.
    + rewrite list_lookup_insert_ne by lia. rewrite orb_false_r.
      destruct (Z.lt_ge_cases j (Z.of_nat (length m))).
      * rewrite lookup_resize by lia. reflexivity.
      * rewrite (lookup_ge_None_2 m) by lia.
        destruct (Z.lt_ge_cases j (i + 1)).
        -- rewrite lookup_resize_new by lia. reflexivity.
        -- rewrite lookup_ge_None_2 by (rewrite length_resize; lia). reflexivity.
  - destruct (m !! Z.to_nat i) as [[|]|] eqn:E; cbn [from_option id].
    + destruct (Z.eqb_spec i j) as [<-|Hne].
      * rewrite E. reflexivity.
      * rewrite orb_false_r. reflexivity.
    + destruct (Z.eqb_spec i j) as [<-|Hne].
      * rewrite list_lookup_insert_eq by lia. rewrite orb_true_r. reflexivity.
      * rewrite list_lookup_insert_ne by lia. rewrite orb_false_r. reflexivity.
    + apply lookup_ge_None_1 in E. lia.
Qed.

Lemma fold_write (A : Type) (f : Writer -> A -> Writer) (g : A -> list Z)
    (l : list A) :
  (forall w a, f w a = _write w (g a)) ->
  forall w, fold_left f l w = _write w (flat_map g l).
Proof.
  intros Hf. induction l as [|a l IH]; intros w; cbn [fold_left flat_map].
  - symmetry. apply _write_nil.
  - rewrite IH, Hf, _write_app. reflexivity.
Qed.

Lemma write_names_enc (w : Writer) (num : Z) (names : list string) :
  write_names w num names = _write w (enc_names num names).
Proof.
  unfold write_names, enc_names. apply fold_write.
  intros. apply _writeString_enc.
Qed.

Lemma write_flags_enc (w : Writer) (num : Z) (fl : list BitmaskFlag) :
  write_flags w num fl = _write w (enc_flags num fl).
Proof.
  unfold write_flags, enc_flags. apply fold_write.
  intros. cbv zeta. rewrite _writeString_enc, _writeUInt_enc, _write_app. reflexivity.
Qed.

(** Writing commutes with the updates of the caches. *)
Lemma _write_set_functions w m b :
  _write (set_functions w m) b = set_functions (_write w b) m.
Proof. destruct w as [[s|] ? ? ? ? ? ?]; reflexivity. Qed.

Lemma _write_set_structs w m b :
  _write (set_structs w m) b = set_structs (_write w b) m.
Proof. destruct w as [[s|] ? ? ? ? ? ?]; reflexivity. Qed.

Lemma _write_set_enums w m b :
  _write (set_enums w m) b = set_enums (_write w b) m.
Proof. destruct w as [[s|] ? ? ? ? ? ?]; reflexivity. Qed.

Lemma _write_set_bitmasks w m b :
  _write (set_bitmasks w m) b = set_bitmasks (_write w b) m.
Proof. destruct w as [[s|] ? ? ? ? ? ?]; reflexivity. Qed.

Lemma _write_fields w b :
  functions (_write w b) = functions w /\ structs (_write w b) = structs w /\
  enums (_write w b) = enums w /\ bitmasks (_write w b) = bitmasks w /\
  call_no (_write w b) = call_no w /\ gz_closed (_write w b) = gz_closed w.
Proof. destruct w as [[s|] ? ? ? ? ? ?]; repeat split; reflexivity. Qed.

Ltac to_writes :=
  unfold _writeByte;
  repeat first
    [ rewrite _writeUInt_enc | rewrite _writeString_enc
    | rewrite write_names_enc | rewrite write_flags_enc
    | rewrite writeSInt_enc | rewrite _write_app
    | rewrite _write_set_functions | rewrite _write_set_structs
    | rewrite _write_set_enums | rewrite _write_set_bitmasks ].

Lemma beginStruct_enc (fmt : TraceFormat) (w : Writer) (sig : StructSig) :
  beginStruct fmt w sig =
  set_structs
    (_write w (TYPE_STRUCT fmt :: enc_uint (st_id sig)
               ++ (if described (structs w) (st_id sig) then []
                   else struct_definition sig)))
    (cache_mark (structs w) (st_id sig)).
Proof.
  unfold beginStruct, cache_mark, struct_definition. to_writes.
  destruct (_write_fields w ([TYPE_STRUCT fmt] ++ enc_uint (st_id sig)))
    as (_ & -> & _).
  rewrite <- (lookup_described (structs w)).
  destruct (lookup (structs w) (st_id sig)) as [m [|]]; cbn [snd].
  - rewrite app_nil_r. reflexivity.
  - to_writes. cbn. reflexivity.
Qed.

Lemma writeEnum_enc (fmt : TraceFormat) (w : Writer) (sig : EnumSig) :
  writeEnum fmt w sig =
  set_enums
    (_write w (TYPE_ENUM fmt :: enc_uint (en_id sig)
               ++ (if described (enums w) (en_id sig) then []
                   else enum_definition fmt sig)))
    (cache_mark (enums w) (en_id sig)).
Proof.
  unfold writeEnum, cache_mark, enum_definition. to_writes.
  destruct (_write_fields w ([TYPE_ENUM fmt] ++ enc_uint (en_id sig)))
    as (_ & _ & -> & _).
  rewrite <- (lookup_described (enums w)).
  destruct (lookup (enums w) (en_id sig)) as [m [|]]; cbn [snd].
  - rewrite app_nil_r. reflexivity.
  - to_writes. cbn. reflexivity.
Qed.

Lemma writeBitmask_enc (fmt : TraceFormat) (w : Writer) (sig : BitmaskSig)
    (value : Z) :
  writeBitmask fmt w sig value =
  set_bitmasks
    (_write w (TYPE_BITMASK fmt :: enc_uint (bm_id sig)
               ++ (if described (bitmasks w) (bm_id sig) then []
                   else bitmask_definition sig)
               ++ enc_uint value))
    (cache_mark (bitmasks w) (bm_id sig)).
Proof.
  unfold writeBitmask, cache_mark, bitmask_definition. to_writes.
  destruct (_write_fields w ([TYPE_BITMASK fmt] ++ enc_uint (bm_id sig)))
    as (_ & _ & _ & -> & _).
  rewrite <- (lookup_described (bitmasks w)).
  destruct (lookup (bitmasks w) (bm_id sig)) as [m [|]]; cbn [snd].
  - to_writes. reflexivity.
  - to_writes. cbn. rewrite <- !app_assoc. reflexivity.
Qed.

Lemma beginEnter_enc (fmt : TraceFormat) (os : OS) (w : Writer)
    (sig : FunctionSig) :
  beginEnter fmt os w sig =
  (call_no (ensure_open fmt os w),
   set_call_no
     (set_functions
        (_write (ensure_open fmt os w)
                (EVENT_ENTER fmt :: enc_uint (fn_id sig)
                 ++ (if described (functions (ensure_open fmt os w)) (fn_id sig)
                     then [] else function_definition sig)))
        (cache_mark (functions (ensure_open fmt os w)) (fn_id sig)))
     (wrap32 (call_no (ensure_open fmt os w) + 1))).
Proof.
  unfold beginEnter, cache_mark, function_definition.
  generalize (ensure_open fmt os w) as w0. intros w0. to_writes.
  destruct (_write_fields w0 ([EVENT_ENTER fmt] ++ enc_uint (fn_id sig)))
    as (-> & _).
  rewrite <- (lookup_described (functions w0)).
  destruct (lookup (functions w0) (fn_id sig)) as [m [|]]; cbn [snd].
  - rewrite app_nil_r. cbn.
    match goal with |- context [call_no (_write w0 ?b)] =>
      destruct (_write_fields w0 b) as (_ & _ & _ & _ & -> & _) end.
    reflexivity.
  - to_writes. cbn.
    match goal with |- context [call_no (_write w0 ?b)] =>
      destruct (_write_fields w0 b) as (_ & _ & _ & _ & -> & _) end.
    reflexivity.
Qed.

Lemma ensure_open_open (fmt : TraceFormat) (os : OS) (w : Writer) (s : list Z) :
  g_gzFile w = Some s -> ensure_open fmt os w = w.
Proof. intros H. unfold ensure_open. rewrite H. reflexivity. Qed.

(** One use of a signature on an open stream: the reference, then the
    definition unless the cache holds the id, then the trailer; the id is
    marked in the cache of its kind and nothing else changes in the
    caches. *)
Lemma exec_use_step (fmt : TraceFormat) (os : OS) (w : Writer) (s : list Z)
    (u : Use) :
  g_gzFile w = Some s -> 0 <= use_id u ->
  g_gzFile (exec_use fmt os w u) =
    Some (s ++ use_reference fmt u
            ++ (if described (cache_of (use_kind u) w) (use_id u) then []
                else use_definition fmt u)
            ++ use_trailer u) /\
  forall k j, 0 <= j ->
    described (cache_of k (exec_use fmt os w u)) j =
    described (cache_of k w) j || (Kind_eqb (use_kind u) k && (use_id u =? j)).
Proof.
  intros Hs Hid.
  destruct u as [sig|sig|sig|sig value]; cbn [exec_use use_kind use_id] in *.
  - rewrite beginEnter_enc, (ensure_open_open fmt os w s Hs).
    rewrite (_write_open w s) by exact Hs. split.
    + cbn. rewrite app_nil_r. reflexivity.
    + intros [] j Hj; cbn; rewrite ?orb_false_r; try reflexivity.
      apply described_cache_mark; assumption.
  - rewrite beginStruct_enc, (_write_open w s) by exact Hs. split.
    + cbn. rewrite app_nil_r. reflexivity.
    + intros [] j Hj; cbn; rewrite ?orb_false_r; try reflexivity.
      apply described_cache_mark; assumption.
  - rewrite writeEnum_enc, (_write_open w s) by exact Hs. split.
    + cbn. rewrite app_nil_r. reflexivity.
    + intros [] j Hj; cbn; rewrite ?orb_false_r; try reflexivity.
      apply described_cache_mark; assumption.
  - rewrite writeBitmask_enc, (_write_open w s) by exact Hs. split.
    + cbn. reflexivity.
    + intros [] j Hj; cbn; rewrite ?orb_false_r; try reflexivity.
      apply described_cache_mark; assumption.
Qed.

Lemma exec_use_run (fmt : TraceFormat) (os : OS) (us : list Use) :
  forall (w : Writer) (s : list Z) (seen : list (Kind * Z)),
    g_gzFile w = Some s ->
    (forall k j, 0 <= j -> described (cache_of k w) j = seen_in seen k j) ->
    Forall (fun u => 0 <= use_id u) us ->
    g_gzFile (fold_left (exec_use fmt os) us w) =
      Some (s ++ described_once fmt seen us) /\
    forall k j, 0 <= j ->
      described (cache_of k (fold_left (exec_use fmt os) us w)) j =
      seen_in seen k j
      || existsb (fun u => Kind_eqb (use_kind u) k && (use_id u =? j)) us.
Proof.
  induction us as [|u us IH]; intros w s seen Hs Hseen Hids;
    cbn [fold_left described_once existsb].
  - rewrite app_nil_r. split; [exact Hs|].
    intros k j Hj. rewrite orb_false_r. auto.
  - inversion Hids as [|? ? Hu Hrest]; subst.
    destruct (exec_use_step fmt os w s u Hs Hu) as [Hstream Hcache].
    rewrite (Hseen (use_kind u) (use_id u) Hu) in Hstream.
    destruct (IH (exec_use fmt os w u) _ ((use_kind u, use_id u) :: seen)
                 Hstream) as [Hstream' Hcache'].
    { intros k j Hj. rewrite Hcache by exact Hj. rewrite Hseen by exact Hj.
      cbn [seen_in existsb fst snd]. apply orb_comm. }
    { exact Hrest. }
    split.
    + rewrite Hstream'. f_equal. rewrite <- !app_assoc. reflexivity.
    + intros k j Hj. rewrite Hcache' by exact Hj.
      cbn [seen_in existsb fst snd].
      unfold seen_in.
      destruct (Kind_eqb (use_kind u) k && (use_id u =? j)),
        (existsb (fun e => Kind_eqb (fst e) k && (snd e =? j)) seen);
        reflexivity.
Qed.

(** C3: in a session (an open stream whose four caches start empty), a
    run of uses of function, struct, enum and bitmask signatures writes the
    full definition of an id at the first use of its (kind, id) and only the
    reference at every later use; after the run, the cache of a kind holds
    exactly the ids of that kind that were used, so that a later query
    answers true for them and false for any other id, the four kinds being
    tracked apart. *)
Theorem definitions_described_once (fmt : TraceFormat) (os : OS) (w : Writer)
    (s : list Z) (us : list Use)
    (Hopen : g_gzFile w = Some s)
    (Hfresh : functions w = [] /\ structs w = [] /\ enums w = [] /\ bitmasks w = [])
    (Hids : Forall (fun u => 0 <= use_id u) us) :
  g_gzFile (fold_left (exec_use fmt os) us w) = Some (s ++ described_once fmt [] us) /\
  forall k j, 0 <= j ->
    snd (lookup (cache_of k (fold_left (exec_use fmt os) us w)) j) =
    existsb (fun u => Kind_eqb (use_kind u) k && (use_id u =? j)) us.
Proof.
  destruct Hfresh as (Hf & Hst & He & Hb).
  destruct (exec_use_run fmt os us w s [] Hopen) as [Hstream Hcache].
  - intros [] j Hj; cbn [cache_of]; rewrite ?Hf, ?Hst, ?He, ?Hb;
      unfold described; rewrite lookup_nil; reflexivity.
  - exact Hids.
  - split; [exact Hstream|].
    intros k j Hj. rewrite lookup_described. apply Hcache, Hj.
Qed.

Lemma definitions_described_once_witness :
  g_gzFile (fold_left (exec_use sample_format sample_os)
              [UseFunction memcpy_sig; UseFunction memcpy_sig;
               UseFunction malloc_sig] sample_writer) =
    Some ([1] ++ described_once sample_format []
              [UseFunction memcpy_sig; UseFunction memcpy_sig;
               UseFunction malloc_sig]) /\
  forall k j, 0 <= j ->
    snd (lookup (cache_of k (fold_left (exec_use sample_format sample_os)
              [UseFunction memcpy_sig; UseFunction memcpy_sig;
               UseFunction malloc_sig] sample_writer)) j) =
    existsb (fun u => Kind_eqb (use_kind u) k && (use_id u =? j))
            [UseFunction memcpy_sig; UseFunction memcpy_sig;
             UseFunction malloc_sig].
Proof.
  apply (definitions_described_once sample_format sample_os sample_writer [1]).
  - reflexivity.
  - repeat split; reflexivity.
  - repeat constructor; cbn; lia.
Defined.

(** ** The pseudo-calls of the region engine *)

Lemma _write_set_call_no w n b :
  _write (set_call_no w n) b = set_call_no (_write w b) n.
Proof. destruct w as [[s|] ? ? ? ? ? ?]; reflexivity. Qed.

Lemma writeUInt_enc fmt w v :
  writeUInt fmt w v = _write w (TYPE_UINT fmt :: enc_uint v).
Proof. unfold writeUInt. to_writes. reflexivity. Qed.

Lemma writeOpaque_enc fmt w addr :
  writeOpaque fmt w addr = _write w (enc_opaque fmt addr).
Proof.
  unfold writeOpaque, enc_opaque, writeNull.
  destruct (addr =? 0); to_writes; reflexivity.
Qed.

Lemma writeBlob_enc fmt os w data size :
  writeBlob fmt os w data size = _write w (enc_blob fmt os data size).
Proof.
  unfold writeBlob, enc_blob, writeNull.
  destruct (data =? 0); [reflexivity|].
  destruct (size =? 0); to_writes; [rewrite app_nil_r|]; reflexivity.
Qed.

Lemma beginArg_enc fmt w index :
  beginArg fmt w index = _write w (CALL_ARG fmt :: enc_uint index).
Proof. unfold beginArg. to_writes. reflexivity. Qed.

Lemma beginLeave_enc fmt w call :
  beginLeave fmt w call = _write w (EVENT_LEAVE fmt :: enc_uint call).
Proof. unfold beginLeave. to_writes. reflexivity. Qed.

Ltac to_events :=
  unfold endArg, endReturn, endEnter, endLeave, gzflush, beginReturn, _writeByte;
  repeat first
    [ rewrite writeUInt_enc | rewrite writeOpaque_enc | rewrite writeBlob_enc
    | rewrite beginArg_enc | rewrite beginLeave_enc
    | rewrite _write_app | rewrite _write_set_call_no
    | rewrite _write_set_functions ].

(** The pseudo-call [memcpy] as one write: the bytes of the copy event,
    the id of [memcpy] marked in the cache of functions, one call number
    taken. *)
Lemma emit_memcpy_enc fmt os w p length :
  emit_memcpy fmt os w p length =
  set_call_no
    (set_functions
       (_write (ensure_open fmt os w)
          (memcpy_event fmt os
             (described (functions (ensure_open fmt os w)) (fn_id memcpy_sig))
             (call_no (ensure_open fmt os w)) p length))
       (cache_mark (functions (ensure_open fmt os w)) (fn_id memcpy_sig)))
    (wrap32 (call_no (ensure_open fmt os w) + 1)).
Proof.
  unfold emit_memcpy, memcpy_event. rewrite beginEnter_enc. to_events.
  rewrite <- ?app_assoc. reflexivity.
Qed.

Lemma emit_malloc_enc fmt os w size start :
  emit_malloc fmt os w size start =
  set_call_no
    (set_functions
       (_write (ensure_open fmt os w)
          (malloc_event fmt
             (described (functions (ensure_open fmt os w)) (fn_id malloc_sig))
             (call_no (ensure_open fmt os w)) size start))
       (cache_mark (functions (ensure_open fmt os w)) (fn_id malloc_sig)))
    (wrap32 (call_no (ensure_open fmt os w) + 1)).
Proof.
  unfold emit_malloc, malloc_event. rewrite beginEnter_enc. to_events.
  rewrite <- ?app_assoc. reflexivity.
Qed.

(** Two signatures with the same function id: once the first was entered,
    the id is held as described for the second, whose entry then writes the
    reference alone. *)
Lemma first_use_marks (fmt : TraceFormat) (os : OS) (w : Writer) (s : list Z)
    (a b : FunctionSig) :
  fn_id a = fn_id b -> 0 <= fn_id a -> g_gzFile w = Some s ->
  exists s1,
    g_gzFile (snd (beginEnter fmt os w a)) = Some s1 /\
    described (functions (snd (beginEnter fmt os w a))) (fn_id b) = true /\
    g_gzFile (snd (beginEnter fmt os (snd (beginEnter fmt os w a)) b)) =
      Some (s1 ++ EVENT_ENTER fmt :: enc_uint (fn_id b)).
Proof.
  intros Hid Ha Hs.
  destruct (exec_use_step fmt os w s (UseFunction a) Hs Ha) as [Hs1 Hc1].
  cbn [exec_use use_kind use_id use_reference use_definition use_trailer cache_of]
    in Hs1, Hc1.
  assert (Hd : described (functions (snd (beginEnter fmt os w a))) (fn_id b) = true).
  { assert (Hb : 0 <= fn_id b) by lia.
    pose proof (Hc1 KFunction (fn_id b) Hb) as H.
    cbn [cache_of Kind_eqb] in H. rewrite H.
    rewrite Hid, Z.eqb_refl. apply orb_true_r. }
  eexists. split; [exact Hs1|]. split; [exact Hd|].
  destruct (exec_use_step fmt os _ _ (UseFunction b) Hs1) as [Hs2 _].
  { cbn [use_id]. lia. }
  cbn [exec_use use_kind use_id use_reference use_definition use_trailer cache_of]
    in Hs2.
  rewrite Hd in Hs2. rewrite Hs2. cbn [app]. rewrite !app_nil_r. reflexivity.
Qed.

(** C10: the pseudo-calls have the function ids 0 (memcpy), 1 (malloc),
    2 (free) and 3 (realloc); the events of the region engine are entered
    through [beginEnter] on the cache of functions, where they mark their
    id; so for a function of the caller that has the id of a pseudo-call,
    whichever of the two is entered first marks the id as described for
    both, and the entry of the other writes no definition. *)
Theorem pseudo_calls_share_function_ids (fmt : TraceFormat) (os : OS)
    (w : Writer) (s : list Z) (pseudo sig : FunctionSig)
    (Hps : In pseudo [memcpy_sig; malloc_sig; free_sig; realloc_sig])
    (Hid : fn_id sig = fn_id pseudo)
    (Hs : g_gzFile w = Some s) :
  (fn_id memcpy_sig = 0 /\ fn_id malloc_sig = 1 /\
   fn_id free_sig = 2 /\ fn_id realloc_sig = 3) /\
  (forall p length,
     functions (emit_memcpy fmt os w p length) =
     cache_mark (functions w) (fn_id memcpy_sig)) /\
  (forall size start,
     functions (emit_malloc fmt os w size start) =
     cache_mark (functions w) (fn_id malloc_sig)) /\
  (exists s1,
     g_gzFile (snd (beginEnter fmt os w pseudo)) = Some s1 /\
     described (functions (snd (beginEnter fmt os w pseudo))) (fn_id sig) = true /\
     g_gzFile (snd (beginEnter fmt os (snd (beginEnter fmt os w pseudo)) sig)) =
       Some (s1 ++ EVENT_ENTER fmt :: enc_uint (fn_id sig))) /\
  (exists s1,
     g_gzFile (snd (beginEnter fmt os w sig)) = Some s1 /\
     described (functions (snd (beginEnter fmt os w sig))) (fn_id pseudo) = true /\
     g_gzFile (snd (beginEnter fmt os (snd (beginEnter fmt os w sig)) pseudo)) =
       Some (s1 ++ EVENT_ENTER fmt :: enc_uint (fn_id pseudo))).
Proof.
  assert (Hpos : 0 <= fn_id pseudo).
  { cbn [In] in Hps. destruct Hps as [<-|[<-|[<-|[<-|[]]]]]; cbn; lia. }
  split; [repeat split; reflexivity|].
  split.
  { intros p length. rewrite emit_memcpy_enc, (ensure_open_open fmt os w s Hs).
    reflexivity. }
  split.
  { intros size start. rewrite emit_malloc_enc, (ensure_open_open fmt os w s Hs).
    reflexivity. }
  split.
  - apply (first_use_marks fmt os w s pseudo sig); [congruence|lia|exact Hs].
  - apply (first_use_marks fmt os w s sig pseudo); [congruence|lia|exact Hs].
Qed.

Lemma pseudo_calls_share_function_ids_witness :
  (fn_id memcpy_sig = 0 /\ fn_id malloc_sig = 1 /\
   fn_id free_sig = 2 /\ fn_id realloc_sig = 3) /\
  (forall p length,
     functions (emit_memcpy sample_format sample_os sample_writer p length) =
     cache_mark (functions sample_writer) (fn_id memcpy_sig)) /\
  (forall size start,
     functions (emit_malloc sample_format sample_os sample_writer size start) =
     cache_mark (functions sample_writer) (fn_id malloc_sig)) /\
  (exists s1,
     g_gzFile (snd (beginEnter sample_format sample_os sample_writer memcpy_sig))
       = Some s1 /\
     described (functions (snd (beginEnter sample_format sample_os sample_writer
                                  memcpy_sig))) (fn_id sample_sig) = true /\
     g_gzFile (snd (beginEnter sample_format sample_os
                      (snd (beginEnter sample_format sample_os sample_writer
                              memcpy_sig)) sample_sig)) =
       Some (s1 ++ EVENT_ENTER sample_format :: enc_uint (fn_id sample_sig))) /\
  (exists s1,
     g_gzFile (snd (beginEnter sample_format sample_os sample_writer sample_sig))
       = Some s1 /\
     described (functions (snd (beginEnter sample_format sample_os sample_writer
                                  sample_sig))) (fn_id memcpy_sig) = true /\
     g_gzFile (snd (beginEnter sample_format sample_os
                      (snd (beginEnter sample_format sample_os sample_writer
                              sample_sig)) memcpy_sig)) =
       Some (s1 ++ EVENT_ENTER sample_format :: enc_uint (fn_id memcpy_sig))).
Proof.
  apply (pseudo_calls_share_function_ids sample_format sample_os sample_writer
           [1] memcpy_sig sample_sig).
  - cbn [In]. left. reflexivity.
  - reflexivity.
  - reflexivity.
Defined.

(** ** Sessions *)

(** The bytes written by one use of a signature on an open stream. *)
Lemma exec_use_stream (fmt : TraceFormat) (os : OS) (w : Writer) (s : list Z)
    (u : Use) :
  g_gzFile w = Some s ->
  g_gzFile (exec_use fmt os w u) =
    Some (s ++ use_reference fmt u
            ++ (if described (cache_of (use_kind u) w) (use_id u) then []
                else use_definition fmt u)
            ++ use_trailer u).
Proof.
  intros Hs.
  destruct u as [sig|sig|sig|sig value]; cbn [exec_use use_kind use_id].
  - rewrite beginEnter_enc, (ensure_open_open fmt os w s Hs).
    rewrite (_write_open w s) by exact Hs. cbn. rewrite app_nil_r. reflexivity.
  - rewrite beginStruct_enc, (_write_open w s) by exact Hs.
    cbn. rewrite app_nil_r. reflexivity.
  - rewrite writeEnum_enc, (_write_open w s) by exact Hs.
    cbn. rewrite app_nil_r. reflexivity.
  - rewrite writeBitmask_enc, (_write_open w s) by exact Hs. reflexivity.
Qed.

(** C6: [open(filename)] first hands the stream that is open, if any, to
    [gzclose]; it returns true exactly when [gzopen] gives a handle; then
    the call counter is 0, the four caches are empty and the new stream
    holds the varint of the format version as its first bytes, so that the
    first use of any id on the new stream writes its definition again,
    whatever was described before; when [gzopen] fails, there is no stream
    and the counter and the caches are as they were. *)
Theorem open_new_session (fmt : TraceFormat) (os : OS) (w : Writer) :
  let closed :=
    match g_gzFile w with
    | Some s => s :: gz_closed w
    | None => gz_closed w
    end in
  fst (open fmt os w) = gzopen os /\
  (exists header,
     varint (wrap64 (TRACE_VERSION fmt)) = Some header /\
     snd (open fmt os w) =
       if gzopen os then
         {| g_gzFile := Some header; call_no := 0; functions := [];
            structs := []; enums := []; bitmasks := []; gz_closed := closed |}
       else
         {| g_gzFile := None; call_no := call_no w; functions := functions w;
            structs := structs w; enums := enums w; bitmasks := bitmasks w;
            gz_closed := closed |}) /\
  forall os' u,
    if gzopen os then
      g_gzFile (exec_use fmt os' (snd (open fmt os w)) u) =
        Some (enc_uint (TRACE_VERSION fmt)
              ++ use_reference fmt u ++ use_definition fmt u ++ use_trailer u)
    else g_gzFile (snd (open fmt os w)) = None.
Proof.
  intros closed.
  destruct (varint_total (TRACE_VERSION fmt)) as [header Hh].
  assert (Hopen : open fmt os w =
    if gzopen os then
      (true, {| g_gzFile := Some header; call_no := 0; functions := [];
                structs := []; enums := []; bitmasks := [];
                gz_closed := closed |})
    else
      (false, {| g_gzFile := None; call_no := call_no w; functions := functions w;
                 structs := structs w; enums := enums w; bitmasks := bitmasks w;
                 gz_closed := closed |})).
  { unfold open, close, closed, _writeUInt. rewrite Hh.
    destruct w as [[s|] ? ? ? ? ? ?], (gzopen os); reflexivity. }
  rewrite Hopen. split; [|split].
  - destruct (gzopen os); reflexivity.
  - exists header. split; [exact Hh|]. destruct (gzopen os); reflexivity.
  - intros os' u. destruct (gzopen os); [|reflexivity].
    cbn [snd]. erewrite exec_use_stream by reflexivity.
    unfold enc_uint at 1. rewrite Hh. cbn [from_option id].
    destruct u; reflexivity.
Qed.

(** Without a stream, a write leaves the writer as it is. *)
Lemma _writeUInt_closed (w : Writer) (v : Z) :
  g_gzFile w = None -> _writeUInt w v = w.
Proof. intros H. rewrite _writeUInt_enc. apply _write_closed, H. Qed.

Lemma ensure_open_failed (fmt : TraceFormat) (os : OS) (w : Writer) :
  g_gzFile w = None -> gzopen os = false -> ensure_open fmt os w = w.
Proof.
  intros Hw Hos. unfold ensure_open, open_void, open, close.
  rewrite Hw, Hos. reflexivity.
Qed.

Lemma exec_closed (fmt : TraceFormat) (os : OS) (w : Writer) (op : WriteOp) :
  g_gzFile w = None -> gzopen os = false ->
  g_gzFile (exec fmt os w op) = None /\
  gz_closed (exec fmt os w op) = gz_closed w.
Proof.
  intros Hw Hos.
  destruct op; cbn [exec];
    try (rewrite beginEnter_enc, (ensure_open_failed fmt os w Hw Hos));
    rewrite ?beginStruct_enc, ?writeEnum_enc, ?writeBitmask_enc;
    unfold _writeFloat, _writeDouble, writeBool, writeFloat, writeDouble,
      writeString, writeString_len, writeWString, writeNull, beginArray,
      _writeFloat, _writeDouble;
    to_events; to_writes;
    repeat match goal with
           | |- context [match ?x with _ => _ end] => destruct x
           end;
    to_writes; rewrite ?_write_closed by exact Hw; cbn;
    rewrite ?_write_closed by exact Hw; auto.
Qed.

(** C7: with no stream open and [gzopen] failing, as after a failed
    [open], any run of write operations (raw writes, values, framing,
    the flushes at the end of a frame) leaves the writer without a stream
    and hands nothing to zlib: the byte write returns the writer as it is;
    no operation fails, the assertion of the varint encoder holding for
    every value; and a later [open] for which [gzopen] succeeds gives a
    stream again. *)
Theorem writes_without_stream (fmt : TraceFormat) (os : OS) (w : Writer)
    (ops : list WriteOp)
    (Hw : g_gzFile w = None) (Hos : gzopen os = false) :
  g_gzFile (fold_left (exec fmt os) ops w) = None /\
  gz_closed (fold_left (exec fmt os) ops w) = gz_closed w /\
  (forall sBuffer,
     _write (fold_left (exec fmt os) ops w) sBuffer = fold_left (exec fmt os) ops w) /\
  (forall value, varint (wrap64 value) <> None) /\
  (forall w0, g_gzFile (snd (open fmt os w0)) = None) /\
  (forall os', gzopen os' = true ->
     g_gzFile (snd (open fmt os' (fold_left (exec fmt os) ops w))) =
       Some (enc_uint (TRACE_VERSION fmt))).
Proof.
  assert (Hrun : g_gzFile (fold_left (exec fmt os) ops w) = None /\
                 gz_closed (fold_left (exec fmt os) ops w) = gz_closed w).
  { revert w Hw. induction ops as [|op ops IH]; intros w Hw; cbn [fold_left].
    - split; [exact Hw|reflexivity].
    - destruct (exec_closed fmt os w op Hw Hos) as [H1 H2].
      destruct (IH _ H1) as [H3 H4]. split; [exact H3|congruence]. }
  destruct Hrun as [Hnone Hclosed].
  repeat split; try assumption.
  - intros sBuffer. apply _write_closed, Hnone.
  - intros value. destruct (varint_total value) as [buf ->]. discriminate.
  - intros w0. unfold open. rewrite Hos. unfold close.
    destruct (g_gzFile w0) eqn:E; [reflexivity|exact E].
  - intros os' Hos'. unfold open. rewrite Hos'. cbn [snd].
    rewrite _writeUInt_enc. reflexivity.
Qed.

Lemma writes_without_stream_witness :
  g_gzFile (fold_left (exec sample_format failing_os)
              [OpBeginEnter memcpy_sig; OpBeginArg 0; OpWriteUInt 7; OpEndArg;
               OpEndEnter; OpBeginLeave 0; OpEndLeave] new_Writer) = None /\
  gz_closed (fold_left (exec sample_format failing_os)
              [OpBeginEnter memcpy_sig; OpBeginArg 0; OpWriteUInt 7; OpEndArg;
               OpEndEnter; OpBeginLeave 0; OpEndLeave] new_Writer)
    = gz_closed new_Writer /\
  (forall sBuffer,
     _write (fold_left (exec sample_format failing_os)
              [OpBeginEnter memcpy_sig; OpBeginArg 0; OpWriteUInt 7; OpEndArg;
               OpEndEnter; OpBeginLeave 0; OpEndLeave] new_Writer) sBuffer
     = fold_left (exec sample_format failing_os)
              [OpBeginEnter memcpy_sig; OpBeginArg 0; OpWriteUInt 7; OpEndArg;
               OpEndEnter; OpBeginLeave 0; OpEndLeave] new_Writer) /\
  (forall value, varint (wrap64 value) <> None) /\
  (forall w0, g_gzFile (snd (open sample_format failing_os w0)) = None) /\
  (forall os', gzopen os' = true ->
     g_gzFile (snd (open sample_format os'
                 (fold_left (exec sample_format failing_os)
              [OpBeginEnter memcpy_sig; OpBeginArg 0; OpWriteUInt 7; OpEndArg;
               OpEndEnter; OpBeginLeave 0; OpEndLeave] new_Writer))) =
       Some (enc_uint (TRACE_VERSION sample_format))).
Proof.
  apply (writes_without_stream sample_format failing_os new_Writer).
  - reflexivity.
  - reflexivity.
Defined.

(** ** Region resolution *)

Lemma find_region_found (a b : Z) (l : RegionInfoList) :
  forall kept it tl,
    find_region a b l = (kept, Some (it, tl)) ->
    rg_start it = a /\ wrap64 (rg_start it + rg_size it) = b /\ a < b.
Proof.
  induction l as [|r l IH]; intros kept it tl H; cbn [find_region] in H.
  - discriminate.
  - destruct (Z.ltb_spec a (wrap64 (rg_start r + rg_size r))) as [H1|H1];
      destruct (Z.ltb_spec (rg_start r) b) as [H2|H2]; cbn [andb] in H;
      try (destruct (find_region a b l) as [k [[it' tl']|]] eqn:E;
           inversion H; subst; eapply IH; reflexivity).
    destruct (Z.eqb_spec a (rg_start r)) as [H3|H3];
      destruct (Z.eqb_spec b (wrap64 (rg_start r + rg_size r))) as [H4|H4];
      cbn [andb] in H;
      try (eapply IH; exact H).
    inversion H; subst. repeat split; lia.
Qed.

(** The regions kept by the loop do not meet the queried extent, and a list
    of such regions is skipped over. *)
Lemma find_region_kept (a b : Z) (l : RegionInfoList) :
  forall kept found,
    find_region a b l = (kept, found) ->
    Forall (fun r => overlaps a b r = false) kept.
Proof.
  induction l as [|r l IH]; intros kept found H; cbn [find_region] in H.
  - inversion H. constructor.
  - fold (overlaps a b r) in H. destruct (overlaps a b r) eqn:Ho.
    + destruct ((a =? rg_start r) && (b =? wrap64 (rg_start r + rg_size r))).
      * inversion H. constructor.
      * eapply IH. exact H.
    + destruct (find_region a b l) as [k f] eqn:E. inversion H; subst.
      constructor; [exact Ho|]. eapply IH. reflexivity.
Qed.

Lemma find_region_skip (a b : Z) (kept l : RegionInfoList) :
  Forall (fun r => overlaps a b r = false) kept ->
  find_region a b (kept ++ l) =
  (kept ++ fst (find_region a b l), snd (find_region a b l)).
Proof.
  induction 1 as [|r kept Hr _ IH]; cbn [app find_region].
  - destruct (find_region a b l). reflexivity.
  - fold (overlaps a b r). rewrite Hr, IH. reflexivity.
Qed.

(** The regions of the registry after the loop are regions of the registry
    before it. *)
Lemma find_region_Forall (P : RegionInfo -> Prop) (a b : Z) (l : RegionInfoList) :
  Forall P l ->
  forall kept found,
    find_region a b l = (kept, found) ->
    Forall P kept /\
    match found with
    | Some (it, tl) => P it /\ Forall P tl
    | None => True
    end.
Proof.
  induction 1 as [|r l Hr Hl IH]; intros kept found H; cbn [find_region] in H.
  - inversion H. split; [constructor|exact I].
  - fold (overlaps a b r) in H. destruct (overlaps a b r).
    + destruct ((a =? rg_start r) && (b =? wrap64 (rg_start r + rg_size r))).
      * inversion H. split; [constructor|]. split; assumption.
      * eapply IH. exact H.
    + destruct (find_region a b l) as [k f] eqn:E. inversion H; subst.
      destruct (IH k found eq_refl) as [Hk Hf].
      split; [constructor; assumption|exact Hf].
Qed.

(** ** Requests that copy nothing *)

(** What the loop of [lookupRegionInfo] does to a registry, told without
    the loop: when it returns at no region, the regions that intersect the
    extent are erased and the others kept, in their order. *)
Lemma find_region_none (a b : Z) (l : RegionInfoList) :
  Forall (fun r => found_at a b r = false) l ->
  find_region a b l = (List.filter (fun r => negb (overlaps a b r)) l, None).
Proof.
  induction 1 as [|r l Hr _ IH]; cbn [find_region List.filter]; [reflexivity|].
  fold (overlaps a b r). fold (same_extent a b r).
  unfold found_at in Hr. destruct (overlaps a b r); cbn [andb negb] in Hr |- *.
  - rewrite Hr. exact IH.
  - rewrite IH. reflexivity.
Qed.

(** It returns at the first region for which both tests hold; of the regions
    before that one, those that intersect the extent are erased; the regions
    after it are not looked at. *)
Lemma find_region_first (a b : Z) (l1 l2 : RegionInfoList) (it : RegionInfo) :
  Forall (fun r => found_at a b r = false) l1 ->
  found_at a b it = true ->
  find_region a b (l1 ++ it :: l2) =
  (List.filter (fun r => negb (overlaps a b r)) l1, Some (it, l2)).
Proof.
  intros Hl1 Hit. induction Hl1 as [|r l Hr _ IH];
    cbn [app find_region List.filter].
  - fold (overlaps a b it). fold (same_extent a b it).
    unfold found_at in Hit. apply andb_prop in Hit. destruct Hit as [-> ->].
    reflexivity.
  - fold (overlaps a b r). fold (same_extent a b r).
    unfold found_at in Hr. destruct (overlaps a b r); cbn [andb negb] in Hr |- *.
    + rewrite Hr. exact IH.
    + rewrite IH. reflexivity.
Qed.

(** Every registry is of one of the two kinds. *)
Lemma first_found (a b : Z) (l : RegionInfoList) :
  Forall (fun r => found_at a b r = false) l \/
  exists l1 it l2,
    l = l1 ++ it :: l2 /\
    Forall (fun r => found_at a b r = false) l1 /\
    found_at a b it = true.
Proof.
  induction l as [|r l IH]; [left; constructor|].
  destruct (found_at a b r) eqn:Hr.
  - right. exists [], r, l. repeat split; [constructor|exact Hr].
  - destruct IH as [IH|(l1 & it & l2 & -> & Hl1 & Hit)].
    + left. constructor; assumption.
    + right. exists (r :: l1), it, l2.
      repeat split; [constructor; assumption|exact Hit].
Qed.

(** A request that copies nothing goes no further than region resolution. *)
Lemma updateRegion_resolution (fmt : TraceFormat) (crc32 : Z -> list Z -> Z)
    (os : OS) (w : Writer) (regs : RegionInfoList) (ptr size : Z) :
  ptr = 0 \/ size = 0 ->
  updateRegion fmt crc32 os (w, regs) ptr size =
    (if ptr =? 0 then (w, regs)
     else
       match queryVirtualAddress os ptr with
       | None => (w, regs)
       | Some (a, b) =>
           match find_region a b regs with
           | (kept, Some (it, tl)) => (w, kept ++ it :: tl)
           | (kept, None) =>
               (emit_malloc fmt os w (wrap64 (b - a)) a,
                kept ++ [{| rg_size := wrap64 (b - a); rg_start := a;
                            ranges := [] |}])
           end
       end) /\
  Forall (fun r => In r regs \/ ranges r = [])
         (snd (updateRegion fmt crc32 os (w, regs) ptr size)).
Proof.
  intros Hcase.
  assert (Hregs : Forall (fun r => In r regs) regs)
    by (apply List.Forall_forall; auto).
  unfold updateRegion, lookupRegionInfo. cbn [fst snd].
  destruct (Z.eqb_spec ptr 0) as [Hp|Hp].
  { split; [reflexivity|]. cbn [snd].
    eapply Forall_impl; [exact Hregs|]. cbn. auto. }
  destruct Hcase as [Hc|Hc]; [contradiction|]. subst size.
  destruct (queryVirtualAddress os ptr) as [[a b]|].
  2: { split; [reflexivity|]. cbn [snd].
       eapply Forall_impl; [exact Hregs|]. cbn. auto. }
  destruct (find_region a b regs) as [kept [[it tl]|]] eqn:E;
    destruct (find_region_Forall _ a b regs Hregs _ _ E) as [Hk Hf];
    cbn [Z.eqb registry_of snd]; (split; [reflexivity|]).
  - destruct Hf as [Hit Htl].
    apply Forall_app. split.
    + eapply Forall_impl; [exact Hk|]. cbn. auto.
    + constructor; [left; exact Hit|].
      eapply Forall_impl; [exact Htl|]. cbn. auto.
  - apply Forall_app. split.
    + eapply Forall_impl; [exact Hk|]. cbn. auto.
    + constructor; [right; reflexivity|constructor].
Qed.

(** C5, as the code has it: a call with a null pointer is a no-op.  A call
    with size zero and a pointer that is not null writes no copy event and
    adds, changes or removes no sub-range record, but goes through region
    resolution first.  It is a no-op when the operating system reports no
    extent.  When it reports the extent [[a, b)], the registry is searched
    for the first region that intersects the extent and has exactly its
    bounds.  If there is one, nothing is written, and the registry loses
    exactly the regions in front of that one that intersect the extent; the
    order of the others, that region and the ones behind it included, is
    kept.  If there is none, the registry loses exactly the regions that
    intersect the extent, the pseudo-call of [malloc] with size [b - a] and
    result [a] is written (on an open stream, its bytes and nothing else
    are appended), and a region with that extent and no records is
    appended.  Every registry is of one of the two kinds, and every region
    of the registry after the call is a region of the registry before it,
    records included, or has no records. *)
Theorem updateRegion_null_or_empty (fmt : TraceFormat) (crc32 : Z -> list Z -> Z)
    (os : OS) (w : Writer) (regs : RegionInfoList) (ptr size : Z)
    (Hcase : ptr = 0 \/ size = 0) :
  (ptr = 0 -> updateRegion fmt crc32 os (w, regs) ptr size = (w, regs)) /\
  (ptr <> 0 -> queryVirtualAddress os ptr = None ->
   updateRegion fmt crc32 os (w, regs) ptr size = (w, regs)) /\
  (forall a b l1 it l2,
     ptr <> 0 -> queryVirtualAddress os ptr = Some (a, b) ->
     regs = l1 ++ it :: l2 ->
     Forall (fun r => found_at a b r = false) l1 ->
     found_at a b it = true ->
     updateRegion fmt crc32 os (w, regs) ptr size =
       (w, List.filter (fun r => negb (overlaps a b r)) l1 ++ it :: l2)) /\
  (forall a b,
     ptr <> 0 -> queryVirtualAddress os ptr = Some (a, b) ->
     Forall (fun r => found_at a b r = false) regs ->
     updateRegion fmt crc32 os (w, regs) ptr size =
       (emit_malloc fmt os w (wrap64 (b - a)) a,
        List.filter (fun r => negb (overlaps a b r)) regs
          ++ [{| rg_size := wrap64 (b - a); rg_start := a; ranges := [] |}])) /\
  (forall a b s,
     g_gzFile w = Some s ->
     g_gzFile (emit_malloc fmt os w (wrap64 (b - a)) a) =
       Some (s ++ malloc_event fmt (described (functions w) (fn_id malloc_sig))
                               (call_no w) (wrap64 (b - a)) a)) /\
  (forall a b,
     Forall (fun r => found_at a b r = false) regs \/
     exists l1 it l2,
       regs = l1 ++ it :: l2 /\
       Forall (fun r => found_at a b r = false) l1 /\
       found_at a b it = true) /\
  Forall (fun r => In r regs \/ ranges r = [])
         (snd (updateRegion fmt crc32 os (w, regs) ptr size)).
Proof.
  destruct (updateRegion_resolution fmt crc32 os w regs ptr size Hcase)
    as [Heq Hall].
  repeat apply conj.
  - intros Hp. rewrite Heq.
    replace (ptr =? 0) with true by (symmetry; apply Z.eqb_eq; exact Hp).
    reflexivity.
  - intros Hp Hq. rewrite Heq, Hq.
    destruct (ptr =? 0); reflexivity.
  - intros a b l1 it l2 Hp Hq Hregs Hl1 Hit. rewrite Heq, Hq.
    replace (ptr =? 0) with false by (symmetry; apply Z.eqb_neq; exact Hp).
    rewrite Hregs, (find_region_first a b l1 l2 it Hl1 Hit). reflexivity.
  - intros a b Hp Hq Hnone. rewrite Heq, Hq.
    replace (ptr =? 0) with false by (symmetry; apply Z.eqb_neq; exact Hp).
    rewrite (find_region_none a b regs Hnone). reflexivity.
  - intros a b s Hs.
    rewrite emit_malloc_enc, (ensure_open_open fmt os w s Hs).
    cbn [set_call_no set_functions g_gzFile].
    rewrite (_write_open w s) by exact Hs. reflexivity.
  - intros a b. apply first_found.
  - exact Hall.
Qed.

(** On the machine whose mapping at 4096 grew to 16384, a request of size
    zero loses the recorded region of the old extent and registers the new
    one; on the machine whose mapping did not grow, a second region of the
    same extent behind the first is neither looked at nor lost. *)
Lemma updateRegion_null_or_empty_witness :
  (9000 = 0 \/ 0 = 0) /\
  updateRegion sample_format zlib_crc32 grown_os
    (sample_writer, [recorded_region]) 9000 0 =
    (emit_malloc sample_format grown_os sample_writer 12288 4096,
     [{| rg_size := 12288; rg_start := 4096; ranges := [] |}]) /\
  updateRegion sample_format zlib_crc32 sample_os
    (sample_writer, [recorded_region; sample_region]) 4096 0 =
    (sample_writer, [recorded_region; sample_region]).
Proof.
  split; [right; reflexivity|]. split.
  - destruct (updateRegion_null_or_empty sample_format zlib_crc32 grown_os
                sample_writer [recorded_region] 9000 0 (or_intror eq_refl))
      as (_ & _ & _ & H & _).
    apply (H 4096 16384).
    + discriminate.
    + reflexivity.
    + repeat constructor.
  - destruct (updateRegion_null_or_empty sample_format zlib_crc32 sample_os
                sample_writer [recorded_region; sample_region] 4096 0
                (or_intror eq_refl))
      as (_ & _ & H & _).
    apply (H 4096 8192 [] recorded_region [sample_region]).
    + discriminate.
    + reflexivity.
    + reflexivity.
    + constructor.
    + reflexivity.
Defined.

(** C5 as stated fails: on an empty registry, a request of size zero at an
    address backed by memory writes the pseudo-call of [malloc] to the
    stream and registers a region. *)
Lemma zero_size_request_resolves_region :
  (4096 = 0 \/ 0 = 0) /\
  stream (fst (updateRegion sample_format zlib_crc32 sample_os
                 (sample_writer, []) 4096 0))
    = stream sample_writer
      ++ malloc_event sample_format false 0 4096 4096 /\
  malloc_event sample_format false 0 4096 4096 <> [] /\
  snd (updateRegion sample_format zlib_crc32 sample_os (sample_writer, []) 4096 0)
    = [{| rg_size := 4096; rg_start := 4096; ranges := [] |}] /\
  updateRegion sample_format zlib_crc32 sample_os (sample_writer, []) 4096 0
    <> (sample_writer, []).
Proof.
  split; [right; reflexivity|].
  split; [vm_compute; reflexivity|].
  split; [vm_compute; discriminate|].
  split; [vm_compute; reflexivity|].
  vm_compute. discriminate.
Qed.

(** The region that [lookupRegionInfo] returns has the extent reported by
    the operating system, and the regions before it do not meet that
    extent. *)
Lemma lookupRegionInfo_extent (fmt : TraceFormat) (os : OS) (w w1 : Writer)
    (regs before after : RegionInfoList) (region : RegionInfo) (ptr a b : Z) :
  queryVirtualAddress os ptr = Some (a, b) ->
  0 <= a < b -> b < 2 ^ 64 ->
  lookupRegionInfo fmt os w regs ptr = Some (w1, (before, region, after)) ->
  rg_start region = a /\
  wrap64 (rg_start region + rg_size region) = b /\
  Forall (fun r => overlaps a b r = false) before.
Proof.
  intros Hq Hab Hb H. unfold lookupRegionInfo in H. rewrite Hq in H.
  destruct (find_region a b regs) as [kept [[it tl]|]] eqn:E;
    inversion H; subst; clear H;
    pose proof (find_region_kept a b regs _ _ E) as Hkept.
  - destruct (find_region_found a b regs _ _ _ E) as (H1 & H2 & _).
    repeat split; assumption.
  - cbn [rg_start rg_size]. repeat split; [|exact Hkept].
    rewrite (wrap64_small (b - a)) by lia.
    replace (a + (b - a)) with b by lia. apply wrap64_small. lia.
Qed.

(** A region with the reported extent is found again, whatever its
    records. *)
Lemma lookupRegionInfo_again (fmt : TraceFormat) (os : OS) (w : Writer)
    (before after : RegionInfoList) (region : RegionInfo) (ptr a b : Z) :
  queryVirtualAddress os ptr = Some (a, b) ->
  a < b ->
  rg_start region = a ->
  wrap64 (rg_start region + rg_size region) = b ->
  Forall (fun r => overlaps a b r = false) before ->
  lookupRegionInfo fmt os w (before ++ region :: after) ptr =
  Some (w, (before, region, after)).
Proof.
  intros Hq Hab Hs He Hbefore. unfold lookupRegionInfo. rewrite Hq.
  rewrite find_region_skip by exact Hbefore.
  cbn [find_region]. rewrite Hs. rewrite Hs in He. rewrite He.
  replace (a <? b) with true by (symmetry; apply Z.ltb_lt; exact Hab).
  rewrite !Z.eqb_refl. cbn [andb fst snd]. rewrite app_nil_r. reflexivity.
Qed.

(** ** Region diff *)

(** On an open stream, the pseudo-call [memcpy] appends one copy event. *)
Lemma emit_memcpy_stream (fmt : TraceFormat) (os : OS) (w : Writer)
    (s : list Z) (p length : Z) :
  g_gzFile w = Some s ->
  g_gzFile (emit_memcpy fmt os w p length) =
  Some (s ++ memcpy_event fmt os (described (functions w) (fn_id memcpy_sig))
                          (call_no w) p length).
Proof.
  intros Hs. rewrite emit_memcpy_enc, (ensure_open_open fmt os w s Hs).
  rewrite (_write_open w s) by exact Hs. reflexivity.
Qed.

(** C4: when the region resolved for [ptr] starts at [ptr] and has no
    sub-range record, [updateRegion] over its bytes [[0, 100)] finds the
    range-set [[0, 100)] to copy, writes exactly one copy event, for the
    100 bytes at [ptr], and records [[0, 100)] with its checksum; the same
    request made again while the extent and the 100 bytes are unchanged
    writes nothing and changes nothing. *)
Theorem region_diff_minimality (fmt : TraceFormat) (crc32 : Z -> list Z -> Z)
    (os os' : OS) (w w1 : Writer) (regs before after : RegionInfoList)
    (region : RegionInfo) (ptr b : Z)
    (Hptr : 0 < ptr) (Hb : ptr < b < 2 ^ 64)
    (Hq : queryVirtualAddress os ptr = Some (ptr, b))
    (Hres : lookupRegionInfo fmt os w regs ptr = Some (w1, (before, region, after)))
    (Hnone : ranges region = [])
    (Hq' : queryVirtualAddress os' ptr = Some (ptr, b))
    (Hmem : read_bytes os' ptr 100 = read_bytes os ptr 100) :
  let update := {| start := 0; stop := 100 |} in
  let record := {| ri_range := update; crc := checksum crc32 os ptr 100 |} in
  let st1 := updateRegion fmt crc32 os (w, regs) ptr 100 in
  update_range region ptr 100 = update /\
  check_ranges crc32 os region update (ranges region) (range_set_of update)
    = ([], [update]) /\
  st1 = (emit_memcpy fmt os w1 ptr 100,
         before ++ set_ranges region [record] :: after) /\
  (forall s1, g_gzFile w1 = Some s1 ->
     g_gzFile (fst st1) =
     Some (s1 ++ memcpy_event fmt os
                   (described (functions w1) (fn_id memcpy_sig))
                   (call_no w1) ptr 100)) /\
  check_ranges crc32 os' (set_ranges region [record]) update [record]
               (range_set_of update)
    = ([record], []) /\
  updateRegion fmt crc32 os' st1 ptr 100 = st1.
Proof.
  intros update record st1.
  destruct (lookupRegionInfo_extent fmt os w w1 regs before after region ptr ptr b
              Hq ltac:(lia) ltac:(lia) Hres) as (Hstart & Hstop & Hbefore).
  assert (Hupd : update_range region ptr 100 = update).
  { unfold update_range. rewrite Hstart, Z.sub_diag. reflexivity. }
  assert (Hp : wrap64 (rg_start region + 0) = ptr).
  { rewrite Hstart, Z.add_0_r. apply wrap64_small. lia. }
  assert (Hst1 : st1 = (emit_memcpy fmt os w1 ptr 100,
                        before ++ set_ranges region [record] :: after)).
  { unfold st1, updateRegion. cbn [fst snd].
    replace (ptr =? 0) with false by (symmetry; apply Z.eqb_neq; lia).
    rewrite Hres, Hupd, Hnone. cbn [Z.eqb check_ranges range_set_of fold_left].
    unfold copy_range. cbn [start stop update]. rewrite Hp. reflexivity. }
  assert (Hchk : check_ranges crc32 os' (set_ranges region [record]) update
                              [record] (range_set_of update) = ([record], [])).
  { cbn [check_ranges ri_range record]. cbn [set_ranges rg_start update start stop].
    rewrite Hp. change (wrap64 (100 - 0)) with 100.
    change (intersects update update) with true.
    change (crc record) with (checksum crc32 os ptr 100).
    replace (checksum crc32 os' ptr 100) with (checksum crc32 os ptr 100)
      by (unfold checksum; change (wrap32 100) with 100; rewrite Hmem; reflexivity).
    rewrite Z.eqb_refl. reflexivity. }
  split; [exact Hupd|]. split; [rewrite Hnone; reflexivity|].
  split; [exact Hst1|].
  split; [intros s1 Hs1; rewrite Hst1; apply emit_memcpy_stream, Hs1|].
  split; [exact Hchk|].
  rewrite Hst1. unfold updateRegion. cbn [fst snd].
  replace (ptr =? 0) with false by (symmetry; apply Z.eqb_neq; lia).
  rewrite (lookupRegionInfo_again fmt os' _ before after
             (set_ranges region [record]) ptr ptr b Hq' ltac:(lia) Hstart Hstop Hbefore).
  change (update_range (set_ranges region [record]) ptr 100)
    with (update_range region ptr 100).
  rewrite Hupd. cbn [Z.eqb ranges set_ranges].
  change (check_ranges crc32 os' {| rg_size := rg_size region;
            rg_start := rg_start region; ranges := [record] |})
    with (check_ranges crc32 os' (set_ranges region [record])).
  rewrite Hchk. reflexivity.
Qed.

Lemma region_diff_minimality_witness :
  let update := {| start := 0; stop := 100 |} in
  let record :=
    {| ri_range := update; crc := checksum zlib_crc32 sample_os 4096 100 |} in
  let st1 :=
    updateRegion sample_format zlib_crc32 sample_os (sample_writer, []) 4096 100 in
  update_range sample_region 4096 100 = update /\
  check_ranges zlib_crc32 sample_os sample_region update (ranges sample_region)
               (range_set_of update)
    = ([], [update]) /\
  st1 = (emit_memcpy sample_format sample_os
           (emit_malloc sample_format sample_os sample_writer 4096 4096) 4096 100,
         [] ++ set_ranges sample_region [record] :: []) /\
  (forall s1,
     g_gzFile (emit_malloc sample_format sample_os sample_writer 4096 4096)
       = Some s1 ->
     g_gzFile (fst st1) =
     Some (s1 ++ memcpy_event sample_format sample_os
                   (described
                      (functions (emit_malloc sample_format sample_os
                                    sample_writer 4096 4096))
                      (fn_id memcpy_sig))
                   (call_no (emit_malloc sample_format sample_os
                               sample_writer 4096 4096)) 4096 100)) /\
  check_ranges zlib_crc32 sample_os (set_ranges sample_region [record]) update
               [record] (range_set_of update)
    = ([record], []) /\
  updateRegion sample_format zlib_crc32 sample_os st1 4096 100 = st1.
Proof.
  apply (region_diff_minimality sample_format zlib_crc32 sample_os sample_os
           sample_writer
           (emit_malloc sample_format sample_os sample_writer 4096 4096)
           [] [] [] sample_region 4096 8192).
  - lia.
  - lia.
  - reflexivity.
  - reflexivity.
  - reflexivity.
  - reflexivity.
  - reflexivity.
Defined.

(** C1, as the code has it: when the region registered for [ptr] starts at
    [ptr] and its only sub-range record is [[0, 100)], and the checksum of
    the 100 bytes now differs from the recorded one, [updateRegion] over
    [[0, 100)] drops the record, finds the whole range [[0, 100)] to copy,
    writes exactly one copy event, for the 100 bytes at [ptr], and records
    [[0, 100)] with the new checksum: the bytes of the record that did not
    change are copied again with those that did. *)
Theorem changed_record_recopied (fmt : TraceFormat) (crc32 : Z -> list Z -> Z)
    (os : OS) (w : Writer) (regs before after : RegionInfoList)
    (region : RegionInfo) (ptr b C : Z)
    (Hptr : 0 < ptr) (Hb : ptr < b < 2 ^ 64)
    (Hq : queryVirtualAddress os ptr = Some (ptr, b))
    (Hfind : find_region ptr b regs = (before, Some (region, after)))
    (Hrec : ranges region =
            [{| ri_range := {| start := 0; stop := 100 |}; crc := C |}])
    (Hchanged : checksum crc32 os ptr 100 <> C) :
  let update := {| start := 0; stop := 100 |} in
  update_range region ptr 100 = update /\
  check_ranges crc32 os region update (ranges region) (range_set_of update)
    = ([], [update]) /\
  updateRegion fmt crc32 os (w, regs) ptr 100 =
    (emit_memcpy fmt os w ptr 100,
     before ++ set_ranges region
                 [{| ri_range := update; crc := checksum crc32 os ptr 100 |}]
            :: after) /\
  (forall s, g_gzFile w = Some s ->
     g_gzFile (fst (updateRegion fmt crc32 os (w, regs) ptr 100)) =
     Some (s ++ memcpy_event fmt os
                  (described (functions w) (fn_id memcpy_sig))
                  (call_no w) ptr 100)).
Proof.
  intros update.
  destruct (find_region_found ptr b regs _ _ _ Hfind) as (Hstart & _ & _).
  assert (Hupd : update_range region ptr 100 = update).
  { unfold update_range. rewrite Hstart, Z.sub_diag. reflexivity. }
  assert (Hp : wrap64 (rg_start region + 0) = ptr).
  { rewrite Hstart, Z.add_0_r. apply wrap64_small. lia. }
  assert (Hchk : check_ranges crc32 os region update (ranges region)
                              (range_set_of update) = ([], [update])).
  { rewrite Hrec. cbn [check_ranges ri_range crc start stop update].
    change (intersects update update) with true. cbv iota.
    rewrite Hp. change (wrap64 (100 - 0)) with 100.
    destruct (Z.eqb_spec C (checksum crc32 os ptr 100)) as [Heq|_];
      [exfalso; apply Hchanged; symmetry; exact Heq|reflexivity]. }
  assert (Hres : updateRegion fmt crc32 os (w, regs) ptr 100 =
    (emit_memcpy fmt os w ptr 100,
     before ++ set_ranges region
                 [{| ri_range := update; crc := checksum crc32 os ptr 100 |}]
            :: after)).
  { unfold updateRegion, lookupRegionInfo. cbn [fst snd].
    replace (ptr =? 0) with false by (symmetry; apply Z.eqb_neq; lia).
    rewrite Hq, Hfind, Hupd, Hchk. cbn [Z.eqb fold_left].
    unfold copy_range. cbn [start stop update]. rewrite Hp. reflexivity. }
  split; [exact Hupd|]. split; [exact Hchk|]. split; [exact Hres|].
  intros s Hs. rewrite Hres. apply emit_memcpy_stream, Hs.
Qed.

Lemma changed_record_recopied_witness :
  let update := {| start := 0; stop := 100 |} in
  update_range recorded_region 4096 100 = update /\
  check_ranges zlib_crc32 mutated_os recorded_region update
               (ranges recorded_region) (range_set_of update)
    = ([], [update]) /\
  updateRegion sample_format zlib_crc32 mutated_os
               (sample_writer, [recorded_region]) 4096 100 =
    (emit_memcpy sample_format mutated_os sample_writer 4096 100,
     [] ++ set_ranges recorded_region
             [{| ri_range := update;
                 crc := checksum zlib_crc32 mutated_os 4096 100 |}]
        :: []) /\
  (forall s, g_gzFile sample_writer = Some s ->
     g_gzFile (fst (updateRegion sample_format zlib_crc32 mutated_os
                      (sample_writer, [recorded_region]) 4096 100)) =
     Some (s ++ memcpy_event sample_format mutated_os
                  (described (functions sample_writer) (fn_id memcpy_sig))
                  (call_no sample_writer) 4096 100)).
Proof.
  apply (changed_record_recopied sample_format zlib_crc32 mutated_os
           sample_writer [recorded_region] [] [] recorded_region 4096 8192
           (checksum zlib_crc32 sample_os 4096 100)).
  - lia.
  - lia.
  - reflexivity.
  - reflexivity.
  - reflexivity.
  - vm_compute. discriminate.
Defined.

(** C1 as stated fails: the region holds the single record [[0, 100)] with
    the checksum of its bytes, only the bytes of [[40, 60)] are then
    changed, and [updateRegion] over [[0, 100)] writes one copy event that
    carries all of the 100 bytes at the start of the region, not the 20
    bytes of [[40, 60)]. *)
Lemma partial_change_recopies_whole_record :
  let st := (sample_writer, [recorded_region]) in
  let st' := updateRegion sample_format zlib_crc32 mutated_os st 4096 100 in
  ranges recorded_region =
    [{| ri_range := {| start := 0; stop := 100 |};
        crc := checksum zlib_crc32 sample_os 4096 100 |}] /\
  (forall a, mem mutated_os a <> mem sample_os a -> 4096 + 40 <= a < 4096 + 60) /\
  snd (check_ranges zlib_crc32 mutated_os recorded_region
         {| start := 0; stop := 100 |} (ranges recorded_region)
         (range_set_of {| start := 0; stop := 100 |}))
    = [{| start := 0; stop := 100 |}] /\
  stream (fst st') =
    stream sample_writer ++ memcpy_event sample_format mutated_os false 0 4096 100 /\
  stream (fst st') <>
    stream sample_writer
    ++ memcpy_event sample_format mutated_os false 0 (4096 + 40) 20.
Proof.
  split; [reflexivity|].
  split.
  { intros a. cbn [mem mutated_os sample_os].
    destruct (Z.leb_spec (4096 + 40) a), (Z.ltb_spec a (4096 + 60));
      cbn [andb]; intros Hm; try lia; exfalso; apply Hm; reflexivity. }
  split; [vm_compute; reflexivity|].
  split; [vm_compute; reflexivity|].
  vm_compute. discriminate.
Qed.

(** ** The records of a region never overlap *)

Lemma disjoint_sym (a b : range) : disjoint a b -> disjoint b a.
Proof. unfold disjoint. lia. Qed.

Lemma disjoint_within (x y a b : range) :
  disjoint x y -> within a x -> within b y ->
  start a <= stop a -> start b <= stop b -> disjoint a b.
Proof. unfold disjoint, within. lia. Qed.

(** The pieces left of a span once a range is taken away are not empty,
    lie inside the span and do not meet the range. *)
Lemma sub_range_pieces (r x y : range) :
  In y (sub_range r x) ->
  start y < stop y /\ within y x /\ disjoint y r.
Proof.
  unfold sub_range, within, disjoint. intros H.
  apply in_app_or in H.
  destruct (Z.ltb_spec (start x) (Z.min (stop x) (start r)));
    destruct (Z.ltb_spec (Z.max (start x) (stop r)) (stop x));
    destruct H as [H|H]; cbn [In] in H;
    try contradiction; destruct H as [<-|[]]; cbn [start stop]; lia.
Qed.

Lemma sub_range_pairwise (r x : range) :
  start r <= stop r -> pairwise_disjoint (sub_range r x).
Proof.
  intros Hr. unfold sub_range.
  destruct (Z.ltb_spec (start x) (Z.min (stop x) (start r)));
    destruct (Z.ltb_spec (Z.max (start x) (stop r)) (stop x));
    cbn [app pairwise_disjoint]; repeat split; repeat constructor.
  unfold disjoint. cbn [start stop]. lia.
Qed.

Lemma pairwise_disjoint_app (A B : list range) :
  pairwise_disjoint A -> pairwise_disjoint B ->
  Forall (fun a => Forall (disjoint a) B) A ->
  pairwise_disjoint (A ++ B).
Proof.
  induction A as [|a A IH]; intros HA HB Hcross; cbn [app pairwise_disjoint].
  - exact HB.
  - destruct HA as [Ha HA]. inversion Hcross as [|? ? HaB HAB]; subst.
    split.
    + apply Forall_app. split; assumption.
    + apply IH; assumption.
Qed.

(** A set of spans to copy, for the update range [u]: spans that are not
    empty, lie inside [u] and do not overlap. *)
Lemma sub_copy_ok (u r : range) (c : range_set) :
  start r <= stop r -> copy_ok u c -> copy_ok u (sub c r).
Proof.
  intros Hr [Hin Hpw]. unfold sub. split.
  - apply List.Forall_forall. intros y Hy.
    apply in_flat_map in Hy. destruct Hy as (x & Hx & Hy).
    destruct (sub_range_pieces r x y Hy) as (Hne & Hw & _).
    pose proof (proj1 (List.Forall_forall _ _) Hin x Hx) as [_ Hxu].
    unfold within in *. split; lia.
  - induction c as [|x c IH]; cbn [flat_map]; [exact I|].
    destruct Hpw as [Hx Hpw]. inversion Hin as [|? ? Hxin Hcin]; subst.
    apply pairwise_disjoint_app.
    + apply sub_range_pairwise, Hr.
    + apply IH; assumption.
    + apply List.Forall_forall. intros a Ha.
      destruct (sub_range_pieces r x a Ha) as (Hane & Hax & _).
      apply List.Forall_forall. intros b Hb.
      apply in_flat_map in Hb. destruct Hb as (x' & Hx' & Hb).
      destruct (sub_range_pieces r x' b Hb) as (Hbne & Hbx & _).
      pose proof (proj1 (List.Forall_forall _ _) Hx x' Hx') as Hd.
      apply (disjoint_within x x'); try assumption; lia.
Qed.

(** A property of spans that passes to the spans inside them passes from a
    set to what is left of it. *)
Lemma sub_inherits (Q : range -> Prop) (r : range) (c : range_set) :
  (forall x y, within y x -> start y <= stop y -> Q x -> Q y) ->
  Forall Q c -> Forall Q (sub c r).
Proof.
  intros Hdown Hc. unfold sub. apply List.Forall_forall. intros y Hy.
  apply in_flat_map in Hy. destruct Hy as (x & Hx & Hy).
  destruct (sub_range_pieces r x y Hy) as (Hne & Hw & _).
  apply (Hdown x y Hw); [lia|].
  exact (proj1 (List.Forall_forall _ _) Hc x Hx).
Qed.

Lemma sub_avoids (r : range) (c : range_set) :
  Forall (fun y => disjoint y r) (sub c r).
Proof.
  unfold sub. apply List.Forall_forall. intros y Hy.
  apply in_flat_map in Hy. destruct Hy as (x & Hx & Hy).
  apply (sub_range_pieces r x y Hy).
Qed.

Lemma avoid_inherited (r x y : range) :
  within y x -> start y <= stop y -> disjoint x r -> disjoint y r.
Proof. unfold within, disjoint. lia. Qed.

(** A record that does not intersect the update range meets none of the
    spans to copy. *)
Lemma outside_update (u r : range) (c : range_set) :
  intersects r u = false -> copy_ok u c -> Forall (fun x => disjoint x r) c.
Proof.
  intros Hi [Hin _]. eapply Forall_impl; [exact Hin|].
  intros x [Hne Hw]. unfold intersects in Hi. unfold within in Hw. unfold disjoint.
  destruct (Z.ltb_spec (start r) (stop u)), (Z.ltb_spec (start u) (stop r));
    cbn [andb] in Hi; try discriminate; lia.
Qed.

(** The first loop of [updateRegion]: the spans left to copy are inside the
    update range and apart from each other and from every record kept; the
    records kept are records of the list, in the order of the list. *)
Lemma check_ranges_ok (crc32 : Z -> list Z -> Z) (os : OS) (region : RegionInfo)
    (u : range) (l : RangeInfoList) :
  Forall (fun r => start (ri_range r) < stop (ri_range r)) l ->
  forall copy kept copy',
    copy_ok u copy ->
    check_ranges crc32 os region u l copy = (kept, copy') ->
    copy_ok u copy' /\
    (forall P : RangeInfo -> Prop, Forall P l -> Forall P kept) /\
    (pairwise_disjoint (map ri_range l) -> pairwise_disjoint (map ri_range kept)) /\
    (forall Q : range -> Prop,
       (forall x y, within y x -> start y <= stop y -> Q x -> Q y) ->
       Forall Q copy -> Forall Q copy') /\
    Forall (fun r => Forall (fun x => disjoint x (ri_range r)) copy') kept.
Proof.
  induction 1 as [|it l Hit Hl IH]; intros copy kept copy' Hc H;
    cbn [check_ranges] in H.
  - inversion H; subst.
    split; [exact Hc|]. split; [auto|]. split; [auto|]. split; [auto|constructor].
  - destruct (intersects (ri_range it) u) eqn:Hi;
      [destruct (crc it =? checksum crc32 os
                   (wrap64 (rg_start region + start (ri_range it)))
                   (wrap64 (stop (ri_range it) - start (ri_range it))))|].
    + destruct (check_ranges crc32 os region u l (sub copy (ri_range it)))
        as [k c] eqn:E. inversion H; subst; clear H.
      destruct (IH _ _ _ (sub_copy_ok u (ri_range it) copy ltac:(lia) Hc) E)
        as (Hc' & HP & Hpw & HQ & Hx).
      split; [exact Hc'|]. split; [|split; [|split]].
      * intros P HPl. inversion HPl; subst. constructor; auto.
      * cbn [map pairwise_disjoint]. intros [Hd Hrest]. split; [|auto].
        apply List.Forall_map. apply HP. apply List.Forall_map. exact Hd.
      * intros Q Hdown HQc. apply HQ; [exact Hdown|].
        apply sub_inherits; assumption.
      * constructor; [|exact Hx].
        apply (HQ (fun x => disjoint x (ri_range it))).
        -- intros x y. apply avoid_inherited.
        -- apply sub_avoids.
    + destruct (IH _ _ _ Hc H) as (Hc' & HP & Hpw & HQ & Hx).
      split; [exact Hc'|]. split; [|split; [|split]]; auto.
      * intros P HPl. inversion HPl; subst. auto.
      * cbn [map pairwise_disjoint]. intros [_ Hrest]. auto.
    + destruct (check_ranges crc32 os region u l copy) as [k c] eqn:E.
      inversion H; subst; clear H.
      destruct (IH _ _ _ Hc E) as (Hc' & HP & Hpw & HQ & Hx).
      split; [exact Hc'|]. split; [|split; [|split]]; auto.
      * intros P HPl. inversion HPl; subst. constructor; auto.
      * cbn [map pairwise_disjoint]. intros [Hd Hrest]. split; [|auto].
        apply List.Forall_map. apply HP. apply List.Forall_map. exact Hd.
      * constructor; [|exact Hx].
        apply (HQ (fun x => disjoint x (ri_range it))).
        -- intros x y. apply avoid_inherited.
        -- apply (outside_update u); assumption.
Qed.

(** The second loop of [updateRegion] pushes one record per span copied. *)
Lemma fold_copy_range (fmt : TraceFormat) (crc32 : Z -> list Z -> Z) (os : OS)
    (region : RegionInfo) (c : range_set) :
  forall w rs,
    map ri_range (snd (fold_left (copy_range fmt crc32 os region) c (w, rs)))
    = rev c ++ map ri_range rs.
Proof.
  induction c as [|x c IH]; intros w rs; cbn [fold_left].
  - reflexivity.
  - unfold copy_range at 2. rewrite IH. cbn [map rev ri_range].
    rewrite <- app_assoc. reflexivity.
Qed.

Lemma pairwise_disjoint_rev_app (c B : list range) :
  pairwise_disjoint c -> pairwise_disjoint B ->
  Forall (fun b => Forall (fun x => disjoint x b) c) B ->
  pairwise_disjoint (rev c ++ B).
Proof.
  revert B. induction c as [|x c IH]; intros B Hc HB Hcross; cbn [rev app].
  - exact HB.
  - destruct Hc as [Hx Hc]. rewrite <- app_assoc. cbn [app]. apply IH.
    + exact Hc.
    + cbn [pairwise_disjoint]. split; [|exact HB].
      eapply Forall_impl; [exact Hcross|]. intros b Hb.
      inversion Hb; subst. assumption.
    + constructor.
      * eapply Forall_impl; [exact Hx|]. intros y. apply disjoint_sym.
      * eapply Forall_impl; [exact Hcross|]. intros b Hb.
        inversion Hb; subst. assumption.
Qed.

(** The two loops keep the records of a region in order, for an update
    range that is not empty. *)
Lemma update_records_ok (fmt : TraceFormat) (crc32 : Z -> list Z -> Z) (os : OS)
    (region : RegionInfo) (u : range) (w : Writer) :
  start u < stop u ->
  records_ok (ranges region) ->
  records_ok
    (snd (fold_left (copy_range fmt crc32 os region)
            (snd (check_ranges crc32 os region u (ranges region) (range_set_of u)))
            (w, fst (check_ranges crc32 os region u (ranges region)
                       (range_set_of u))))).
Proof.
  intros Hu [Hne Hpw].
  destruct (check_ranges crc32 os region u (ranges region) (range_set_of u))
    as [kept copy] eqn:E. cbn [fst snd].
  assert (Hu_ok : copy_ok u (range_set_of u)).
  { unfold copy_ok, range_set_of, within. cbn [pairwise_disjoint].
    repeat split; repeat constructor; lia. }
  apply List.Forall_map in Hne.
  destruct (check_ranges_ok crc32 os region u (ranges region) Hne _ _ _ Hu_ok E)
    as ((Hcin & Hcpw) & HP & Hkpw & _ & Hcross).
  unfold records_ok. rewrite fold_copy_range. split.
  - apply Forall_app. split.
    + apply Forall_rev. eapply Forall_impl; [exact Hcin|]. cbn. tauto.
    + apply List.Forall_map. apply HP. exact Hne.
  - apply pairwise_disjoint_rev_app; [exact Hcpw|auto|].
    apply List.Forall_map. exact Hcross.
Qed.

(** The registry that [lookupRegionInfo] leaves is made of regions of the
    registry it was given and, when it appends one, of a region without
    records; the region it returns starts where the reported extent
    starts. *)
Lemma lookupRegionInfo_registry (fmt : TraceFormat) (os : OS) (w w1 : Writer)
    (regs before after : RegionInfoList) (region : RegionInfo) (ptr : Z)
    (P : RegionInfo -> Prop) :
  lookupRegionInfo fmt os w regs ptr = Some (w1, (before, region, after)) ->
  exists a b,
    queryVirtualAddress os ptr = Some (a, b) /\
    rg_start region = a /\
    (Forall P regs ->
     P {| rg_size := wrap64 (b - a); rg_start := a; ranges := [] |} ->
     Forall P before /\ P region /\ Forall P after).
Proof.
  unfold lookupRegionInfo. intros H.
  destruct (queryVirtualAddress os ptr) as [[a b]|]; [|discriminate].
  exists a, b. split; [reflexivity|].
  destruct (find_region a b regs) as [kept [[it tl]|]] eqn:E;
    inversion H; subst; clear H.
  - destruct (find_region_found a b regs _ _ _ E) as (Hs & _).
    split; [exact Hs|]. intros Hregs _.
    destruct (find_region_Forall P a b regs Hregs _ _ E) as [Hk [Hit Htl]].
    auto.
  - split; [reflexivity|]. intros Hregs Hnew.
    destruct (find_region_Forall P a b regs Hregs _ _ E) as [Hk _].
    repeat split; [exact Hk|exact Hnew|constructor].
Qed.

Lemma updateRegion_registry_ok (fmt : TraceFormat) (crc32 : Z -> list Z -> Z)
    (rq : Request) (w : Writer) (regs : RegionInfoList) :
  request_ok rq -> registry_ok regs ->
  registry_ok (snd (updateRegion fmt crc32 (rq_os rq) (w, regs)
                      (rq_ptr rq) (rq_size rq))).
Proof.
  intros (Hptr & Hsize & Hend & Hext) Hregs.
  unfold updateRegion. cbn [fst snd].
  destruct (rq_ptr rq =? 0); [exact Hregs|].
  destruct (lookupRegionInfo fmt (rq_os rq) w regs (rq_ptr rq))
    as [[w1 [[before region] after]]|] eqn:Hres; [|exact Hregs].
  destruct (lookupRegionInfo_registry fmt _ _ _ _ _ _ _ _
              (fun r => records_ok (ranges r)) Hres)
    as (a & b & Hq & Hstart & Hsplit).
  destruct (Hsplit Hregs) as (Hbefore & Hregion & Hafter).
  { cbn [ranges]. split; constructor. }
  destruct (Z.eqb_spec (rq_size rq) 0) as [Hz|Hnz].
  { cbn [snd registry_of]. apply Forall_app. split; [exact Hbefore|].
    constructor; assumption. }
  pose proof (update_records_ok fmt crc32 (rq_os rq) region
                (update_range region (rq_ptr rq) (rq_size rq)) w1) as Hok.
  destruct (check_ranges crc32 (rq_os rq) region
              (update_range region (rq_ptr rq) (rq_size rq)) (ranges region)
              (range_set_of (update_range region (rq_ptr rq) (rq_size rq))))
    as [kept copy].
  cbn [fst snd] in Hok.
  destruct (fold_left (copy_range fmt crc32 (rq_os rq) region) copy (w1, kept))
    as [w2 rs].
  cbn [fst snd registry_of] in *. apply Forall_app. split; [exact Hbefore|].
  constructor; [|exact Hafter]. cbn [ranges set_ranges].
  apply Hok; [|exact Hregion].
  specialize (Hext a b Hq).
  unfold update_range. cbn [start stop]. rewrite Hstart.
  rewrite (wrap64_small (rq_ptr rq - a)) by lia.
  rewrite wrap64_small by lia. lia.
Qed.

Lemma run_registry_ok (fmt : TraceFormat) (crc32 : Z -> list Z -> Z)
    (reqs : list Request) :
  Forall request_ok reqs ->
  forall st, registry_ok (snd st) -> registry_ok (snd (run fmt crc32 st reqs)).
Proof.
  unfold run. induction 1 as [|rq reqs Hrq _ IH]; intros [w regs] Hst;
    cbn [fold_left].
  - exact Hst.
  - apply IH. apply updateRegion_registry_ok; assumption.
Qed.

(** C9: starting from an empty registry, after any sequence of
    [updateRegion] requests (each one for a span of the address space, at
    an address that the extent reported for it covers from below), the
    sub-range records of every region of the registry are spans
    [[start, stop)] that are not empty and pairwise non-overlapping. *)
Theorem records_never_overlap (fmt : TraceFormat) (crc32 : Z -> list Z -> Z)
    (w : Writer) (reqs : list Request) (Hreqs : Forall request_ok reqs) :
  Forall (fun region =>
            Forall (fun r => start r < stop r) (map ri_range (ranges region)) /\
            pairwise_disjoint (map ri_range (ranges region)))
         (snd (run fmt crc32 (w, []) reqs)).
Proof.
  apply (run_registry_ok fmt crc32 reqs Hreqs (w, [])). constructor.
Qed.

Lemma records_never_overlap_witness :
  Forall (fun region =>
            Forall (fun r => start r < stop r) (map ri_range (ranges region)) /\
            pairwise_disjoint (map ri_range (ranges region)))
         (snd (run sample_format zlib_crc32 (sample_writer, [])
                 [ {| rq_os := sample_os; rq_ptr := 4096; rq_size := 100 |};
                   {| rq_os := mutated_os; rq_ptr := 4096 + 50; rq_size := 100 |};
                   {| rq_os := sample_os; rq_ptr := 4096 + 20; rq_size := 0 |};
                   {| rq_os := sample_os; rq_ptr := 4096 + 20; rq_size := 300 |} ])).
Proof.
  apply (records_never_overlap sample_format zlib_crc32 sample_writer).
  repeat (constructor;
          [ unfold request_ok; cbn [rq_os rq_ptr rq_size];
            split; [lia|]; split; [lia|]; split; [lia|];
            intros a b H; vm_compute in H; inversion H; lia | ]).
  constructor.
Defined.

(** * Further properties *)

(** ** Varints *)

Lemma enc_uint_spec (v : Z) :
  exists l g,
    enc_uint v = l ++ [g] /\
    (forall rest, decode_varint (enc_uint v ++ rest) = Some (wrap64 v, rest)) /\
    Z.of_nat (length (enc_uint v)) = Z.max 1 (ceil_div7 (bits_needed (wrap64 v))).
Proof.
  destruct (varint_spec (wrap64 v) (wrap64_range v))
    as (l & g & Henc & _ & _ & Hdec & Hlen).
  exists l, g. unfold enc_uint. rewrite Henc. cbn [from_option id].
  repeat split; [|exact Hlen].
  intros rest. rewrite <- app_assoc. apply Hdec.
Qed.

Lemma decode_enc_uint (v : Z) (rest : list Z) :
  decode_varint (enc_uint v ++ rest) = Some (wrap64 v, rest).
Proof. destruct (enc_uint_spec v) as (l & g & _ & H & _). apply H. Qed.

(** X1: whatever the value, [_writeUInt] passes its assertion and writes
    at least one byte and at most ten, well inside its buffer of 16. *)
Theorem varint_length_bound (w : Writer) (value : Z) :
  exists buf,
    varint (wrap64 value) = Some buf /\
    _writeUInt w value = _write w buf /\
    (1 <= length buf <= 10)%nat /\
    (length buf < sizeof_buf)%nat.
Proof.
  destruct (varint_total value) as [buf Hbuf].
  destruct (enc_uint_spec value) as (_ & _ & _ & _ & Hlen).
  assert (Hb : enc_uint value = buf) by (unfold enc_uint; rewrite Hbuf; reflexivity).
  rewrite Hb in Hlen.
  exists buf. split; [exact Hbuf|]. split; [rewrite _writeUInt_enc, Hb; reflexivity|].
  pose proof (wrap64_range value) as Hr.
  assert (Hbits : 0 <= bits_needed (wrap64 value) <= 64).
  { unfold bits_needed. destruct (Z.eqb_spec (wrap64 value) 0); [lia|].
    pose proof (Z.log2_nonneg (wrap64 value)).
    assert (Z.log2 (wrap64 value) < 64) by (apply Z.log2_lt_pow2; lia). lia. }
  assert (Hceil : ceil_div7 (bits_needed (wrap64 value)) <= 10).
  { unfold ceil_div7. apply Z.div_le_upper_bound; lia. }
  unfold sizeof_buf. lia.
Qed.

(** X2: the varints of two values followed by anything are the same bytes
    only if the values are the same 64-bit value and what follows is the
    same: a reader never confuses where a varint ends. *)
Theorem varint_unambiguous (a b : Z) (r1 r2 : list Z)
    (Hsame : enc_uint a ++ r1 = enc_uint b ++ r2) :
  wrap64 a = wrap64 b /\ r1 = r2.
Proof.
  pose proof (decode_enc_uint a r1) as Ha.
  rewrite Hsame, decode_enc_uint in Ha. inversion Ha. split; reflexivity.
Qed.

Lemma varint_unambiguous_witness :
  wrap64 300 = wrap64 (300 + 2 ^ 64) /\ [7] = [7].
Proof.
  apply (varint_unambiguous 300 (300 + 2 ^ 64) [7] [7]). reflexivity.
Defined.

(** ** Values read back *)

Lemma read_raw_app (bs rest : list Z) :
  read_raw (length bs) (bs ++ rest) = Some (bs, rest).
Proof.
  unfold read_raw. rewrite length_app.
  replace (length bs <=? length bs + length rest)%nat with true
    by (symmetry; apply Nat.leb_le; lia).
  rewrite take_app_length, drop_app_length. reflexivity.
Qed.

Lemma read_counted_enc (bs rest : list Z) :
  Z.of_nat (length bs) < 2 ^ 64 ->
  read_counted (enc_uint (Z.of_nat (length bs)) ++ bs ++ rest) = Some (bs, rest).
Proof.
  intros Hlen. unfold read_counted.
  rewrite decode_enc_uint, wrap64_small by lia.
  rewrite Nat2Z.id. apply read_raw_app.
Qed.

(** With tags that differ from each other, the reader takes the branch of
    the tag it meets. *)
Ltac tags_differ H :=
  unfold value_tags in H;
  repeat (apply List.NoDup_cons_iff in H; destruct H as [? H]);
  cbn [In] in *.

Ltac read_tag :=
  unfold read_value;
  repeat first
    [ rewrite Z.eqb_refl
    | match goal with
      | |- context [?a =? ?b] =>
          destruct (Z.eqb_spec a b) as [?E|?E]; [exfalso; intuition congruence|]
      end ].

Lemma read_value_tag (fmt : TraceFormat) (tl : list Z) :
  List.NoDup (value_tags fmt) ->
  read_value fmt (TYPE_NULL fmt :: tl) = Some (V_NULL, tl) /\
  read_value fmt (TYPE_FALSE fmt :: tl) = Some (V_BOOL false, tl) /\
  read_value fmt (TYPE_TRUE fmt :: tl) = Some (V_BOOL true, tl) /\
  read_value fmt (TYPE_SINT fmt :: tl) =
    match decode_varint tl with
    | Some (v, rest) => Some (V_INT (- v), rest)
    | None => None
    end /\
  read_value fmt (TYPE_UINT fmt :: tl) =
    match decode_varint tl with
    | Some (v, rest) => Some (V_INT v, rest)
    | None => None
    end /\
  read_value fmt (TYPE_FLOAT fmt :: tl) =
    match read_raw 4 tl with
    | Some (repr, rest) => Some (V_FLOAT repr, rest)
    | None => None
    end /\
  read_value fmt (TYPE_DOUBLE fmt :: tl) =
    match read_raw 8 tl with
    | Some (repr, rest) => Some (V_DOUBLE repr, rest)
    | None => None
    end /\
  read_value fmt (TYPE_STRING fmt :: tl) =
    match read_counted tl with
    | Some (bytes, rest) => Some (V_STRING bytes, rest)
    | None => None
    end /\
  read_value fmt (TYPE_BLOB fmt :: tl) =
    match read_counted tl with
    | Some (bytes, rest) => Some (V_BLOB bytes, rest)
    | None => None
    end /\
  read_value fmt (TYPE_OPAQUE fmt :: tl) =
    match decode_varint tl with
    | Some (v, rest) => Some (V_OPAQUE v, rest)
    | None => None
    end.
Proof.
  intros Htags. tags_differ Htags.
  repeat split; read_tag; reflexivity.
Qed.

Lemma reads_back_write (fmt : TraceFormat) (w : Writer) (s bs : list Z) (v : Value) :
  g_gzFile w = Some s ->
  (forall rest, read_value fmt (bs ++ rest) = Some (v, rest)) ->
  reads_back fmt s (_write w bs) v.
Proof.
  intros Hs Hread. exists bs. split; [|exact Hread].
  rewrite (_write_open w s) by exact Hs. reflexivity.
Qed.

(** X3: on an open stream and with value tags that differ from each
    other, what [writeSInt], [writeUInt], [writeBool], [writeNull] and
    [writeOpaque] append reads back as the value written: a signed integer
    of any sign (the most negative one too), an unsigned integer, the
    boolean, the null value, and for [writeOpaque] the address, or the null
    value when the pointer is null. *)
Theorem scalars_read_back (fmt : TraceFormat) (w : Writer) (s : list Z)
    (Hs : g_gzFile w = Some s) (Htags : List.NoDup (value_tags fmt)) :
  (forall v, - 2 ^ 63 <= v < 2 ^ 63 ->
             reads_back fmt s (writeSInt fmt w v) (V_INT v)) /\
  (forall v, 0 <= v < 2 ^ 64 ->
             reads_back fmt s (writeUInt fmt w v) (V_INT v)) /\
  (forall b, reads_back fmt s (writeBool fmt w b) (V_BOOL b)) /\
  reads_back fmt s (writeNull fmt w) V_NULL /\
  (forall addr, 0 <= addr < 2 ^ 64 ->
                reads_back fmt s (writeOpaque fmt w addr)
                           (if addr =? 0 then V_NULL else V_OPAQUE addr)).
Proof.
  repeat split.
  - intros v Hv. rewrite writeSInt_enc. apply reads_back_write; [exact Hs|].
    intros rest. unfold enc_sint.
    destruct (read_value_tag fmt (enc_uint (signed64 (- v)) ++ rest) Htags)
      as (_ & _ & _ & Hsint & _).
    destruct (read_value_tag fmt (enc_uint v ++ rest) Htags)
      as (_ & _ & _ & _ & Huint & _).
    destruct (Z.ltb_spec v 0); cbn [app].
    + rewrite Hsint, decode_enc_uint, neg_as_unsigned by lia.
      do 3 f_equal. lia.
    + rewrite Huint, decode_enc_uint, wrap64_small by lia. reflexivity.
  - intros v Hv. rewrite writeUInt_enc. apply reads_back_write; [exact Hs|].
    intros rest. cbn [app].
    destruct (read_value_tag fmt (enc_uint v ++ rest) Htags)
      as (_ & _ & _ & _ & Huint & _).
    rewrite Huint, decode_enc_uint, wrap64_small by lia. reflexivity.
  - intros b. unfold writeBool, _writeByte. apply reads_back_write; [exact Hs|].
    intros rest. cbn [app].
    destruct (read_value_tag fmt rest Htags) as (_ & Hf & Ht & _).
    destruct b; assumption.
  - unfold writeNull, _writeByte. apply reads_back_write; [exact Hs|].
    intros rest. cbn [app]. apply (read_value_tag fmt rest Htags).
  - intros addr Haddr. rewrite writeOpaque_enc.
    apply reads_back_write; [exact Hs|].
    intros rest. unfold enc_opaque. destruct (addr =? 0); cbn [app].
    + apply (read_value_tag fmt rest Htags).
    + destruct (read_value_tag fmt (enc_uint addr ++ rest) Htags)
        as (_ & _ & _ & _ & _ & _ & _ & _ & _ & Hop).
      rewrite Hop, decode_enc_uint, wrap64_small by lia. reflexivity.
Qed.

Lemma sample_tags_differ : List.NoDup (value_tags sample_format).
Proof.
  unfold value_tags. cbn.
  repeat (constructor; [cbn [In]; intuition discriminate|]). constructor.
Qed.

Lemma scalars_read_back_witness :
  (forall v, - 2 ^ 63 <= v < 2 ^ 63 ->
             reads_back sample_format [1] (writeSInt sample_format sample_writer v)
                        (V_INT v)) /\
  (forall v, 0 <= v < 2 ^ 64 ->
             reads_back sample_format [1] (writeUInt sample_format sample_writer v)
                        (V_INT v)) /\
  (forall b, reads_back sample_format [1] (writeBool sample_format sample_writer b)
                        (V_BOOL b)) /\
  reads_back sample_format [1] (writeNull sample_format sample_writer) V_NULL /\
  (forall addr, 0 <= addr < 2 ^ 64 ->
                reads_back sample_format [1]
                           (writeOpaque sample_format sample_writer addr)
                           (if addr =? 0 then V_NULL else V_OPAQUE addr)).
Proof.
  apply (scalars_read_back sample_format sample_writer [1]).
  - reflexivity.
  - exact sample_tags_differ.
Defined.

(** A buffer of fewer than [2^31] bytes is one that [gzwrite] takes whole,
    so that [_write] is [gzwrite] on it. *)
Lemma gzwrite_whole (s sBuffer : list Z) :
  Z.of_nat (length sBuffer) < 2 ^ 31 ->
  gzwrite s sBuffer = s ++ sBuffer.
Proof.
  intros Hlen. unfold gzwrite, wrap32.
  rewrite Z.mod_small by lia.
  replace (Z.of_nat (length sBuffer) <? 2 ^ 31) with true
    by (symmetry; apply Z.ltb_lt; exact Hlen).
  rewrite Nat2Z.id, take_ge by lia. reflexivity.
Qed.

Lemma _write_gzwrite (w : Writer) (s sBuffer : list Z) :
  g_gzFile w = Some s ->
  Z.of_nat (length sBuffer) < 2 ^ 31 ->
  _write w sBuffer = set_gzFile w (Some (gzwrite s sBuffer)).
Proof.
  intros Hs Hlen. rewrite gzwrite_whole by exact Hlen.
  unfold _write. rewrite Hs. reflexivity.
Qed.

Lemma length_read_bytes (os : OS) (data size : Z) :
  0 <= size ->
  Z.of_nat (length (read_bytes os data size)) = size.
Proof.
  intros Hsize. unfold read_bytes. rewrite length_map, length_seq. lia.
Qed.

(** X4: on an open stream and with value tags that differ from each
    other, a string of fewer than [2^31] bytes (the buffers that [gzwrite]
    takes whole) written by either overload of [writeString] reads back as
    the string of its bytes, in full (the explicit-length overload also
    when bytes are zero); a null pointer reads back as the null value, not
    as a string; and [writeWString] on any wide string that is not null
    reads back as the 13 bytes of the placeholder. *)
Theorem strings_read_back (fmt : TraceFormat) (w : Writer) (s : list Z)
    (Hs : g_gzFile w = Some s) (Htags : List.NoDup (value_tags fmt)) :
  (forall str, Z.of_nat (length (bytes_of_string str)) < 2 ^ 31 ->
               reads_back fmt s (writeString fmt w (Some str))
                          (V_STRING (bytes_of_string str))) /\
  reads_back fmt s (writeString fmt w None) V_NULL /\
  (forall bs, Z.of_nat (length bs) < 2 ^ 31 ->
              reads_back fmt s (writeString_len fmt w (Some bs)) (V_STRING bs)) /\
  reads_back fmt s (writeString_len fmt w None) V_NULL /\
  reads_back fmt s (writeWString fmt w true) V_NULL /\
  reads_back fmt s (writeWString fmt w false)
             (V_STRING (bytes_of_string "<wide-string>")) /\
  length (bytes_of_string "<wide-string>") = 13%nat /\
  (forall bs s', Z.of_nat (length bs) < 2 ^ 31 -> gzwrite s' bs = s' ++ bs).
Proof.
  assert (Hnull : reads_back fmt s (writeNull fmt w) V_NULL).
  { unfold writeNull, _writeByte. apply reads_back_write; [exact Hs|].
    intros rest. cbn [app]. apply (read_value_tag fmt rest Htags). }
  assert (Hstr : forall bs, Z.of_nat (length bs) < 2 ^ 31 ->
            reads_back fmt s
              (_write w (TYPE_STRING fmt :: enc_uint (Z.of_nat (length bs)) ++ bs))
              (V_STRING bs)).
  { intros bs Hlen. apply reads_back_write; [exact Hs|].
    intros rest. cbn [app]. rewrite <- app_assoc.
    destruct (read_value_tag fmt (enc_uint (Z.of_nat (length bs)) ++ bs ++ rest)
                Htags) as (_ & _ & _ & _ & _ & _ & _ & Hst & _).
    rewrite Hst, read_counted_enc by lia. reflexivity. }
  repeat split; try exact Hnull.
  - intros str Hlen. unfold writeString. to_writes. apply Hstr, Hlen.
  - intros bs Hlen. unfold writeString_len. to_writes. apply Hstr, Hlen.
  - unfold writeWString. to_writes. apply Hstr. cbn. lia.
  - intros bs s' Hlen. apply gzwrite_whole, Hlen.
Qed.

Lemma strings_read_back_witness :
  (forall str, Z.of_nat (length (bytes_of_string str)) < 2 ^ 31 ->
               reads_back sample_format [1]
                          (writeString sample_format sample_writer (Some str))
                          (V_STRING (bytes_of_string str))) /\
  reads_back sample_format [1] (writeString sample_format sample_writer None)
             V_NULL /\
  (forall bs, Z.of_nat (length bs) < 2 ^ 31 ->
              reads_back sample_format [1]
                         (writeString_len sample_format sample_writer (Some bs))
                         (V_STRING bs)) /\
  reads_back sample_format [1] (writeString_len sample_format sample_writer None)
             V_NULL /\
  reads_back sample_format [1] (writeWString sample_format sample_writer true)
             V_NULL /\
  reads_back sample_format [1] (writeWString sample_format sample_writer false)
             (V_STRING (bytes_of_string "<wide-string>")) /\
  length (bytes_of_string "<wide-string>") = 13%nat /\
  (forall bs s', Z.of_nat (length bs) < 2 ^ 31 -> gzwrite s' bs = s' ++ bs).
Proof.
  apply (strings_read_back sample_format sample_writer [1]).
  - reflexivity.
  - exact sample_tags_differ.
Defined.

(** X5: on an open stream and with value tags that differ from each
    other, [writeBlob] of [size] bytes at an address that is not null reads
    back as exactly the [size] bytes of memory at that address, for a size
    below [2^31] (the payloads that [gzwrite] takes whole), zero included
    (then the tag and the length 0 are written and nothing else); a null
    pointer reads back as the null value whatever the size; [writeFloat]
    and [writeDouble] read back as the 4 and 8 bytes of the representation
    they were given. *)
Theorem blobs_read_back (fmt : TraceFormat) (os : OS) (w : Writer) (s : list Z)
    (Hs : g_gzFile w = Some s) (Htags : List.NoDup (value_tags fmt)) :
  (forall data size, data <> 0 -> 0 <= size < 2 ^ 31 ->
     reads_back fmt s (writeBlob fmt os w data size)
                (V_BLOB (read_bytes os data size))) /\
  (forall data size s', 0 <= size < 2 ^ 31 ->
     gzwrite s' (read_bytes os data size) = s' ++ read_bytes os data size) /\
  (forall data, data <> 0 ->
     g_gzFile (writeBlob fmt os w data 0) = Some (s ++ [TYPE_BLOB fmt; 0])) /\
  (forall size, reads_back fmt s (writeBlob fmt os w 0 size) V_NULL) /\
  (forall repr, (4 <= length repr)%nat ->
     reads_back fmt s (writeFloat fmt w repr) (V_FLOAT (take 4 repr))) /\
  (forall repr, (8 <= length repr)%nat ->
     reads_back fmt s (writeDouble fmt w repr) (V_DOUBLE (take 8 repr))).
Proof.
  repeat split.
  - intros data size Hdata Hsize. rewrite writeBlob_enc.
    apply reads_back_write; [exact Hs|]. intros rest. unfold enc_blob.
    replace (data =? 0) with false by (symmetry; apply Z.eqb_neq; exact Hdata).
    assert (Hlen : Z.of_nat (length (read_bytes os data size)) = size)
      by (apply length_read_bytes; lia).
    assert (Hbytes : (if size =? 0 then [] else read_bytes os data size)
                     = read_bytes os data size).
    { destruct (Z.eqb_spec size 0) as [->|]; reflexivity. }
    rewrite Hbytes. cbn [app]. rewrite <- app_assoc.
    destruct (read_value_tag fmt (enc_uint size ++ read_bytes os data size ++ rest)
                Htags) as (_ & _ & _ & _ & _ & _ & _ & _ & Hbl & _).
    rewrite Hbl. rewrite <- Hlen at 1. rewrite read_counted_enc by lia.
    reflexivity.
  - intros data size s' Hsize. apply gzwrite_whole.
    rewrite length_read_bytes; lia.
  - intros data Hdata. rewrite writeBlob_enc, (_write_open w s) by exact Hs.
    unfold enc_blob.
    replace (data =? 0) with false by (symmetry; apply Z.eqb_neq; exact Hdata).
    reflexivity.
  - intros size. rewrite writeBlob_enc. apply reads_back_write; [exact Hs|].
    intros rest. unfold enc_blob. cbn [Z.eqb app].
    apply (read_value_tag fmt rest Htags).
  - intros repr Hlen. unfold writeFloat, _writeFloat. to_writes.
    apply reads_back_write; [exact Hs|]. intros rest. cbn [app].
    destruct (read_value_tag fmt (take 4 repr ++ rest) Htags)
      as (_ & _ & _ & _ & _ & Hfl & _).
    rewrite Hfl.
    replace 4%nat with (length (take 4 repr)) at 1
      by (rewrite length_take; lia).
    rewrite read_raw_app. reflexivity.
  - intros repr Hlen. unfold writeDouble, _writeDouble. to_writes.
    apply reads_back_write; [exact Hs|]. intros rest. cbn [app].
    destruct (read_value_tag fmt (take 8 repr ++ rest) Htags)
      as (_ & _ & _ & _ & _ & _ & Hdb & _).
    rewrite Hdb.
    replace 8%nat with (length (take 8 repr)) at 1
      by (rewrite length_take; lia).
    rewrite read_raw_app. reflexivity.
Qed.

Lemma blobs_read_back_witness :
  (forall data size, data <> 0 -> 0 <= size < 2 ^ 31 ->
     reads_back sample_format [1]
                (writeBlob sample_format sample_os sample_writer data size)
                (V_BLOB (read_bytes sample_os data size))) /\
  (forall data size s', 0 <= size < 2 ^ 31 ->
     gzwrite s' (read_bytes sample_os data size)
     = s' ++ read_bytes sample_os data size) /\
  (forall data, data <> 0 ->
     g_gzFile (writeBlob sample_format sample_os sample_writer data 0)
     = Some ([1] ++ [TYPE_BLOB sample_format; 0])) /\
  (forall size, reads_back sample_format [1]
                  (writeBlob sample_format sample_os sample_writer 0 size) V_NULL) /\
  (forall repr, (4 <= length repr)%nat ->
     reads_back sample_format [1] (writeFloat sample_format sample_writer repr)
                (V_FLOAT (take 4 repr))) /\
  (forall repr, (8 <= length repr)%nat ->
     reads_back sample_format [1] (writeDouble sample_format sample_writer repr)
                (V_DOUBLE (take 8 repr))).
Proof.
  apply (blobs_read_back sample_format sample_os sample_writer [1]).
  - reflexivity.
  - exact sample_tags_differ.
Defined.

(** ** Definitions read back *)

Lemma flat_map_nth_seq (A : Type) (f : string -> list A) (names : list string) :
  flat_map (fun i => f (nth i names EmptyString)) (seq 0 (length names))
  = flat_map f names.
Proof.
  induction names as [|a names IH]; [reflexivity|].
  cbn [length seq flat_map nth]. f_equal.
  rewrite <- seq_shift, flat_map_concat_map, List.map_map,
    <- flat_map_concat_map.
  exact IH.
Qed.

Lemma read_strings_enc (names : list string) (rest : list Z) :
  Forall (fun s => Z.of_nat (length (bytes_of_string s)) < 2 ^ 64) names ->
  read_strings (length names) (flat_map enc_string names ++ rest)
  = Some (map bytes_of_string names, rest).
Proof.
  induction 1 as [|a names Ha _ IH]; [reflexivity|].
  cbn [length read_strings flat_map map]. unfold enc_string at 1.
  rewrite <- !app_assoc. rewrite read_counted_enc by exact Ha.
  rewrite IH. reflexivity.
Qed.

Lemma read_signature_enc (name : string) (num : Z) (names : list string)
    (rest : list Z) :
  Z.of_nat (length (bytes_of_string name)) < 2 ^ 64 ->
  names_ok num names ->
  read_signature (enc_string name ++ enc_uint num ++ enc_names num names ++ rest)
  = Some (bytes_of_string name, map bytes_of_string names, rest).
Proof.
  intros Hname (Hnum & Hsmall & Hnames). unfold read_signature, enc_string.
  rewrite <- app_assoc. rewrite read_counted_enc by exact Hname.
  rewrite decode_enc_uint. subst num.
  unfold enc_names. rewrite Nat2Z.id, flat_map_nth_seq.
  rewrite wrap64_small by lia. rewrite Nat2Z.id.
  rewrite read_strings_enc by exact Hnames. reflexivity.
Qed.

(** X6: on an open stream, a reader that holds the same ids as described
    as the writer reads the head of what [beginEnter] appends as the id of
    the function and, exactly when the id was not yet described, the
    definition with the name of the function and all its argument names;
    the same holds for [beginStruct] with the struct's name and member
    names.  The signatures carry as many names as their count says. *)
Theorem definitions_read_back (fmt : TraceFormat) (os : OS) (w : Writer)
    (s : list Z) (fsig : FunctionSig) (ssig : StructSig)
    (Hs : g_gzFile w = Some s)
    (Hfid : 0 <= fn_id fsig < 2 ^ 32)
    (Hfname : Z.of_nat (length (bytes_of_string (fn_name fsig))) < 2 ^ 64)
    (Hfargs : names_ok (num_args fsig) (arg_names fsig))
    (Hsid : 0 <= st_id ssig < 2 ^ 32)
    (Hsname : Z.of_nat (length (bytes_of_string (st_name ssig))) < 2 ^ 64)
    (Hsmem : names_ok (num_members ssig) (member_names ssig)) :
  (exists bs,
     g_gzFile (snd (beginEnter fmt os w fsig)) = Some (s ++ bs) /\
     forall rest,
       read_enter fmt (functions w) (bs ++ rest) =
       Some (fn_id fsig,
             if described (functions w) (fn_id fsig) then None
             else Some (bytes_of_string (fn_name fsig),
                        map bytes_of_string (arg_names fsig)),
             rest)) /\
  (exists bs,
     g_gzFile (beginStruct fmt w ssig) = Some (s ++ bs) /\
     forall rest,
       read_struct fmt (structs w) (bs ++ rest) =
       Some (st_id ssig,
             if described (structs w) (st_id ssig) then None
             else Some (bytes_of_string (st_name ssig),
                        map bytes_of_string (member_names ssig)),
             rest)).
Proof.
  split.
  - eexists. split.
    + rewrite beginEnter_enc, (ensure_open_open fmt os w s Hs).
      rewrite (_write_open w s) by exact Hs. reflexivity.
    + intros rest. cbn [app]. unfold read_enter. rewrite Z.eqb_refl.
      rewrite <- app_assoc, decode_enc_uint, wrap64_small by lia.
      destruct (described (functions w) (fn_id fsig)); [reflexivity|].
      unfold function_definition. rewrite <- !app_assoc.
      rewrite read_signature_enc by assumption. reflexivity.
  - eexists. split.
    + rewrite beginStruct_enc, (_write_open w s) by exact Hs. reflexivity.
    + intros rest. cbn [app]. unfold read_struct. rewrite Z.eqb_refl.
      rewrite <- app_assoc, decode_enc_uint, wrap64_small by lia.
      destruct (described (structs w) (st_id ssig)); [reflexivity|].
      unfold struct_definition. rewrite <- !app_assoc.
      rewrite read_signature_enc by assumption. reflexivity.
Qed.

Lemma definitions_read_back_witness :
  (exists bs,
     g_gzFile (snd (beginEnter sample_format sample_os sample_writer memcpy_sig))
       = Some ([1] ++ bs) /\
     forall rest,
       read_enter sample_format (functions sample_writer) (bs ++ rest) =
       Some (fn_id memcpy_sig,
             if described (functions sample_writer) (fn_id memcpy_sig) then None
             else Some (bytes_of_string (fn_name memcpy_sig),
                        map bytes_of_string (arg_names memcpy_sig)),
             rest)) /\
  (exists bs,
     g_gzFile (beginStruct sample_format sample_writer sample_struct)
       = Some ([1] ++ bs) /\
     forall rest,
       read_struct sample_format (structs sample_writer) (bs ++ rest) =
       Some (st_id sample_struct,
             if described (structs sample_writer) (st_id sample_struct) then None
             else Some (bytes_of_string (st_name sample_struct),
                        map bytes_of_string (member_names sample_struct)),
             rest)).
Proof.
  apply (definitions_read_back sample_format sample_os sample_writer [1]
           memcpy_sig sample_struct).
  - reflexivity.
  - cbn. lia.
  - cbn. lia.
  - unfold names_ok. cbn. repeat split; try lia. repeat constructor; cbn; lia.
  - cbn. lia.
  - cbn. lia.
  - unfold names_ok. cbn. repeat split; try lia. repeat constructor; cbn; lia.
Defined.

(** ** Runs of write operations on an open stream *)

Lemma cache_mark_keeps (m : list bool) (i j : Z) :
  described m j = true -> described (cache_mark m i) j = true.
Proof.
  unfold cache_mark, lookup, mark, described. intros Hj.
  destruct (m !! Z.to_nat j) as [b|] eqn:E; cbn [from_option id] in Hj;
    [subst b|discriminate].
  pose proof (lookup_lt_Some _ _ _ E) as Hlt.
  destruct (Z.leb_spec (Z.of_nat (length m)) i) as [Hle|Hgt].
  - destruct (Nat.eq_dec (Z.to_nat i) (Z.to_nat j)) as [Heq|Hne].
    + rewrite Heq, list_lookup_insert_eq by (rewrite length_resize; lia).
      reflexivity.
    + rewrite list_lookup_insert_ne by exact Hne.
      rewrite lookup_resize by lia. rewrite E. reflexivity.
  - destruct (default false (m !! Z.to_nat i)).
    + rewrite E. reflexivity.
    + destruct (Nat.eq_dec (Z.to_nat i) (Z.to_nat j)) as [Heq|Hne].
      * rewrite Heq, list_lookup_insert_eq by lia. reflexivity.
      * rewrite list_lookup_insert_ne by exact Hne. rewrite E. reflexivity.
Qed.

Lemma cache_mark_length (m : list bool) (i : Z) :
  (length m <= length (cache_mark m i))%nat.
Proof.
  unfold cache_mark, lookup, mark.
  destruct (Z.leb_spec (Z.of_nat (length m)) i) as [Hle|Hgt].
  - rewrite length_insert, length_resize. lia.
  - destruct (default false (m !! Z.to_nat i)); [|rewrite length_insert]; lia.
Qed.

(** The operations that do not touch a cache only write. *)
Lemma exec_plain (fmt : TraceFormat) (os : OS) (w : Writer) (op : WriteOp) :
  match op with
  | OpBeginEnter _ | OpBeginStruct _ | OpWriteEnum _ | OpWriteBitmask _ _ => True
  | _ => exists b, exec fmt os w op = _write w b
  end.
Proof.
  destruct op; cbn [exec]; try exact I;
    unfold _writeFloat, _writeDouble, writeBool, writeFloat, writeDouble,
      writeString, writeString_len, writeWString, writeNull, beginArray,
      _writeFloat, _writeDouble;
    to_events; to_writes;
    repeat match goal with
           | |- context [match ?x with _ => _ end] => destruct x
           end;
    to_writes;
    first [ eexists; reflexivity | exists []; symmetry; apply _write_nil ].
Qed.

(** One operation on an open stream: bytes are appended to the stream,
    which stays open; only [beginEnter] moves the call counter, by one; the
    ids held by the caches stay, and the caches do not shrink. *)
Lemma exec_open (fmt : TraceFormat) (os : OS) (w : Writer) (s : list Z)
    (op : WriteOp) :
  g_gzFile w = Some s ->
  (exists bs, g_gzFile (exec fmt os w op) = Some (s ++ bs)) /\
  gz_closed (exec fmt os w op) = gz_closed w /\
  call_no (exec fmt os w op) =
    match op with
    | OpBeginEnter _ => wrap32 (call_no w + 1)
    | _ => call_no w
    end /\
  (forall k j, described (cache_of k w) j = true ->
               described (cache_of k (exec fmt os w op)) j = true) /\
  (forall k, (length (cache_of k w) <= length (cache_of k (exec fmt os w op)))%nat).
Proof.
  intros Hs.
  assert (Hplain : forall b,
    (exists bs, g_gzFile (_write w b) = Some (s ++ bs)) /\
    gz_closed (_write w b) = gz_closed w /\
    call_no (_write w b) = call_no w /\
    (forall k j, described (cache_of k w) j = true ->
                 described (cache_of k (_write w b)) j = true) /\
    (forall k, (length (cache_of k w) <= length (cache_of k (_write w b)))%nat)).
  { intros b. rewrite (_write_open w s) by exact Hs.
    split; [exists b; reflexivity|]. split; [reflexivity|].
    split; [reflexivity|]. split.
    - intros [] j H; exact H.
    - intros []; cbn; lia. }
  pose proof (exec_plain fmt os w op) as Hop.
  destruct op;
    try (match type of Hop with ex _ => destruct Hop as [b Hb] end;
         rewrite Hb; apply Hplain);
    cbn [exec].
  - rewrite beginEnter_enc, (ensure_open_open fmt os w s Hs).
    rewrite (_write_open w s) by exact Hs. cbn [snd].
    split; [eexists; reflexivity|]. split; [reflexivity|]. split; [reflexivity|].
    split.
    + intros [] j H; cbn in *; try exact H. apply cache_mark_keeps, H.
    + intros []; cbn; try lia. apply cache_mark_length.
  - rewrite beginStruct_enc, (_write_open w s) by exact Hs.
    split; [eexists; reflexivity|]. split; [reflexivity|]. split; [reflexivity|].
    split.
    + intros [] j H; cbn in *; try exact H. apply cache_mark_keeps, H.
    + intros []; cbn; try lia. apply cache_mark_length.
  - rewrite writeEnum_enc, (_write_open w s) by exact Hs.
    split; [eexists; reflexivity|]. split; [reflexivity|]. split; [reflexivity|].
    split.
    + intros [] j H; cbn in *; try exact H. apply cache_mark_keeps, H.
    + intros []; cbn; try lia. apply cache_mark_length.
  - rewrite writeBitmask_enc, (_write_open w s) by exact Hs.
    split; [eexists; reflexivity|]. split; [reflexivity|]. split; [reflexivity|].
    split.
    + intros [] j H; cbn in *; try exact H. apply cache_mark_keeps, H.
    + intros []; cbn; try lia. apply cache_mark_length.
Qed.

Lemma wrap32_add (a b : Z) : wrap32 (wrap32 a + b) = wrap32 (a + b).
Proof. unfold wrap32. apply Zplus_mod_idemp_l. Qed.

Lemma count_enters_nonneg (ops : list WriteOp) : 0 <= count_enters ops.
Proof.
  induction ops as [|op ops IH]; cbn [count_enters]; [lia|].
  destruct op; lia.
Qed.

Lemma exec_run_open (fmt : TraceFormat) (os : OS) (ops : list WriteOp) :
  forall (w : Writer) (s : list Z),
    g_gzFile w = Some s ->
    (exists bs, g_gzFile (fold_left (exec fmt os) ops w) = Some (s ++ bs)) /\
    gz_closed (fold_left (exec fmt os) ops w) = gz_closed w /\
    call_no (fold_left (exec fmt os) ops w) =
      (if count_enters ops =? 0 then call_no w
       else wrap32 (call_no w + count_enters ops)) /\
    (forall k j, described (cache_of k w) j = true ->
       described (cache_of k (fold_left (exec fmt os) ops w)) j = true) /\
    (forall k, (length (cache_of k w)
                <= length (cache_of k (fold_left (exec fmt os) ops w)))%nat).
Proof.
  induction ops as [|op ops IH]; intros w s Hs; cbn [fold_left count_enters].
  - split; [exists []; rewrite app_nil_r; exact Hs|].
    repeat split; auto.
  - destruct (exec_open fmt os w s op Hs) as ([b1 Hb1] & Hcl & Hcn & Hkeep & Hlen).
    destruct (IH _ _ Hb1) as ([b2 Hb2] & Hcl' & Hcn' & Hkeep' & Hlen').
    split; [exists (b1 ++ b2); rewrite Hb2, app_assoc; reflexivity|].
    split; [congruence|]. split; [|split].
    + rewrite Hcn', Hcn. pose proof (count_enters_nonneg ops) as Hn.
      destruct op;
        try (destruct (Z.eqb_spec (count_enters ops) 0); reflexivity).
      replace (1 + count_enters ops =? 0) with false
        by (symmetry; apply Z.eqb_neq; lia).
      destruct (Z.eqb_spec (count_enters ops) 0) as [->|_].
      * rewrite Z.add_0_r. reflexivity.
      * rewrite wrap32_add. f_equal. lia.
    + intros k j H. apply Hkeep', Hkeep, H.
    + intros k. specialize (Hlen k). specialize (Hlen' k). lia.
Qed.

(** X7: a stream that is open is only ever appended to: after any run of
    write operations it is still open, it holds the bytes it held followed
    by the bytes of the run, and no stream was handed to [gzclose]. *)
Theorem stream_append_only (fmt : TraceFormat) (os : OS) (w : Writer)
    (s : list Z) (ops : list WriteOp) (Hs : g_gzFile w = Some s) :
  (exists bs, g_gzFile (fold_left (exec fmt os) ops w) = Some (s ++ bs)) /\
  gz_closed (fold_left (exec fmt os) ops w) = gz_closed w.
Proof.
  destruct (exec_run_open fmt os ops w s Hs) as (H1 & H2 & _). split; assumption.
Qed.

Lemma stream_append_only_witness :
  (exists bs,
     g_gzFile (fold_left (exec sample_format sample_os)
                 [OpBeginEnter memcpy_sig; OpBeginArg 0; OpWriteSInt (-5);
                  OpEndArg; OpEndEnter; OpBeginLeave 0; OpEndLeave]
                 sample_writer) = Some ([1] ++ bs)) /\
  gz_closed (fold_left (exec sample_format sample_os)
               [OpBeginEnter memcpy_sig; OpBeginArg 0; OpWriteSInt (-5);
                OpEndArg; OpEndEnter; OpBeginLeave 0; OpEndLeave]
               sample_writer) = gz_closed sample_writer.
Proof.
  apply (stream_append_only sample_format sample_os sample_writer [1]).
  reflexivity.
Defined.

(** X8: on an open stream the call counter counts the calls entered: after
    a run of write operations it is the counter before the run plus the
    number of [beginEnter] in the run, modulo 2^32, no other operation
    moving it; so the next [beginEnter] returns that number and leaves the
    counter one further. *)
Theorem call_numbers_count_enters (fmt : TraceFormat) (os : OS) (w : Writer)
    (s : list Z) (ops : list WriteOp) (sig : FunctionSig)
    (Hs : g_gzFile w = Some s) (Hc : 0 <= call_no w < 2 ^ 32) :
  call_no (fold_left (exec fmt os) ops w) = wrap32 (call_no w + count_enters ops) /\
  fst (beginEnter fmt os (fold_left (exec fmt os) ops w) sig)
    = wrap32 (call_no w + count_enters ops) /\
  call_no (snd (beginEnter fmt os (fold_left (exec fmt os) ops w) sig))
    = wrap32 (call_no w + count_enters ops + 1).
Proof.
  destruct (exec_run_open fmt os ops w s Hs) as ([bs Hbs] & _ & Hcn & _).
  assert (Hrun : call_no (fold_left (exec fmt os) ops w)
                 = wrap32 (call_no w + count_enters ops)).
  { rewrite Hcn. destruct (Z.eqb_spec (count_enters ops) 0) as [->|_];
      [|reflexivity].
    rewrite Z.add_0_r. unfold wrap32. symmetry. apply Z.mod_small. exact Hc. }
  split; [exact Hrun|].
  rewrite beginEnter_enc, (ensure_open_open fmt os _ _ Hbs). cbn [fst snd].
  split; [exact Hrun|].
  cbn [call_no set_call_no]. rewrite Hrun, wrap32_add. reflexivity.
Qed.

Lemma call_numbers_count_enters_witness :
  call_no (fold_left (exec sample_format sample_os)
             [OpBeginEnter memcpy_sig; OpEndEnter; OpBeginLeave 0; OpEndLeave;
              OpBeginEnter malloc_sig; OpEndEnter] sample_writer)
    = wrap32 (call_no sample_writer
              + count_enters [OpBeginEnter memcpy_sig; OpEndEnter; OpBeginLeave 0;
                              OpEndLeave; OpBeginEnter malloc_sig; OpEndEnter]) /\
  fst (beginEnter sample_format sample_os
         (fold_left (exec sample_format sample_os)
            [OpBeginEnter memcpy_sig; OpEndEnter; OpBeginLeave 0; OpEndLeave;
             OpBeginEnter malloc_sig; OpEndEnter] sample_writer) sample_sig)
    = wrap32 (call_no sample_writer
              + count_enters [OpBeginEnter memcpy_sig; OpEndEnter; OpBeginLeave 0;
                              OpEndLeave; OpBeginEnter malloc_sig; OpEndEnter]) /\
  call_no (snd (beginEnter sample_format sample_os
         (fold_left (exec sample_format sample_os)
            [OpBeginEnter memcpy_sig; OpEndEnter; OpBeginLeave 0; OpEndLeave;
             OpBeginEnter malloc_sig; OpEndEnter] sample_writer) sample_sig))
    = wrap32 (call_no sample_writer
              + count_enters [OpBeginEnter memcpy_sig; OpEndEnter; OpBeginLeave 0;
                              OpEndLeave; OpBeginEnter malloc_sig; OpEndEnter] + 1).
Proof.
  apply (call_numbers_count_enters sample_format sample_os sample_writer [1]).
  - reflexivity.
  - replace (call_no sample_writer) with 0 by reflexivity. lia.
Defined.

(** X9: while the stream stays open, a cache never forgets: an id that
    [lookup] answers true for before a run of write operations is answered
    true for after it, for each of the four caches, and no cache gets
    shorter. *)
Theorem caches_never_forget (fmt : TraceFormat) (os : OS) (w : Writer)
    (s : list Z) (ops : list WriteOp) (k : Kind) (j : Z)
    (Hs : g_gzFile w = Some s)
    (Hj : snd (lookup (cache_of k w) j) = true) :
  snd (lookup (cache_of k (fold_left (exec fmt os) ops w)) j) = true /\
  (length (cache_of k w)
   <= length (cache_of k (fold_left (exec fmt os) ops w)))%nat.
Proof.
  destruct (exec_run_open fmt os ops w s Hs) as (_ & _ & _ & Hkeep & Hlen).
  rewrite lookup_described in *. split; [apply Hkeep, Hj|apply Hlen].
Qed.

Lemma caches_never_forget_witness :
  snd (lookup (cache_of KFunction
                 (fold_left (exec sample_format sample_os)
                    [OpBeginEnter malloc_sig; OpWriteUInt 3; OpEndEnter]
                    (snd (beginEnter sample_format sample_os sample_writer
                            memcpy_sig)))) 0) = true /\
  (length (cache_of KFunction
             (snd (beginEnter sample_format sample_os sample_writer memcpy_sig)))
   <= length (cache_of KFunction
                (fold_left (exec sample_format sample_os)
                   [OpBeginEnter malloc_sig; OpWriteUInt 3; OpEndEnter]
                   (snd (beginEnter sample_format sample_os sample_writer
                           memcpy_sig)))))%nat.
Proof.
  apply (caches_never_forget sample_format sample_os _ 
           (stream (snd (beginEnter sample_format sample_os sample_writer
                           memcpy_sig)))).
  - reflexivity.
  - reflexivity.
Defined.

(** X10: [beginEnter] on a writer without a stream opens one first.  When
    [gzopen] gives a handle, the call is numbered 0 whatever the counter
    was, the new stream holds the version, then the ENTER tag, the id and
    the full definition of the function whatever was described before, and
    the counter is left at 1 with only this id in the caches.  When
    [gzopen] fails, nothing is written, yet the call takes the current
    number, the counter moves on by one and the id is held as described. *)
Theorem beginEnter_opens_session (fmt : TraceFormat) (os : OS) (w : Writer)
    (sig : FunctionSig) (Hw : g_gzFile w = None) :
  beginEnter fmt os w sig =
    if gzopen os then
      (0,
       {| g_gzFile :=
            Some (enc_uint (TRACE_VERSION fmt)
                  ++ EVENT_ENTER fmt :: enc_uint (fn_id sig)
                  ++ function_definition sig);
          call_no := 1;
          functions := cache_mark [] (fn_id sig);
          structs := []; enums := []; bitmasks := [];
          gz_closed := gz_closed w |})
    else
      (call_no w,
       {| g_gzFile := None;
          call_no := wrap32 (call_no w + 1);
          functions := cache_mark (functions w) (fn_id sig);
          structs := structs w; enums := enums w; bitmasks := bitmasks w;
          gz_closed := gz_closed w |}).
Proof.
  rewrite beginEnter_enc.
  unfold ensure_open, open_void, open, close. rewrite Hw.
  destruct (gzopen os); cbn [snd].
  - rewrite _writeUInt_enc. unfold _write at 2. cbn [g_gzFile set_gzFile app].
    unfold _write. cbn. reflexivity.
  - rewrite _write_closed by exact Hw.
    destruct w as [g c f st e b cl]. cbn in *. subst g. reflexivity.
Qed.

Lemma beginEnter_opens_session_witness :
  beginEnter sample_format sample_os
             (set_call_no (set_functions new_Writer [true]) 7) memcpy_sig =
    if gzopen sample_os then
      (0,
       {| g_gzFile :=
            Some (enc_uint (TRACE_VERSION sample_format)
                  ++ EVENT_ENTER sample_format :: enc_uint (fn_id memcpy_sig)
                  ++ function_definition memcpy_sig);
          call_no := 1;
          functions := cache_mark [] (fn_id memcpy_sig);
          structs := []; enums := []; bitmasks := [];
          gz_closed := gz_closed (set_call_no (set_functions new_Writer [true]) 7) |})
    else
      (call_no (set_call_no (set_functions new_Writer [true]) 7),
       {| g_gzFile := None;
          call_no := wrap32 (call_no (set_call_no (set_functions new_Writer [true]) 7) + 1);
          functions := cache_mark (functions (set_call_no (set_functions new_Writer [true]) 7))
                                  (fn_id memcpy_sig);
          structs := structs (set_call_no (set_functions new_Writer [true]) 7);
          enums := enums (set_call_no (set_functions new_Writer [true]) 7);
          bitmasks := bitmasks (set_call_no (set_functions new_Writer [true]) 7);
          gz_closed := gz_closed (set_call_no (set_functions new_Writer [true]) 7) |}).
Proof.
  apply (beginEnter_opens_session sample_format sample_os
           (set_call_no (set_functions new_Writer [true]) 7) memcpy_sig).
  reflexivity.
Defined.

(** ** The regions of the registry never overlap *)

Lemma overlaps_apart (a b : Z) (r : RegionInfo) :
  overlaps a b r = false <-> apart (a, b) (extent r).
Proof. unfold overlaps, apart, extent. cbn [fst snd]. tauto. Qed.

Lemma apart_sym (e1 e2 : Z * Z) : apart e1 e2 -> apart e2 e1.
Proof. unfold apart. rewrite andb_comm. tauto. Qed.

Lemma pairwise_apart_snoc (l : list (Z * Z)) (x : Z * Z) :
  pairwise_apart l -> Forall (fun e => apart e x) l -> pairwise_apart (l ++ [x]).
Proof.
  induction l as [|e l IH]; intros Hl Hx; cbn [app pairwise_apart].
  - split; [constructor|exact I].
  - destruct Hl as [He Hl]. inversion Hx; subst. split.
    + apply Forall_app. split; [exact He|]. constructor; [assumption|constructor].
    + apply IH; assumption.
Qed.

(** The loop of [lookupRegionInfo] only takes regions away. *)
Lemma find_region_apart (a b : Z) (l : RegionInfoList) :
  pairwise_apart (map extent l) ->
  forall kept found,
    find_region a b l = (kept, found) ->
    pairwise_apart
      (map extent (kept ++ match found with
                           | Some (it, tl) => it :: tl
                           | None => []
                           end)).
Proof.
  induction l as [|r l IH]; intros Hl kept found H; cbn [find_region] in H.
  - inversion H. exact I.
  - cbn [map pairwise_apart] in Hl. destruct Hl as [Hr Hl].
    fold (overlaps a b r) in H. destruct (overlaps a b r).
    + destruct ((a =? rg_start r) && (b =? wrap64 (rg_start r + rg_size r))).
      * inversion H. cbn [app map pairwise_apart]. split; assumption.
      * eapply IH; eassumption.
    + destruct (find_region a b l) as [k f] eqn:E. inversion H; subst.
      cbn [app map pairwise_apart]. split; [|eapply IH; [exact Hl|reflexivity]].
      rewrite List.Forall_map in Hr.
      destruct (find_region_Forall _ a b l Hr _ _ E) as [Hk Hf].
      rewrite List.Forall_map. apply Forall_app. split; [exact Hk|].
      destruct found as [[it tl]|]; [|constructor].
      destruct Hf. constructor; assumption.
Qed.

Lemma new_region_stop (a b : Z) :
  0 <= b < 2 ^ 64 -> wrap64 (a + wrap64 (b - a)) = b.
Proof.
  intros Hb. unfold wrap64. rewrite Zplus_mod_idemp_r.
  replace (a + (b - a)) with b by lia. apply Z.mod_small. exact Hb.
Qed.

Lemma updateRegion_apart (fmt : TraceFormat) (crc32 : Z -> list Z -> Z)
    (rq : Request) (w : Writer) (regs : RegionInfoList) :
  extent_ok rq -> pairwise_apart (map extent regs) ->
  pairwise_apart
    (map extent (snd (updateRegion fmt crc32 (rq_os rq) (w, regs)
                        (rq_ptr rq) (rq_size rq)))).
Proof.
  intros Hext Hregs.
  assert (Hres : forall w1 before region after,
    lookupRegionInfo fmt (rq_os rq) w regs (rq_ptr rq)
      = Some (w1, (before, region, after)) ->
    forall rs,
      pairwise_apart (map extent (before ++ set_ranges region rs :: after))).
  { intros w1 before region after H rs.
    replace (map extent (before ++ set_ranges region rs :: after))
      with (map extent (before ++ region :: after))
      by (rewrite !map_app; reflexivity).
    unfold lookupRegionInfo in H.
    destruct (queryVirtualAddress (rq_os rq) (rq_ptr rq)) as [[a b]|] eqn:Hq;
      [|discriminate].
    destruct (find_region a b regs) as [kept [[it tl]|]] eqn:E;
      inversion H; subst; clear H;
      pose proof (find_region_apart a b regs Hregs _ _ E) as Hp.
    - exact Hp.
    - rewrite app_nil_r in Hp. rewrite map_app. apply pairwise_apart_snoc;
        [exact Hp|].
      rewrite List.Forall_map.
      eapply Forall_impl; [exact (find_region_kept a b regs _ _ E)|].
      intros r Hr. apply apart_sym. apply overlaps_apart in Hr.
      unfold extent at 1. cbn [rg_start rg_size].
      rewrite new_region_stop by (apply (Hext a b Hq)). exact Hr. }
  unfold updateRegion. cbn [fst snd].
  destruct (rq_ptr rq =? 0); [exact Hregs|].
  destruct (lookupRegionInfo fmt (rq_os rq) w regs (rq_ptr rq))
    as [[w1 [[before region] after]]|] eqn:E; [|exact Hregs].
  specialize (Hres _ _ _ _ eq_refl).
  destruct (rq_size rq =? 0).
  - cbn [snd registry_of]. destruct region as [sz st rs]. apply (Hres rs).
  - destruct (check_ranges _ _ _ _ _ _) as [kept copy].
    destruct (fold_left _ _ _) as [w2 rs]. cbn [snd registry_of]. apply Hres.
Qed.

(** X11: starting from an empty registry, after any sequence of
    [updateRegion] requests for which the operating system reports extents
    that stop inside the address space, no two regions of the registry
    have extents that the test of [lookupRegionInfo] finds intersecting:
    a region whose stored extent is met again with another shape is
    dropped before the new one is registered. *)
Theorem regions_never_overlap (fmt : TraceFormat) (crc32 : Z -> list Z -> Z)
    (w : Writer) (reqs : list Request) (Hreqs : Forall extent_ok reqs) :
  pairwise_apart (map extent (snd (run fmt crc32 (w, []) reqs))).
Proof.
  unfold run.
  assert (Hgen : forall st, pairwise_apart (map extent (snd st)) ->
    pairwise_apart (map extent (snd (fold_left
      (fun st rq => updateRegion fmt crc32 (rq_os rq) st (rq_ptr rq) (rq_size rq))
      reqs st)))).
  { induction Hreqs as [|rq reqs Hrq _ IH]; intros [w0 regs] Hst; cbn [fold_left].
    - exact Hst.
    - apply IH. apply updateRegion_apart; assumption. }
  apply Hgen. exact I.
Qed.

Lemma regions_never_overlap_witness :
  pairwise_apart
    (map extent
       (snd (run sample_format zlib_crc32 (sample_writer, [])
               [ {| rq_os := sample_os; rq_ptr := 4096; rq_size := 100 |};
                 {| rq_os := grown_os; rq_ptr := 9000; rq_size := 16 |};
                 {| rq_os := grown_os; rq_ptr := 4096; rq_size := 0 |} ]))).
Proof.
  apply (regions_never_overlap sample_format zlib_crc32 sample_writer).
  repeat (constructor;
          [ unfold extent_ok; cbn [rq_os rq_ptr rq_size];
            intros a b H; vm_compute in H; inversion H; lia | ]).
  constructor.
Defined.

Lemma pairwise_apart_after (l1 l2 : list (Z * Z)) (x : Z * Z) :
  pairwise_apart (l1 ++ x :: l2) -> Forall (apart x) l2.
Proof.
  induction l1 as [|e l1 IH]; cbn [app pairwise_apart]; intros [H1 H2].
  - exact H1.
  - apply IH, H2.
Qed.

(** X12: on a registry whose regions do not overlap, once [updateRegion]
    has resolved a pointer that is not null to a reported extent that is
    not empty, the registry holds a region with exactly that extent and
    every other region of the registry is apart from it: the regions that
    the extent met with another shape are gone. *)
Theorem resolved_region_alone (fmt : TraceFormat) (crc32 : Z -> list Z -> Z)
    (os : OS) (w : Writer) (regs : RegionInfoList) (ptr size a b : Z)
    (Hptr : ptr <> 0)
    (Hq : queryVirtualAddress os ptr = Some (a, b))
    (Hab : 0 <= a < b) (Hb : b < 2 ^ 64)
    (Hregs : pairwise_apart (map extent regs)) :
  exists before region after,
    snd (updateRegion fmt crc32 os (w, regs) ptr size) = before ++ region :: after /\
    extent region = (a, b) /\
    Forall (fun r => apart (a, b) (extent r)) (before ++ after).
Proof.
  destruct (lookupRegionInfo fmt os w regs ptr)
    as [[w1 [[before region] after]]|] eqn:Hres.
  2: { unfold lookupRegionInfo in Hres. rewrite Hq in Hres.
       destruct (find_region a b regs) as [kept [[it tl]|]]; discriminate. }
  destruct (lookupRegionInfo_extent fmt os w w1 regs before after region ptr a b
              Hq Hab Hb Hres) as (Hstart & Hstop & Hbefore).
  assert (Hafter : Forall (fun r => apart (a, b) (extent r)) after).
  { unfold lookupRegionInfo in Hres. rewrite Hq in Hres.
    destruct (find_region a b regs) as [kept [[it tl]|]] eqn:E;
      inversion Hres; clear Hres; subst before region after; [|constructor].
    pose proof (find_region_apart a b regs Hregs _ _ E) as Hp.
    rewrite map_app in Hp. cbn [map] in Hp.
    apply pairwise_apart_after in Hp. rewrite List.Forall_map in Hp.
    unfold extent at 1 in Hp. rewrite Hstop, Hstart in Hp. exact Hp. }
  assert (Hregion : forall rs, extent (set_ranges region rs) = (a, b)).
  { intros rs. unfold extent. cbn [set_ranges rg_start rg_size].
    rewrite Hstop, Hstart. reflexivity. }
  assert (Hothers : Forall (fun r => apart (a, b) (extent r)) (before ++ after)).
  { apply Forall_app. split; [|exact Hafter].
    eapply Forall_impl; [exact Hbefore|]. intros r. apply overlaps_apart. }
  unfold updateRegion. cbn [fst snd].
  replace (ptr =? 0) with false by (symmetry; apply Z.eqb_neq; exact Hptr).
  rewrite Hres. destruct (size =? 0).
  - exists before, region, after. split; [reflexivity|].
    split; [|exact Hothers]. destruct region as [sz st rs]. apply (Hregion rs).
  - destruct (check_ranges _ _ _ _ _ _) as [kept copy].
    destruct (fold_left _ _ _) as [w2 rs].
    exists before, (set_ranges region rs), after. split; [reflexivity|].
    split; [apply Hregion|exact Hothers].
Qed.

Lemma resolved_region_alone_witness :
  exists before region after,
    snd (updateRegion sample_format zlib_crc32 grown_os
           (sample_writer, [recorded_region]) 9000 16) = before ++ region :: after /\
    extent region = (4096, 16384) /\
    Forall (fun r => apart (4096, 16384) (extent r)) (before ++ after).
Proof.
  apply (resolved_region_alone sample_format zlib_crc32 grown_os sample_writer
           [recorded_region] 9000 16 4096 16384).
  - lia.
  - reflexivity.
  - lia.
  - lia.
  - cbn. split; [constructor|exact I].
Defined.

(** ** What an update leaves in the records *)

Lemma sub_covers (r : range) (c : range_set) (x : Z) :
  Exists (fun y => covers y x) c -> ~ covers r x ->
  Exists (fun y => covers y x) (sub c r).
Proof.
  intros Hc Hr. apply List.Exists_exists in Hc. destruct Hc as (y & Hy & Hyx).
  apply List.Exists_exists. unfold sub.
  unfold covers in *.
  assert (Hside : x < start r \/ stop r <= x) by lia.
  destruct Hside as [Hlow|Hhigh].
  - exists {| start := start y; stop := Z.min (stop y) (start r) |}. split.
    + apply in_flat_map. exists y. split; [exact Hy|].
      unfold sub_range. apply in_or_app. left.
      replace (start y <? Z.min (stop y) (start r)) with true
        by (symmetry; apply Z.ltb_lt; lia).
      left. reflexivity.
    + cbn [start stop]. lia.
  - exists {| start := Z.max (start y) (stop r); stop := stop y |}. split.
    + apply in_flat_map. exists y. split; [exact Hy|].
      unfold sub_range. apply in_or_app. right.
      replace (Z.max (start y) (stop r) <? stop y) with true
        by (symmetry; apply Z.ltb_lt; lia).
      left. reflexivity.
    + cbn [start stop]. lia.
Qed.

(** The first loop of [updateRegion]: a byte that was to be copied is
    still to be copied or lies in a record that was kept; the records kept
    that intersect the update range have the checksum of their bytes; the
    records that do not intersect it are all kept. *)
Lemma check_ranges_covers (crc32 : Z -> list Z -> Z) (os : OS)
    (region : RegionInfo) (u : range) (l : RangeInfoList) :
  forall copy kept copy',
    check_ranges crc32 os region u l copy = (kept, copy') ->
    (forall x, Exists (fun y => covers y x) copy ->
               Exists (fun y => covers y x) copy' \/
               Exists (fun r => covers (ri_range r) x) kept) /\
    Forall (fun r => intersects (ri_range r) u = true -> fresh crc32 os region r)
           kept /\
    Forall (fun r => intersects (ri_range r) u = false -> In r kept) l /\
    Forall (fun r => In r l) kept.
Proof.
  induction l as [|it l IH]; intros copy kept copy' H; cbn [check_ranges] in H.
  - inversion H; subst. repeat split; auto; constructor.
  - destruct (intersects (ri_range it) u) eqn:Hi;
      [destruct (Z.eqb_spec (crc it)
                   (checksum crc32 os
                      (wrap64 (rg_start region + start (ri_range it)))
                      (wrap64 (stop (ri_range it) - start (ri_range it)))))
         as [Hcrc|Hcrc]|].
    + destruct (check_ranges crc32 os region u l (sub copy (ri_range it)))
        as [k c] eqn:E. inversion H; subst; clear H.
      destruct (IH _ _ _ E) as (Hcov & Hfresh & Hout & Hin).
      split; [|split; [|split]].
      * intros x Hx.
        assert (Hdec : covers (ri_range it) x \/ ~ covers (ri_range it) x)
          by (unfold covers; lia).
        destruct Hdec as [Hit|Hit].
        -- right. constructor. exact Hit.
        -- destruct (Hcov x (sub_covers _ _ _ Hx Hit)) as [Hc|Hk];
             [left; exact Hc|right; apply Exists_cons_tl; exact Hk].
      * constructor; [intros _; exact Hcrc|exact Hfresh].
      * constructor; [intros _; left; reflexivity|].
        eapply Forall_impl; [exact Hout|]. cbn. intros r Hr Hn. right. auto.
      * constructor; [left; reflexivity|].
        eapply Forall_impl; [exact Hin|]. cbn. intros r Hr. right. exact Hr.
    + destruct (IH _ _ _ H) as (Hcov & Hfresh & Hout & Hin).
      split; [exact Hcov|]. split; [exact Hfresh|]. split.
      * constructor; [intros Hn; congruence|exact Hout].
      * eapply Forall_impl; [exact Hin|]. cbn. intros r Hr. right. exact Hr.
    + destruct (check_ranges crc32 os region u l copy) as [k c] eqn:E.
      inversion H; subst; clear H.
      destruct (IH _ _ _ E) as (Hcov & Hfresh & Hout & Hin).
      split; [|split; [|split]].
      * intros x Hx. destruct (Hcov x Hx) as [Hc|Hk];
          [left; exact Hc|right; apply Exists_cons_tl; exact Hk].
      * constructor; [intros Hn; congruence|exact Hfresh].
      * constructor; [intros _; left; reflexivity|].
        eapply Forall_impl; [exact Hout|]. cbn. intros r Hr Hn. right. auto.
      * constructor; [left; reflexivity|].
        eapply Forall_impl; [exact Hin|]. cbn. intros r Hr. right. exact Hr.
Qed.

(** The second loop of [updateRegion] pushes the record of each span
    copied, the last span first. *)
Lemma fold_copy_range_records (fmt : TraceFormat) (crc32 : Z -> list Z -> Z)
    (os : OS) (region : RegionInfo) (c : range_set) :
  forall w rs,
    snd (fold_left (copy_range fmt crc32 os region) c (w, rs))
    = rev (map (new_record crc32 os region) c) ++ rs.
Proof.
  induction c as [|x c IH]; intros w rs; cbn [fold_left].
  - reflexivity.
  - unfold copy_range at 2. rewrite IH. cbn [map rev].
    rewrite <- app_assoc. reflexivity.
Qed.

Lemma updateRegion_records (fmt : TraceFormat) (crc32 : Z -> list Z -> Z)
    (os : OS) (w w1 : Writer) (regs before after : RegionInfoList)
    (region : RegionInfo) (ptr size : Z)
    (Hptr : ptr <> 0) (Hsize : size <> 0)
    (Hres : lookupRegionInfo fmt os w regs ptr = Some (w1, (before, region, after))) :
  let u := update_range region ptr size in
  exists w' rs,
    updateRegion fmt crc32 os (w, regs) ptr size
      = (w', before ++ set_ranges region rs :: after) /\
    (forall x, covers u x -> Exists (fun r => covers (ri_range r) x) rs) /\
    Forall (fun r => fresh crc32 os region r \/
                     (In r (ranges region) /\ intersects (ri_range r) u = false))
           rs /\
    Forall (fun r => intersects (ri_range r) u = false -> In r rs) (ranges region).
Proof.
  intros u. unfold updateRegion. cbn [fst snd].
  replace (ptr =? 0) with false by (symmetry; apply Z.eqb_neq; exact Hptr).
  rewrite Hres.
  replace (size =? 0) with false by (symmetry; apply Z.eqb_neq; exact Hsize).
  fold u.
  destruct (check_ranges crc32 os region u (ranges region) (range_set_of u))
    as [kept copy] eqn:E.
  destruct (check_ranges_covers crc32 os region u _ _ _ _ E)
    as (Hcov & Hfresh & Hout & Hin).
  pose proof (fold_copy_range_records fmt crc32 os region copy w1 kept) as Hrs.
  destruct (fold_left (copy_range fmt crc32 os region) copy (w1, kept))
    as [w2 rs]. cbn [snd] in Hrs. subst rs.
  eexists. eexists. split; [reflexivity|]. split; [|split].
  - intros x Hx. apply Exists_app.
    assert (Hux : Exists (fun y => covers y x) (range_set_of u))
      by (constructor; exact Hx).
    destruct (Hcov x Hux) as [Hc|Hk].
    + left. apply List.Exists_exists in Hc. destruct Hc as (y & Hy & Hyx).
      apply List.Exists_exists. exists (new_record crc32 os region y). split.
      * apply -> in_rev. apply in_map. exact Hy.
      * exact Hyx.
    + right. exact Hk.
  - apply Forall_app. split.
    + apply Forall_rev. apply List.Forall_map.
      apply List.Forall_forall. intros y _. left. reflexivity.
    + apply List.Forall_forall. intros r Hr.
      pose proof (proj1 (List.Forall_forall _ _) Hfresh r Hr) as Hf.
      pose proof (proj1 (List.Forall_forall _ _) Hin r Hr) as Hold.
      destruct (intersects (ri_range r) u) eqn:Hi; [left; auto|right; auto].
  - eapply Forall_impl; [exact Hout|]. cbn. intros r Hr Hn.
    apply in_or_app. right. auto.
Qed.

(** X13: after [updateRegion] on a resolved region, for a pointer that is
    not null and a size that is not zero, the records of the region are up
    to date over the update range: every byte offset of the range lies in
    a record; every record is either one whose checksum is the checksum of
    the bytes it spans now, or a record that was there before and does not
    intersect the range; and the records that do not intersect the range
    are all still there.  The other regions are as [lookupRegionInfo] left
    them. *)
Theorem update_brings_up_to_date (fmt : TraceFormat) (crc32 : Z -> list Z -> Z)
    (os : OS) (w w1 : Writer) (regs before after : RegionInfoList)
    (region : RegionInfo) (ptr size : Z)
    (Hptr : ptr <> 0) (Hsize : size <> 0)
    (Hres : lookupRegionInfo fmt os w regs ptr = Some (w1, (before, region, after))) :
  let u := update_range region ptr size in
  exists w' rs,
    updateRegion fmt crc32 os (w, regs) ptr size
      = (w', before ++ set_ranges region rs :: after) /\
    (forall x, covers u x -> Exists (fun r => covers (ri_range r) x) rs) /\
    Forall (fun r => fresh crc32 os region r \/
                     (In r (ranges region) /\ intersects (ri_range r) u = false))
           rs /\
    Forall (fun r => intersects (ri_range r) u = false -> In r rs) (ranges region).
Proof.
  exact (updateRegion_records fmt crc32 os w w1 regs before after region ptr size
           Hptr Hsize Hres).
Qed.

Lemma update_brings_up_to_date_witness :
  let u := update_range recorded_region (4096 + 50) 100 in
  exists w' rs,
    updateRegion sample_format zlib_crc32 mutated_os
                 (sample_writer, [recorded_region]) (4096 + 50) 100
      = (w', [] ++ set_ranges recorded_region rs :: []) /\
    (forall x, covers u x -> Exists (fun r => covers (ri_range r) x) rs) /\
    Forall (fun r => fresh zlib_crc32 mutated_os recorded_region r \/
                     (In r (ranges recorded_region) /\
                      intersects (ri_range r) u = false))
           rs /\
    Forall (fun r => intersects (ri_range r) u = false -> In r rs)
           (ranges recorded_region).
Proof.
  apply (update_brings_up_to_date sample_format zlib_crc32 mutated_os
           sample_writer sample_writer [recorded_region] [] []
           recorded_region (4096 + 50) 100).
  - lia.
  - lia.
  - reflexivity.
Defined.

(** ** A repeated update *)

(** The first loop of [updateRegion] on records that all have the checksum
    of their bytes where they intersect the update range: every record is
    kept, and what is left to copy is inside the range and meets none of
    the records that intersect it. *)
Lemma check_ranges_settled (crc32 : Z -> list Z -> Z) (os : OS)
    (region : RegionInfo) (u : range) (l : RangeInfoList) :
  Forall (fun r => intersects (ri_range r) u = true -> fresh crc32 os region r) l ->
  forall copy,
    Forall (fun y => start y < stop y /\ within y u) copy ->
    exists copy',
      check_ranges crc32 os region u l copy = (l, copy') /\
      Forall (fun y => start y < stop y /\ within y u) copy' /\
      (forall Q : range -> Prop,
         (forall x y, within y x -> start y <= stop y -> Q x -> Q y) ->
         Forall Q copy -> Forall Q copy') /\
      Forall (fun r => intersects (ri_range r) u = true ->
                       Forall (fun y => disjoint y (ri_range r)) copy') l.
Proof.
  induction 1 as [|it l Hit _ IH]; intros copy Hcopy; cbn [check_ranges].
  - exists copy. repeat split; auto.
  - destruct (intersects (ri_range it) u) eqn:Hi.
    + rewrite (Hit eq_refl), Z.eqb_refl.
      assert (Hsub : Forall (fun y => start y < stop y /\ within y u)
                            (sub copy (ri_range it))).
      { apply List.Forall_forall. intros y Hy. unfold sub in Hy.
        apply in_flat_map in Hy. destruct Hy as (x & Hx & Hy).
        destruct (sub_range_pieces _ _ _ Hy) as (Hne & Hw & _).
        pose proof (proj1 (List.Forall_forall _ _) Hcopy x Hx) as [_ Hxu].
        unfold within in *. split; lia. }
      destruct (IH _ Hsub) as (c & Hc & Hin & HQ & Hd).
      exists c. rewrite Hc. split; [reflexivity|]. split; [exact Hin|].
      split; [|constructor].
      * intros Q Hdown HQc. apply HQ; [exact Hdown|].
        apply sub_inherits; assumption.
      * intros _. apply (HQ (fun y => disjoint y (ri_range it))).
        -- intros x y. apply avoid_inherited.
        -- apply sub_avoids.
      * exact Hd.
    + destruct (IH _ Hcopy) as (c & Hc & Hin & HQ & Hd).
      exists c. rewrite Hc. split; [reflexivity|]. split; [exact Hin|].
      split; [exact HQ|]. constructor; [intros Hn; congruence|exact Hd].
Qed.

(** When the records cover the update range and those that intersect it
    have the checksum of their bytes, nothing is left to copy. *)
Lemma check_ranges_nothing (crc32 : Z -> list Z -> Z) (os : OS)
    (region : RegionInfo) (u : range) (l : RangeInfoList) :
  start u < stop u ->
  Forall (fun r => intersects (ri_range r) u = true -> fresh crc32 os region r) l ->
  (forall x, covers u x -> Exists (fun r => covers (ri_range r) x) l) ->
  check_ranges crc32 os region u l (range_set_of u) = (l, []).
Proof.
  intros Hu Hfresh Hcov.
  destruct (check_ranges_settled crc32 os region u l Hfresh (range_set_of u))
    as (c & Hc & Hin & _ & Hd).
  { constructor; [|constructor]. unfold within. lia. }
  rewrite Hc. f_equal. destruct c as [|y c]; [reflexivity|exfalso].
  inversion Hin as [|? ? [Hne Hw] _]; subst.
  assert (Hx : covers u (start y)) by (unfold covers, within in *; lia).
  apply Hcov in Hx. apply List.Exists_exists in Hx.
  destruct Hx as (r & Hr & Hrx).
  pose proof (proj1 (List.Forall_forall _ _) Hd r Hr) as Hdr.
  assert (Hi : intersects (ri_range r) u = true).
  { unfold intersects, covers, within in *.
    apply andb_true_intro. split; apply Z.ltb_lt; lia. }
  specialize (Hdr Hi). inversion Hdr as [|? ? Hdy _]; subst.
  unfold disjoint, covers in *. lia.
Qed.

(** X14: [updateRegion] is idempotent while nothing changes: for a pointer
    that is not null, inside an extent that is not empty and lies in the
    address space, and a span that does not run past the address space,
    making the same request again on the same machine writes no event and
    leaves the writer and the registry exactly as the first request left
    them, whatever the registry held before. *)
Theorem updateRegion_idempotent (fmt : TraceFormat) (crc32 : Z -> list Z -> Z)
    (os : OS) (w : Writer) (regs : RegionInfoList) (ptr size a b : Z)
    (Hptr : ptr <> 0)
    (Hq : queryVirtualAddress os ptr = Some (a, b))
    (Hab : 0 <= a < b) (Hb : b < 2 ^ 64)
    (Ha : a <= ptr) (Hsize : 0 <= size) (Hend : ptr + size < 2 ^ 64) :
  updateRegion fmt crc32 os (updateRegion fmt crc32 os (w, regs) ptr size) ptr size
  = updateRegion fmt crc32 os (w, regs) ptr size.
Proof.
  destruct (lookupRegionInfo fmt os w regs ptr)
    as [[w1 [[before region] after]]|] eqn:Hres.
  2: { unfold lookupRegionInfo in Hres. rewrite Hq in Hres.
       destruct (find_region a b regs) as [kept [[it tl]|]]; discriminate. }
  destruct (lookupRegionInfo_extent fmt os w w1 regs before after region ptr a b
              Hq Hab Hb Hres) as (Hstart & Hstop & Hbefore).
  assert (Hagain : forall w' rs,
    lookupRegionInfo fmt os w' (before ++ set_ranges region rs :: after) ptr
    = Some (w', (before, set_ranges region rs, after))).
  { intros w' rs. apply (lookupRegionInfo_again fmt os w' before after
                           (set_ranges region rs) ptr a b Hq);
      [lia|exact Hstart|exact Hstop|exact Hbefore]. }
  assert (Hnz : (ptr =? 0) = false) by (apply Z.eqb_neq; exact Hptr).
  destruct (Z.eq_dec size 0) as [Hz|Hsz].
  - subst size.
    assert (Hfirst : updateRegion fmt crc32 os (w, regs) ptr 0
                     = (w1, before ++ region :: after)).
    { unfold updateRegion. cbn [fst snd]. rewrite Hnz, Hres. reflexivity. }
    rewrite Hfirst. unfold updateRegion. cbn [fst snd]. rewrite Hnz.
    pose proof (Hagain w1 (ranges region)) as Hsame.
    replace (set_ranges region (ranges region)) with region in Hsame
      by (destruct region; reflexivity).
    rewrite Hsame. reflexivity.
  - destruct (updateRegion_records fmt crc32 os w w1 regs before after region
                ptr size Hptr Hsz Hres) as (w2 & rs & Hfirst & Hcov & Hrs & _).
    rewrite Hfirst. unfold updateRegion. cbn [fst snd].
    rewrite Hnz, (Hagain w2 rs).
    replace (size =? 0) with false by (symmetry; apply Z.eqb_neq; exact Hsz).
    change (update_range (set_ranges region rs) ptr size)
      with (update_range region ptr size).
    cbn [ranges set_ranges].
    change {| rg_size := rg_size region; rg_start := rg_start region;
              ranges := rs |} with (set_ranges region rs).
    rewrite (check_ranges_nothing crc32 os (set_ranges region rs)
               (update_range region ptr size) rs).
    + reflexivity.
    + unfold update_range. cbn [start stop]. rewrite Hstart.
      rewrite (wrap64_small (ptr - a)) by lia.
      rewrite wrap64_small by lia. lia.
    + eapply Forall_impl; [exact Hrs|]. cbn.
      intros r [Hf|[_ Hn]] Hi; [exact Hf|congruence].
    + exact Hcov.
Qed.

Lemma updateRegion_idempotent_witness :
  updateRegion sample_format zlib_crc32 mutated_os
    (updateRegion sample_format zlib_crc32 mutated_os
       (sample_writer, [recorded_region]) (4096 + 50) 100) (4096 + 50) 100
  = updateRegion sample_format zlib_crc32 mutated_os
      (sample_writer, [recorded_region]) (4096 + 50) 100.
Proof.
  apply (updateRegion_idempotent sample_format zlib_crc32 mutated_os sample_writer
           [recorded_region] (4096 + 50) 100 4096 8192).
  - lia.
  - reflexivity.
  - lia.
  - lia.
  - lia.
  - lia.
  - lia.
Defined.

(** ** The spans copied *)

(** X15: for a request of [size] bytes at [ptr], not null, that stays in
    the address space, on a resolved region that starts at or below [ptr]
    and whose records are not empty and do not overlap, the spans that
    [updateRegion] copies all lie inside the requested bytes
    [[ptr - start, ptr - start + size)] of the region, are not empty, do
    not overlap each other and meet none of the records that are kept; the
    new records are the records of those spans, pushed in front of the
    records kept. *)
Theorem copies_stay_in_range (fmt : TraceFormat) (crc32 : Z -> list Z -> Z)
    (os : OS) (w w1 : Writer) (regs before after : RegionInfoList)
    (region : RegionInfo) (ptr size : Z)
    (Hptr : ptr <> 0) (Hsize : 0 < size) (Hend : ptr + size < 2 ^ 64)
    (Hres : lookupRegionInfo fmt os w regs ptr = Some (w1, (before, region, after)))
    (Hstart : 0 <= rg_start region <= ptr)
    (Hok : records_ok (ranges region)) :
  let lo := ptr - rg_start region in
  exists kept copy,
    check_ranges crc32 os region {| start := lo; stop := lo + size |}
                 (ranges region)
                 (range_set_of {| start := lo; stop := lo + size |})
      = (kept, copy) /\
    snd (updateRegion fmt crc32 os (w, regs) ptr size)
      = before
        ++ set_ranges region (rev (map (new_record crc32 os region) copy) ++ kept)
        :: after /\
    Forall (fun y => lo <= start y /\ start y < stop y /\ stop y <= lo + size) copy /\
    pairwise_disjoint copy /\
    Forall (fun r => Forall (fun y => disjoint y (ri_range r)) copy) kept /\
    Forall (fun r => In r (ranges region)) kept.
Proof.
  intros lo.
  assert (Hu : update_range region ptr size = {| start := lo; stop := lo + size |}).
  { unfold update_range, lo.
    rewrite (wrap64_small (ptr - rg_start region)) by lia.
    rewrite wrap64_small by lia. reflexivity. }
  destruct (check_ranges crc32 os region {| start := lo; stop := lo + size |}
              (ranges region)
              (range_set_of {| start := lo; stop := lo + size |}))
    as [kept copy] eqn:E.
  exists kept, copy. split; [reflexivity|].
  destruct Hok as [Hne Hpw]. rewrite List.Forall_map in Hne.
  assert (Hcopy : copy_ok {| start := lo; stop := lo + size |}
                          (range_set_of {| start := lo; stop := lo + size |})).
  { unfold copy_ok, range_set_of, within. cbn [pairwise_disjoint start stop].
    repeat split; repeat constructor; cbn [start stop]; lia. }
  destruct (check_ranges_ok crc32 os region _ (ranges region) Hne _ _ _ Hcopy E)
    as ((Hcin & Hcpw) & HP & _ & _ & Hcross).
  split; [|split; [|split; [exact Hcpw|split; [exact Hcross|]]]].
  - unfold updateRegion. cbn [fst snd].
    replace (ptr =? 0) with false by (symmetry; apply Z.eqb_neq; exact Hptr).
    rewrite Hres.
    replace (size =? 0) with false by (symmetry; apply Z.eqb_neq; lia).
    rewrite Hu, E.
    pose proof (fold_copy_range_records fmt crc32 os region copy w1 kept) as Hrs.
    destruct (fold_left (copy_range fmt crc32 os region) copy (w1, kept))
      as [w2 rs]. cbn [snd] in Hrs. subst rs. reflexivity.
  - eapply Forall_impl; [exact Hcin|]. unfold within. cbn [start stop].
    intros y Hy. lia.
  - apply HP. apply List.Forall_forall. auto.
Qed.

Lemma copies_stay_in_range_witness :
  let lo := 4096 + 50 - rg_start recorded_region in
  exists kept copy,
    check_ranges zlib_crc32 sample_os recorded_region
                 {| start := lo; stop := lo + 100 |}
                 (ranges recorded_region)
                 (range_set_of {| start := lo; stop := lo + 100 |})
      = (kept, copy) /\
    snd (updateRegion sample_format zlib_crc32 sample_os
           (sample_writer, [recorded_region]) (4096 + 50) 100)
      = []
        ++ set_ranges recorded_region
             (rev (map (new_record zlib_crc32 sample_os recorded_region) copy)
              ++ kept)
        :: [] /\
    Forall (fun y => lo <= start y /\ start y < stop y /\ stop y <= lo + 100) copy /\
    pairwise_disjoint copy /\
    Forall (fun r => Forall (fun y => disjoint y (ri_range r)) copy) kept /\
    Forall (fun r => In r (ranges recorded_region)) kept.
Proof.
  apply (copies_stay_in_range sample_format zlib_crc32 sample_os sample_writer
           sample_writer [recorded_region] [] [] recorded_region (4096 + 50) 100).
  - lia.
  - lia.
  - lia.
  - reflexivity.
  - cbn. lia.
  - unfold records_ok. cbn. repeat split; repeat constructor; cbn; lia.
Defined.

(** ** A session from [open] to [close] *)

(** X16: a session that [open] starts with a handle, that runs any write
    operations and that [close] ends leaves the writer without a stream and
    hands to [gzclose] one stream more, which holds the varint of the
    format version followed by the bytes of the operations; closing again
    changes nothing. *)
Theorem session_file (fmt : TraceFormat) (os : OS) (w : Writer)
    (ops : list WriteOp) (Hos : gzopen os = true) :
  let w1 := snd (open fmt os w) in
  let w3 := close (fold_left (exec fmt os) ops w1) in
  g_gzFile w3 = None /\
  (exists bs, gz_closed w3 = (enc_uint (TRACE_VERSION fmt) ++ bs) :: gz_closed w1) /\
  gz_closed w1 = gz_closed (close w) /\
  close w3 = w3.
Proof.
  intros w1 w3.
  assert (Hw1 : g_gzFile w1 = Some (enc_uint (TRACE_VERSION fmt))).
  { unfold w1, open. rewrite Hos. cbn [snd]. rewrite _writeUInt_enc. reflexivity. }
  destruct (exec_run_open fmt os ops w1 _ Hw1) as ([bs Hbs] & Hcl & _).
  unfold w3, close. rewrite Hbs. cbn [g_gzFile gz_closed].
  split; [reflexivity|]. split; [exists bs; rewrite Hcl; reflexivity|].
  split; [|reflexivity].
  unfold w1, open. rewrite Hos. cbn [snd]. rewrite _writeUInt_enc.
  destruct (_write_fields
              {| g_gzFile := Some []; call_no := 0; functions := [];
                 structs := []; enums := []; bitmasks := [];
                 gz_closed := gz_closed (close w) |}
              (enc_uint (TRACE_VERSION fmt))) as (_ & _ & _ & _ & _ & ->).
  reflexivity.
Qed.

Lemma session_file_witness :
  let w1 := snd (open sample_format sample_os sample_writer) in
  let w3 := close (fold_left (exec sample_format sample_os)
                     [OpBeginEnter sample_sig; OpEndEnter] w1) in
  g_gzFile w3 = None /\
  (exists bs, gz_closed w3
              = (enc_uint (TRACE_VERSION sample_format) ++ bs) :: gz_closed w1) /\
  gz_closed w1 = gz_closed (close sample_writer) /\
  close w3 = w3.
Proof.
  apply (session_file sample_format sample_os sample_writer).
  reflexivity.
Defined.

(** ** Enums and bitmasks read back *)

Lemma read_sint_enc (fmt : TraceFormat) (v : Z) (rest : list Z) :
  TYPE_SINT fmt <> TYPE_UINT fmt ->
  - 2 ^ 63 <= v < 2 ^ 63 ->
  read_sint fmt (enc_sint fmt v ++ rest) = Some (v, rest).
Proof.
  intros Htag Hv. unfold enc_sint, read_sint.
  destruct (Z.ltb_spec v 0); cbn [app].
  - rewrite Z.eqb_refl, decode_enc_uint, neg_as_unsigned by lia.
    do 2 f_equal. lia.
  - replace (TYPE_UINT fmt =? TYPE_SINT fmt) with false
      by (symmetry; apply Z.eqb_neq; congruence).
    rewrite Z.eqb_refl, decode_enc_uint, wrap64_small by lia. reflexivity.
Qed.

Lemma flat_map_nth_seq_flags (A : Type) (f : BitmaskFlag -> list A)
    (fl : list BitmaskFlag) (d : BitmaskFlag) :
  flat_map (fun i => f (nth i fl d)) (seq 0 (length fl)) = flat_map f fl.
Proof.
  induction fl as [|a fl IH]; [reflexivity|].
  cbn [length seq flat_map nth]. f_equal.
  rewrite <- seq_shift, flat_map_concat_map, List.map_map,
    <- flat_map_concat_map.
  exact IH.
Qed.

Lemma read_flags_enc (fl : list BitmaskFlag) (rest : list Z) :
  Forall (fun f => Z.of_nat (length (bytes_of_string (flag_name f))) < 2 ^ 64 /\
                   0 <= flag_value f < 2 ^ 64) fl ->
  read_flags (length fl)
    (flat_map (fun f => enc_string (flag_name f) ++ enc_uint (flag_value f)) fl
     ++ rest)
  = Some (map (fun f => (bytes_of_string (flag_name f), flag_value f)) fl, rest).
Proof.
  induction 1 as [|a fl [Hn Hv] _ IH]; [reflexivity|].
  cbn [length read_flags flat_map map]. unfold enc_string at 1.
  rewrite <- !app_assoc. rewrite read_counted_enc by exact Hn.
  rewrite decode_enc_uint, wrap64_small by exact Hv.
  rewrite IH. reflexivity.
Qed.

(** X17: on an open stream, a reader that holds the same ids as described
    as the writer reads what [writeEnum] appends as the id of the enum and,
    exactly when the id was not yet described, its name and its signed
    value; and what [writeBitmask] appends as the id of the bitmask, all
    its flags with their names and values exactly when the id was not yet
    described, and then the value passed.  The tags SINT and UINT differ
    and the bitmask carries as many flags as its count says. *)
Theorem enums_and_bitmasks_read_back (fmt : TraceFormat) (w : Writer)
    (s : list Z) (esig : EnumSig) (bsig : BitmaskSig) (value : Z)
    (Hs : g_gzFile w = Some s)
    (Htag : TYPE_SINT fmt <> TYPE_UINT fmt)
    (Heid : 0 <= en_id esig < 2 ^ 32)
    (Hename : Z.of_nat (length (bytes_of_string (en_name esig))) < 2 ^ 64)
    (Hevalue : - 2 ^ 63 <= en_value esig < 2 ^ 63)
    (Hbid : 0 <= bm_id bsig < 2 ^ 32)
    (Hflags : flags_ok (num_flags bsig) (flags bsig))
    (Hvalue : 0 <= value < 2 ^ 64) :
  (exists bs,
     g_gzFile (writeEnum fmt w esig) = Some (s ++ bs) /\
     forall rest,
       read_enum fmt (enums w) (bs ++ rest) =
       Some (en_id esig,
             if described (enums w) (en_id esig) then None
             else Some (bytes_of_string (en_name esig), en_value esig),
             rest)) /\
  (exists bs,
     g_gzFile (writeBitmask fmt w bsig value) = Some (s ++ bs) /\
     forall rest,
       read_bitmask fmt (bitmasks w) (bs ++ rest) =
       Some (bm_id bsig,
             if described (bitmasks w) (bm_id bsig) then None
             else Some (map (fun f => (bytes_of_string (flag_name f), flag_value f))
                            (flags bsig)),
             value, rest)).
Proof.
  split.
  - eexists. split.
    + rewrite writeEnum_enc, (_write_open w s) by exact Hs. reflexivity.
    + intros rest. cbn [app]. unfold read_enum. rewrite Z.eqb_refl.
      rewrite <- app_assoc, decode_enc_uint, wrap64_small by lia.
      destruct (described (enums w) (en_id esig)); [reflexivity|].
      unfold enum_definition, enc_string. rewrite <- !app_assoc.
      rewrite read_counted_enc by exact Hename.
      rewrite read_sint_enc by assumption. reflexivity.
  - destruct Hflags as (Hnum & Hsmall & Hfl). eexists. split.
    + rewrite writeBitmask_enc, (_write_open w s) by exact Hs. reflexivity.
    + intros rest. cbn [app]. unfold read_bitmask. rewrite Z.eqb_refl.
      rewrite <- app_assoc, decode_enc_uint, wrap64_small by lia.
      destruct (described (bitmasks w) (bm_id bsig)).
      * cbn [app]. rewrite decode_enc_uint, wrap64_small by lia. reflexivity.
      * unfold bitmask_definition, enc_flags. rewrite <- !app_assoc.
        rewrite decode_enc_uint, Hnum. rewrite wrap64_small by lia.
        rewrite !Nat2Z.id. cbv zeta.
        rewrite (flat_map_nth_seq_flags _
                   (fun f => enc_string (flag_name f) ++ enc_uint (flag_value f))).
        rewrite read_flags_enc by exact Hfl.
        rewrite decode_enc_uint, wrap64_small by lia. reflexivity.
Qed.

Lemma enums_and_bitmasks_read_back_witness :
  (exists bs,
     g_gzFile (writeEnum sample_format sample_writer sample_enum)
       = Some ([1] ++ bs) /\
     forall rest,
       read_enum sample_format (enums sample_writer) (bs ++ rest) =
       Some (en_id sample_enum,
             if described (enums sample_writer) (en_id sample_enum) then None
             else Some (bytes_of_string (en_name sample_enum),
                        en_value sample_enum),
             rest)) /\
  (exists bs,
     g_gzFile (writeBitmask sample_format sample_writer sample_bitmask 256)
       = Some ([1] ++ bs) /\
     forall rest,
       read_bitmask sample_format (bitmasks sample_writer) (bs ++ rest) =
       Some (bm_id sample_bitmask,
             if described (bitmasks sample_writer) (bm_id sample_bitmask) then None
             else Some (map (fun f => (bytes_of_string (flag_name f), flag_value f))
                            (flags sample_bitmask)),
             256, rest)).
Proof.
  apply (enums_and_bitmasks_read_back sample_format sample_writer [1]
           sample_enum sample_bitmask 256).
  - reflexivity.
  - cbn. discriminate.
  - cbn. lia.
  - cbn. lia.
  - cbn. lia.
  - cbn. lia.
  - unfold flags_ok. cbn. repeat split; try lia. repeat constructor; cbn; lia.
  - lia.
Defined.

End Trace.
